(** * lndc.Listener: the accept loop, the three-act handshake task and the
      accept / close protocol of [lndc/listener.go].

    The goroutines of the listener are embedded as finite interaction
    trees over the operations the source performs on its three channels
    ([handshakeSema], [conns], [quit]), on the raw TCP listener, on the
    accepted raw connection and on the noise machine.  Two semantics are
    given to those trees:

    - a sequential one, [run], which executes one goroutine against an
      oracle for every answer of its environment and returns the trace
      of operations it performed;
    - an interleaving one, [step], over the shared state of the
      [Listener] struct, where the channel operations are guarded the
      way Go's channels guard them. *)

From Stdlib Require Import String List Arith Lia Bool.
From Stdlib.Strings Require Import Byte.
From Stdlib Require Import ZArith DecimalString.
From stdpp Require Import base list.
Import ListNotations.

Set Implicit Arguments.

(** ** Data *)

(** A Go [error] value; the nil error is [None] of [option error]. *)
Definition error := string.

Definition bytes := list byte.

(** A [net.Conn] handed out by the raw listener. *)
Definition RawConn := nat.

(** A [*Machine], the noise state machine, consumed as a black box. *)
Definition Machine := nat.

Definition Duration := nat.

Inductive result (A : Type) : Type :=
| Ok (a : A)
| Err (e : error).
Arguments Ok {A} a.
Arguments Err {A} e.

(** The argument of [SetReadDeadline]: [time.Now().Add(d)] or the zero
    [time.Time{}], which removes the deadline. *)
Inductive Deadline : Type :=
| NowAdd (d : Duration)
| ZeroTime.

(** [lndc.Conn]: the raw connection and its noise machine. *)
Record Conn : Type := mkConn {
  Conn_conn : RawConn;
  Conn_noise : Machine
}.

(** [maybeConn]: a [*Conn] (nil is [None]) and an [error] (nil is [None]). *)
Record maybeConn : Type := mkMaybeConn {
  conn : option Conn;
  err : option error
}.

(** A value of interface type [net.Conn] as [Accept] returns it: the nil
    interface, or an interface holding a [*Conn], which may itself be a
    nil pointer. *)
Inductive NetConn : Type :=
| NilIface
| IfaceConn (p : option Conn).

(** [defaultHandshakes] is the capacity of [handshakeSema]. *)
Definition defaultHandshakes : nat := 1000.

(** ** Operations and programs *)

Inductive Op : Type -> Type :=
(* select { case <-l.quit: (true)  default: (false) } *)
| PollQuit : Op bool
(* select { case <-l.handshakeSema: (true)  case <-l.quit: (false) } *)
| RecvSemaOrQuit : Op bool
(* l.handshakeSema <- struct{}{} *)
| SendSema : Op unit
(* select { case l.conns <- m: (true)  case <-l.quit: (false) } *)
| SendConnsOrQuit (m : maybeConn) : Op bool
(* select { case result := <-l.conns: (Some result)  case <-l.quit: (None) } *)
| RecvConnsOrQuit : Op (option maybeConn)
(* close(l.quit) *)
| CloseQuit : Op unit
(* go l.doHandshake(c) *)
| Go (c : RawConn) : Op unit
(* l.tcp.Accept() *)
| TcpAccept : Op (result RawConn)
(* l.tcp.Close() *)
| TcpClose : Op (option error)
(* NewNoiseMachine(initiator, l.localStatic) *)
| NewNoiseMachine (initiator : bool) : Op Machine
(* c.SetReadDeadline(d) *)
| SetReadDeadline (c : RawConn) (d : Deadline) : Op (option error)
(* io.ReadFull(c, buf[:]) with len(buf) = n *)
| ReadFull (c : RawConn) (n : nat) : Op (result bytes)
(* c.Write(b) *)
| ConnWrite (c : RawConn) (b : bytes) : Op (option error)
(* c.Close() *)
| ConnClose (c : RawConn) : Op (option error)
(* m.RecvActOne(b) *)
| RecvActOne (m : Machine) (b : bytes) : Op (option error)
(* m.GenActTwo() *)
| GenActTwo (m : Machine) : Op (result bytes)
(* m.RecvActThree(b) *)
| RecvActThree (m : Machine) (b : bytes) : Op (option error).

Inductive Prog (A : Type) : Type :=
| Ret (a : A)
| Vis (X : Type) (op : Op X) (k : X -> Prog A).
Arguments Ret {A} a.
Arguments Vis {A X} op k.

Fixpoint bind {A B : Type} (p : Prog A) (f : A -> Prog B) : Prog B :=
  match p with
  | Ret a => f a
  | Vis op k => Vis op (fun x => bind (k x) f)
  end.

Definition call {X : Type} (op : Op X) : Prog X := Vis op Ret.

Declare Scope prog_scope.
Delimit Scope prog_scope with prog.
Notation "x <- p ;; q" := (bind p (fun x => q))
  (at level 100, p at next level, q at level 200, right associativity,
   only parsing) : prog_scope.
Notation "p ;; q" := (bind p (fun _ => q))
  (at level 100, q at level 200, right associativity, only parsing)
  : prog_scope.
Local Open Scope prog_scope.

(** ** Traces and the sequential semantics *)

(** One event per operation performed, with the answer it got. *)
Inductive Event : Type :=
| EvPollQuit (fired : bool)
| EvRecvSema (got : bool)
| EvSendSema
| EvSendConns (m : maybeConn) (sent : bool)
| EvRecvConns (r : option maybeConn)
| EvCloseQuit
| EvGo (c : RawConn)
| EvTcpAccept (r : result RawConn)
| EvTcpClose (e : option error)
| EvNewNoiseMachine (initiator : bool) (m : Machine)
| EvSetReadDeadline (c : RawConn) (d : Deadline) (e : option error)
| EvReadFull (c : RawConn) (n : nat) (r : result bytes)
| EvConnWrite (c : RawConn) (b : bytes) (e : option error)
| EvConnClose (c : RawConn) (e : option error)
| EvRecvActOne (m : Machine) (b : bytes) (e : option error)
| EvGenActTwo (m : Machine) (r : result bytes)
| EvRecvActThree (m : Machine) (b : bytes) (e : option error).

Definition event_of {X : Type} (op : Op X) : X -> Event :=
  match op in Op X return X -> Event with
  | PollQuit => EvPollQuit
  | RecvSemaOrQuit => EvRecvSema
  | SendSema => fun _ => EvSendSema
  | SendConnsOrQuit m => EvSendConns m
  | RecvConnsOrQuit => EvRecvConns
  | CloseQuit => fun _ => EvCloseQuit
  | Go c => fun _ => EvGo c
  | TcpAccept => EvTcpAccept
  | TcpClose => EvTcpClose
  | NewNoiseMachine i => EvNewNoiseMachine i
  | SetReadDeadline c d => EvSetReadDeadline c d
  | ReadFull c n => EvReadFull c n
  | ConnWrite c b => EvConnWrite c b
  | ConnClose c => EvConnClose c
  | RecvActOne m b => EvRecvActOne m b
  | GenActTwo m => EvGenActTwo m
  | RecvActThree m b => EvRecvActThree m b
  end.

(** What the environment of a goroutine (the other goroutines, the peer,
    the network, the noise machine) answers to an operation. *)
Definition Answer : Type := forall X : Type, Op X -> X.

(** The answers along one run of a goroutine, by step number. *)
Definition Oracle : Type := nat -> Answer.

Fixpoint trace_from {A : Type} (o : Oracle) (i : nat) (p : Prog A) : list Event :=
  match p with
  | Ret _ => []
  | Vis op k => event_of op (o i _ op) :: trace_from o (S i) (k (o i _ op))
  end.

Fixpoint value_from {A : Type} (o : Oracle) (i : nat) (p : Prog A) : A :=
  match p with
  | Ret a => a
  | Vis op k => value_from o (S i) (k (o i _ op))
  end.

(** [trace o p]: the operations [p] performs when run from its first
    step against [o]; [returns o p]: the value it returns. *)
Definition trace {A : Type} (o : Oracle) (p : Prog A) : list Event :=
  trace_from o 0 p.

Definition returns {A : Type} (o : Oracle) (p : Prog A) : A :=
  value_from o 0 p.

(** ** The goroutines of [listener.go] *)

Section Listener.

(** Constants of package [lndc] declared outside [listener.go]. *)
Variable ActOneSize : nat.
Variable ActThreeSize : nat.
Variable handshakeReadTimeout : Duration.

(** [acceptConn]: hand a connection that completed the handshake to
    [Accept], unless [quit] is closed first. *)
Definition acceptConn (c : option Conn) : Prog unit :=
  call (SendConnsOrQuit {| conn := c; err := None |}) ;; Ret tt.

(** [rejectConn]: hand an error to [Accept], unless [quit] is closed
    first. *)
Definition rejectConn (e : option error) : Prog unit :=
  call (SendConnsOrQuit {| conn := None; err := e |}) ;; Ret tt.

(** The body of [doHandshake] below its [defer]; every [return] of the
    source is [Ret tt]. *)
Definition doHandshake_body (c : RawConn) : Prog unit :=
  fired <- call PollQuit ;;
  if (fired : bool) then Ret tt else
  m <- call (NewNoiseMachine false) ;;
  let lndcConn := {| Conn_conn := c; Conn_noise := m |} in
  call (SetReadDeadline c (NowAdd handshakeReadTimeout)) ;;
  r1 <- call (ReadFull c ActOneSize) ;;
  match r1 with
  | Err e => call (ConnClose (Conn_conn lndcConn)) ;; rejectConn (Some e)
  | Ok actOne =>
  e1 <- call (RecvActOne (Conn_noise lndcConn) actOne) ;;
  match e1 with
  | Some e => call (ConnClose (Conn_conn lndcConn)) ;; rejectConn (Some e)
  | None =>
  r2 <- call (GenActTwo (Conn_noise lndcConn)) ;;
  match r2 with
  | Err e => call (ConnClose (Conn_conn lndcConn)) ;; rejectConn (Some e)
  | Ok actTwo =>
  e2 <- call (ConnWrite c actTwo) ;;
  match e2 with
  | Some e => call (ConnClose (Conn_conn lndcConn)) ;; rejectConn (Some e)
  | None =>
  fired' <- call PollQuit ;;
  if (fired' : bool) then Ret tt else
  call (SetReadDeadline c (NowAdd handshakeReadTimeout)) ;;
  r3 <- call (ReadFull c ActThreeSize) ;;
  match r3 with
  | Err e => call (ConnClose (Conn_conn lndcConn)) ;; rejectConn (Some e)
  | Ok actThree =>
  e3 <- call (RecvActThree (Conn_noise lndcConn) actThree) ;;
  match e3 with
  | Some e => call (ConnClose (Conn_conn lndcConn)) ;; rejectConn (Some e)
  | None =>
  call (SetReadDeadline c ZeroTime) ;;
  acceptConn (Some lndcConn)
  end end end end end end.

(** [doHandshake]: the deferred send on [handshakeSema] runs after the
    body, whichever [return] the body took. *)
Definition doHandshake (c : RawConn) : Prog unit :=
  doHandshake_body c ;; call SendSema.

(** How an iteration of the [for] loop of [listen] ends: it goes to the
    next one, or [listen] returns. *)
Inductive LoopCtl : Type :=
| Continue
| Return.

(** One iteration of the [for] loop of [listen]. *)
Definition listen_iter : Prog LoopCtl :=
  got <- call RecvSemaOrQuit ;;
  if (got : bool) then
    r <- call TcpAccept ;;
    match r with
    | Err e => rejectConn (Some e) ;; call SendSema ;; Ret Continue
    | Ok c => call (Go c) ;; Ret Continue
    end
  else Ret Return.

(** [Accept]. *)
Definition Accept : Prog (NetConn * option error) :=
  r <- call RecvConnsOrQuit ;;
  match r with
  | Some res => Ret (IfaceConn (conn res), err res)
  | None => Ret (NilIface, Some "lndc connection closed"%string)
  end.

(** [Close]. *)
Definition Close : Prog (option error) :=
  fired <- call PollQuit ;;
  (if (fired : bool) then Ret tt else call CloseQuit) ;;
  call TcpClose.


(** ** The interleaving semantics *)

(** A goroutine: what it still has to run and what it has done so far. *)
Record Thread (A : Type) : Type := mkThread {
  prog : Prog A;
  hist : list Event
}.

Definition spawn {A : Type} (p : Prog A) : Thread A :=
  {| prog := p; hist := [] |}.

(** The [Listener] at run time: the two channels that carry state (the
    number of tokens buffered in [handshakeSema], whether [quit] is
    closed; [conns] is unbuffered and holds nothing), whether the
    process died closing a closed channel, and the goroutines: the one
    running [listen], those running [doHandshake], and the callers of
    [Accept] and [Close]. *)
Record State : Type := mkState {
  handshakeSema : nat;
  quit : bool;
  panicked : bool;
  listenG : Thread LoopCtl;
  handshakes : list (Thread unit);
  accepts : list (Thread (NetConn * option error));
  closes : list (Thread (option error))
}.

Definition set_handshakeSema (n : nat) (s : State) : State :=
  mkState n (quit s) (panicked s) (listenG s) (handshakes s) (accepts s) (closes s).
Definition set_quit (b : bool) (s : State) : State :=
  mkState (handshakeSema s) b (panicked s) (listenG s) (handshakes s) (accepts s) (closes s).
Definition set_panicked (b : bool) (s : State) : State :=
  mkState (handshakeSema s) (quit s) b (listenG s) (handshakes s) (accepts s) (closes s).
Definition set_listenG (t : Thread LoopCtl) (s : State) : State :=
  mkState (handshakeSema s) (quit s) (panicked s) t (handshakes s) (accepts s) (closes s).
Definition set_handshakes (l : list (Thread unit)) (s : State) : State :=
  mkState (handshakeSema s) (quit s) (panicked s) (listenG s) l (accepts s) (closes s).
Definition set_accepts (l : list (Thread (NetConn * option error))) (s : State) : State :=
  mkState (handshakeSema s) (quit s) (panicked s) (listenG s) (handshakes s) l (closes s).
Definition set_closes (l : list (Thread (option error))) (s : State) : State :=
  mkState (handshakeSema s) (quit s) (panicked s) (listenG s) (handshakes s) (accepts s) l.

(** A send on the buffered [handshakeSema] goes through when the buffer
    is not full and blocks ([None]) when it is. *)
Definition send_sema (len : nat) : option nat :=
  if (len <? defaultHandshakes)%nat then Some (S len) else None.

(** [NewListener], after the raw listener was bound: the channels are
    made, the [for] loop puts [defaultHandshakes] tokens in
    [handshakeSema], and [listen] is started. *)
Fixpoint fill_sema (i : nat) (len : nat) : option nat :=
  match i with
  | O => Some len
  | S i' => match send_sema len with
            | Some len' => fill_sema i' len'
            | None => None
            end
  end.

Definition NewListener : option State :=
  match fill_sema defaultHandshakes 0 with
  | Some len =>
      Some {| handshakeSema := len; quit := false; panicked := false;
              listenG := spawn listen_iter; handshakes := [];
              accepts := []; closes := [] |}
  | None => None
  end.

(** What an operation does to the shared state when it gets answer [x];
    [None] when the operation cannot complete with that answer in this
    state (the goroutine stays blocked).  A send or receive on the
    unbuffered [conns] needs a partner and is the [Handoff] step below. *)
Definition perform (s : State) {X : Type} (op : Op X) : X -> option State :=
  match op in Op X return X -> option State with
  | PollQuit => fun fired =>
      if Bool.eqb fired (quit s) then Some s else None
  | RecvSemaOrQuit => fun got =>
      if got then
        match handshakeSema s with
        | S n => Some (set_handshakeSema n s)
        | O => None
        end
      else if quit s then Some s else None
  | SendSema => fun _ =>
      match send_sema (handshakeSema s) with
      | Some n => Some (set_handshakeSema n s)
      | None => None
      end
  | SendConnsOrQuit _ => fun sent =>
      if sent then None else if quit s then Some s else None
  | RecvConnsOrQuit => fun r =>
      match r with
      | Some _ => None
      | None => if quit s then Some s else None
      end
  | CloseQuit => fun _ =>
      if quit s then Some (set_panicked true s) else Some (set_quit true s)
  | Go c => fun _ =>
      Some (set_handshakes (handshakes s ++ [spawn (doHandshake c)]) s)
  | _ => fun _ => Some s
  end.

(** A goroutine performs its next operation. *)
Definition advance {A : Type} (t : Thread A) (a : Answer) (s : State)
  : option (Thread A * State) :=
  match prog t with
  | Ret _ => None
  | Vis op k =>
      match perform s op (a _ op) with
      | Some s' =>
          Some ({| prog := k (a _ op);
                   hist := hist t ++ [event_of op (a _ op)] |}, s')
      | None => None
      end
  end.

(** The [for] of [listen]: an iteration that ends in [continue] (or runs
    off its end) is followed by the next one. *)
Definition next_iter (t : Thread LoopCtl) : Thread LoopCtl :=
  match prog t with
  | Ret Continue => {| prog := listen_iter; hist := hist t |}
  | _ => t
  end.

(** The sender's side of a rendezvous on [conns]. *)
Definition offering {A : Type} (p : Prog A) : option (maybeConn * Prog A) :=
  match p with
  | Ret _ => None
  | Vis op k =>
      match op in Op X return (X -> Prog A) -> option (maybeConn * Prog A) with
      | SendConnsOrQuit m => fun k => Some (m, k true)
      | _ => fun _ => None
      end k
  end.

(** The receiver's side. *)
Definition awaiting {A : Type} (p : Prog A) : option (option maybeConn -> Prog A) :=
  match p with
  | Ret _ => None
  | Vis op k =>
      match op in Op X return (X -> Prog A) -> option (option maybeConn -> Prog A) with
      | RecvConnsOrQuit => fun k => Some k
      | _ => fun _ => None
      end k
  end.

Definition sender {A : Type} (t : Thread A) : option (maybeConn * Thread A) :=
  match offering (prog t) with
  | Some (m, p) => Some (m, {| prog := p; hist := hist t ++ [EvSendConns m true] |})
  | None => None
  end.

Definition receiver {A : Type} (t : Thread A) (m : maybeConn) : option (Thread A) :=
  match awaiting (prog t) with
  | Some k => Some {| prog := k (Some m); hist := hist t ++ [EvRecvConns (Some m)] |}
  | None => None
  end.

Inductive Tid : Type :=
| TListen
| THandshake (i : nat)
| TAccept (i : nat)
| TClose (i : nat).

Inductive Action : Type :=
(* goroutine [t] performs its next operation and gets answer [a] *)
| Run (t : Tid) (a : Answer)
(* goroutine [p] sends on [conns] and the [Accept] call [j] receives;
   possible whenever both are in their selects, also with [quit] closed,
   where the select may take either case *)
| Handoff (p : Tid) (j : nat)
(* a goroutine calls [l.Accept()] *)
| CallAccept
(* a goroutine calls [l.Close()] *)
| CallClose.

Definition handoff (s : State) (p : Tid) (j : nat) : option State :=
  match accepts s !! j with
  | None => None
  | Some ta =>
      match p with
      | TListen =>
          match sender (listenG s) with
          | Some (m, tl) =>
              match receiver ta m with
              | Some ta' =>
                  Some (set_accepts (<[j := ta']> (accepts s))
                          (set_listenG (next_iter tl) s))
              | None => None
              end
          | None => None
          end
      | THandshake i =>
          match handshakes s !! i with
          | None => None
          | Some th =>
              match sender th with
              | Some (m, th') =>
                  match receiver ta m with
                  | Some ta' =>
                      Some (set_accepts (<[j := ta']> (accepts s))
                              (set_handshakes (<[i := th']> (handshakes s)) s))
                  | None => None
                  end
              | None => None
              end
          end
      | _ => None
      end
  end.

Definition step (s : State) (act : Action) : option State :=
  if panicked s then None else
  match act with
  | Run TListen a =>
      match advance (listenG s) a s with
      | Some (t, s') => Some (set_listenG (next_iter t) s')
      | None => None
      end
  | Run (THandshake i) a =>
      match handshakes s !! i with
      | Some t =>
          match advance t a s with
          | Some (t', s') => Some (set_handshakes (<[i := t']> (handshakes s')) s')
          | None => None
          end
      | None => None
      end
  | Run (TAccept i) a =>
      match accepts s !! i with
      | Some t =>
          match advance t a s with
          | Some (t', s') => Some (set_accepts (<[i := t']> (accepts s')) s')
          | None => None
          end
      | None => None
      end
  | Run (TClose i) a =>
      match closes s !! i with
      | Some t =>
          match advance t a s with
          | Some (t', s') => Some (set_closes (<[i := t']> (closes s')) s')
          | None => None
          end
      | None => None
      end
  | Handoff p j => handoff s p j
  | CallAccept => Some (set_accepts (accepts s ++ [spawn Accept]) s)
  | CallClose => Some (set_closes (closes s ++ [spawn Close]) s)
  end.

Fixpoint exec (s : State) (acts : list Action) : option State :=
  match acts with
  | [] => Some s
  | act :: rest =>
      match step s act with
      | Some s' => exec s' rest
      | None => None
      end
  end.

(** The states a listener made by [NewListener] can be in. *)
Definition reachable (s : State) : Prop :=
  exists s0 acts, NewListener = Some s0 /\ exec s0 acts = Some s.

(** ** Observations on traces *)

Definition count_if (f : Event -> bool) (tr : list Event) : nat :=
  length (List.filter f tr).

(** A token taken from, respectively put back in, [handshakeSema]. *)
Definition is_acquire (e : Event) : bool :=
  match e with EvRecvSema true => true | _ => false end.
Definition is_release (e : Event) : bool :=
  match e with EvSendSema => true | _ => false end.
Definition is_go (e : Event) : bool :=
  match e with EvGo _ => true | _ => false end.

(** Operations on the accepted raw connection. *)
Definition is_close (e : Event) : bool :=
  match e with EvConnClose _ _ => true | _ => false end.
Definition is_arm (e : Event) : bool :=
  match e with EvSetReadDeadline _ (NowAdd _) _ => true | _ => false end.
Definition is_clear (e : Event) : bool :=
  match e with EvSetReadDeadline _ ZeroTime _ => true | _ => false end.
Definition is_read (e : Event) : bool :=
  match e with EvReadFull _ _ _ => true | _ => false end.
Definition on_conn (e : Event) : bool :=
  match e with
  | EvSetReadDeadline _ _ _ | EvReadFull _ _ _
  | EvConnWrite _ _ _ | EvConnClose _ _ => true
  | _ => false
  end.

(** Operations on the noise machine, its construction included. *)
Definition on_noise (e : Event) : bool :=
  match e with
  | EvNewNoiseMachine _ _ | EvRecvActOne _ _ _
  | EvGenActTwo _ _ | EvRecvActThree _ _ _ => true
  | _ => false
  end.

(** The six steps of the three-act exchange. *)
Definition is_act (e : Event) : bool :=
  match e with
  | EvReadFull _ _ _ | EvRecvActOne _ _ _ | EvGenActTwo _ _
  | EvConnWrite _ _ _ | EvRecvActThree _ _ _ => true
  | _ => false
  end.

(** The error of a step of the exchange that failed. *)
Definition failure (e : Event) : option error :=
  match e with
  | EvReadFull _ _ (Err x) => Some x
  | EvRecvActOne _ _ (Some x) => Some x
  | EvGenActTwo _ (Err x) => Some x
  | EvConnWrite _ _ (Some x) => Some x
  | EvRecvActThree _ _ (Some x) => Some x
  | _ => None
  end.

Definition failures (tr : list Event) : list error := omap failure tr.

(** The outcomes a goroutine put up for delivery on [conns], and those
    among them that a receiver took: the others were dropped because the
    [quit] case of the [select] was taken. *)
Definition offer (e : Event) : option maybeConn :=
  match e with EvSendConns m _ => Some m | _ => None end.
Definition emission (e : Event) : option maybeConn :=
  match e with EvSendConns m true => Some m | _ => None end.
Definition is_lost (e : Event) : bool :=
  match e with EvSendConns _ false => true | _ => false end.

Definition offered (tr : list Event) : list maybeConn := omap offer tr.
Definition emitted (tr : list Event) : list maybeConn := omap emission tr.

(** The outcomes an [Accept] call received. *)
Definition reception (e : Event) : option maybeConn :=
  match e with EvRecvConns (Some m) => Some m | _ => None end.
Definition received (tr : list Event) : list maybeConn := omap reception tr.

(** What the non-blocking checks of [quit] found, in order. *)
Definition poll (e : Event) : option bool :=
  match e with EvPollQuit b => Some b | _ => None end.
Definition polls (tr : list Event) : list bool := omap poll tr.

(** The ways a handshake task leaves because [quit] is closed: at the
    first check, at the check after Act Two, or in the [select] that
    delivers its outcome. *)
Definition pre_check_exit (tr : list Event) : bool :=
  match polls tr with [true] => true | _ => false end.
Definition mid_check_exit (tr : list Event) : bool :=
  match polls tr with [false; true] => true | _ => false end.
Definition delivery_lost (tr : list Event) : bool :=
  existsb is_lost tr.

(** An outcome holds a connection or an error, not both, not neither. *)
Definition exactly_one (m : maybeConn) : bool :=
  match conn m, err m with
  | Some _, None | None, Some _ => true
  | _, _ => false
  end.

Definition is_success (m : maybeConn) : bool :=
  match conn m with Some _ => true | None => false end.

(** [Accept] returned a nil connection together with a nil error; a
    connection is nil as an interface, or it holds a nil [*Conn]. *)
Definition nil_conn (c : NetConn) : bool :=
  match c with
  | NilIface | IfaceConn None => true
  | IfaceConn (Some _) => false
  end.
Definition nil_nil (r : NetConn * option error) : bool :=
  match r with
  | (c, None) => nil_conn c
  | (_, Some _) => false
  end.

(** ** Environments for concrete runs *)

Record Env : Type := mkEnv {
  env_fired : bool;                   (* the quit case of a select is taken *)
  env_got : bool;                     (* a token is received *)
  env_sent : bool;                    (* the send on conns is taken *)
  env_recv : option maybeConn;        (* what Accept receives *)
  env_accept : result RawConn;        (* l.tcp.Accept() *)
  env_close : option error;           (* l.tcp.Close() *)
  env_read : nat -> result bytes;     (* io.ReadFull of n bytes *)
  env_io : option error;              (* Write, Close, SetReadDeadline *)
  env_noise : option error;           (* RecvActOne, RecvActThree *)
  env_gen : result bytes;             (* GenActTwo *)
  env_machine : Machine
}.

Definition answer (e : Env) : Answer :=
  fun X op =>
    match op in Op X return X with
    | PollQuit => env_fired e
    | RecvSemaOrQuit => env_got e
    | SendSema => tt
    | SendConnsOrQuit _ => env_sent e
    | RecvConnsOrQuit => env_recv e
    | CloseQuit => tt
    | Go _ => tt
    | TcpAccept => env_accept e
    | TcpClose => env_close e
    | NewNoiseMachine _ => env_machine e
    | SetReadDeadline _ _ => env_io e
    | ReadFull _ n => env_read e n
    | ConnWrite _ _ => env_io e
    | ConnClose _ => env_io e
    | RecvActOne _ _ => env_noise e
    | GenActTwo _ => env_gen e
    | RecvActThree _ _ => env_noise e
    end.

(** The listener is open, the peer is honest and the network works. *)
Definition calm : Env :=
  {| env_fired := false; env_got := true; env_sent := true;
     env_recv := None; env_accept := Ok 7; env_close := None;
     env_read := fun n => Ok (repeat "000"%byte n);
     env_io := None; env_noise := None;
     env_gen := Ok (repeat "000"%byte 50); env_machine := 1 |}.

(** [quit] is closed and every [select] takes its quit case. *)
Definition closing : Env :=
  {| env_fired := true; env_got := false; env_sent := false;
     env_recv := None; env_accept := Err "use of closed network connection"%string;
     env_close := Some "use of closed network connection"%string;
     env_read := fun _ => Err "use of closed network connection"%string;
     env_io := None; env_noise := None;
     env_gen := Ok (repeat "000"%byte 50); env_machine := 1 |}.

(** The peer hangs up: reads end early. *)
Definition hangup : Env :=
  {| env_fired := false; env_got := true; env_sent := true;
     env_recv := None; env_accept := Ok 7; env_close := None;
     env_read := fun _ => Err "unexpected EOF"%string;
     env_io := None; env_noise := None;
     env_gen := Ok (repeat "000"%byte 50); env_machine := 1 |}.

(** The raw accept fails. *)
Definition refusing : Env :=
  {| env_fired := false; env_got := true; env_sent := true;
     env_recv := None; env_accept := Err "accept: too many open files"%string;
     env_close := None;
     env_read := fun n => Ok (repeat "000"%byte n);
     env_io := None; env_noise := None;
     env_gen := Ok (repeat "000"%byte 50); env_machine := 1 |}.

(** The oracle that answers step [i] from the [i]-th environment of a
    list, and from [calm] past its end. *)
Definition script (l : list Env) : Oracle :=
  fun i => answer (nth i l calm).

(** ** Observations on states *)

Definition quit_exit (tr : list Event) : bool :=
  pre_check_exit tr || mid_check_exit tr || delivery_lost tr.

(** Every read of the trace comes right after a deadline of [t] from
    now was set on the same connection [c]. *)
Fixpoint reads_armed (c : RawConn) (t : Duration) (tr : list Event) : bool :=
  match tr with
  | [] => true
  | EvReadFull _ _ _ :: _ => false
  | EvSetReadDeadline c1 (NowAdd d) _ :: rest =>
      match rest with
      | EvReadFull c2 _ _ :: rest' =>
          Nat.eqb c1 c && Nat.eqb c2 c && Nat.eqb d t && reads_armed c t rest'
      | _ => false
      end
  | _ :: rest => reads_armed c t rest
  end.

Definition finished {A : Type} (t : Thread A) : bool :=
  match prog t with Ret _ => true | Vis _ _ => false end.

Definition count_in {A : Type} (f : Event -> bool) (t : Thread A) : nat :=
  count_if f (hist t).

Definition count_all (f : Event -> bool) (s : State) : nat :=
  count_in f (listenG s)
  + sum_list_with (count_in f) (handshakes s)
  + sum_list_with (count_in f) (accepts s)
  + sum_list_with (count_in f) (closes s).

(** Tokens received from [handshakeSema] and tokens sent back to it
    since [NewListener] returned; the difference is what the goroutines
    hold. *)
Definition acquired (s : State) : nat := count_all is_acquire s.
Definition released (s : State) : nat := count_all is_release s.
Definition in_flight (s : State) : nat := acquired s - released s.

(** Handshake goroutines that were started and have not returned. *)
Definition active (s : State) : nat :=
  length (List.filter (fun t => negb (finished t)) (handshakes s)).

(** Goroutines blocked in a [select] that sends on [conns]. *)
Definition offers {A : Type} (t : Thread A) : bool :=
  match offering (prog t) with Some _ => true | None => false end.
Definition someone_offers (s : State) : bool :=
  offers (listenG s) || existsb offers (handshakes s).

(** ** Predicates on programs *)

(** Every operation the program can come to perform satisfies [P]. *)
Fixpoint always {A : Type} (P : Event -> bool) (p : Prog A) : Prop :=
  match p with
  | Ret _ => True
  | Vis op k => forall x, P (event_of op x) = true /\ always P (k x)
  end.

(** The program returns a value satisfying [Q] whenever the answers it
    gets satisfy [R]. *)
Fixpoint ensures {A : Type} (R : Event -> bool) (Q : A -> bool) (p : Prog A) : Prop :=
  match p with
  | Ret a => Q a = true
  | Vis op k => forall x, R (event_of op x) = true -> ensures R Q (k x)
  end.

(** The tokens in hand after an operation, from those in hand before
    it.  A goroutine holds one token at most: a receive from
    [handshakeSema] takes one when it has none, a send gives back the
    one it has, a [go doHandshake] passes it to the new goroutine. *)
Definition after (e : Event) (n : nat) : option nat :=
  if is_acquire e then
    match n with O => Some 1 | S _ => None end
  else if is_release e || is_go e then
    match n with 1 => Some 0 | _ => None end
  else Some n.

(** With [n] tokens in hand the program gives back or passes on exactly
    those it holds, on every path to its return. *)
Fixpoint owes {A : Type} (p : Prog A) (n : nat) : Prop :=
  match p with
  | Ret _ => n = 0
  | Vis op k =>
      forall x, match after (event_of op x) n with
                | Some n' => owes (k x) n'
                | None => False
                end
  end.

(** The program still has one token to give back, gives it back as its
    last operation, and takes or passes none before. *)
Fixpoint holds_token {A : Type} (p : Prog A) : Prop :=
  match p with
  | Ret _ => False
  | Vis op k =>
      forall x,
        if is_release (event_of op x)
        then finished (spawn (k x)) = true
        else (is_acquire (event_of op x) || is_go (event_of op x)) = false
             /\ holds_token (k x)
  end.

Definition sema_free (e : Event) : bool :=
  negb (is_acquire e || is_release e || is_go e).

Definition send_ok (e : Event) : bool :=
  match e with EvSendConns m _ => exactly_one m | _ => true end.

Definition recv_ok (e : Event) : bool :=
  match e with EvRecvConns (Some m) => exactly_one m | _ => true end.


(** ** Invariants of the interleaving semantics *)

(** A handshake goroutine has taken and passed no token, and has given
    its own back exactly when it has returned. *)
Definition task_inv (t : Thread unit) : Prop :=
  count_in is_acquire t = 0 /\ count_in is_go t = 0 /\
  ((holds_token (prog t) /\ count_in is_release t = 0) \/
   (finished t = true /\ count_in is_release t = 1)).

(** A caller of [Accept] or [Close] never touches [handshakeSema]. *)
Definition quiet {A : Type} (t : Thread A) : Prop :=
  always sema_free (prog t) /\
  count_in is_acquire t = 0 /\ count_in is_release t = 0 /\ count_in is_go t = 0.

(** The tokens: the one the accept loop may hold, those of the handshake
    goroutines that have not given theirs back, and those in the channel
    add up to the capacity. *)
Record tokens_inv (s : State) : Prop := {
  ti_listen : exists h,
    owes (prog (listenG s)) h /\
    count_in is_acquire (listenG s)
      = count_in is_release (listenG s) + count_in is_go (listenG s) + h /\
    handshakeSema s + h + length (handshakes s)
      = sum_list_with (count_in is_release) (handshakes s) + defaultHandshakes;
  ti_tasks : Forall task_inv (handshakes s);
  ti_accepts : Forall quiet (accepts s);
  ti_closes : Forall quiet (closes s);
  ti_go : count_in is_go (listenG s) = length (handshakes s)
}.

(** A goroutine that only ever sends well-formed outcomes. *)
Definition producer_ok {A : Type} (t : Thread A) : Prop :=
  always send_ok (prog t) /\ forallb send_ok (hist t) = true.

(** A caller of [Accept] that has received well-formed outcomes only and
    will not return nil, nil if it is handed a well-formed outcome. *)
Definition consumer_ok (t : Thread (NetConn * option error)) : Prop :=
  ensures recv_ok (fun r => negb (nil_nil r)) (prog t)
  /\ forallb recv_ok (hist t) = true.

(** The outcomes: only well-formed ones are sent, and received. *)
Record outcomes_inv (s : State) : Prop := {
  oi_listen : producer_ok (listenG s);
  oi_tasks : Forall producer_ok (handshakes s);
  oi_accepts : Forall consumer_ok (accepts s)
}.

(** The acquire of [listen] took its quit case. *)
Definition is_quit_acquire (e : Event) : bool :=
  match e with EvRecvSema false => true | _ => false end.

(** The iteration ends in [continue], except right after its first
    [select] took the quit case, where it returns. *)
Fixpoint loop_shape (p : Prog LoopCtl) : Prop :=
  match p with
  | Ret r => r = Continue
  | Vis op k =>
      forall x, if is_quit_acquire (event_of op x)
                then k x = Ret Return
                else loop_shape (k x)
  end.

(** The accept loop has returned only if [quit] is closed. *)
Definition loop_inv (s : State) : Prop :=
  (prog (listenG s) = Ret Return /\ quit s = true)
  \/ (finished (listenG s) = false /\ loop_shape (prog (listenG s))).

(** The thread is part-way through a run of [p]: what it has done so
    far, followed by any way it can go on, is a trace of [p]. *)
Definition runs {A : Type} (p : Prog A) (t : Thread A) : Prop :=
  forall o' : Oracle, exists o : Oracle,
    trace o p = hist t ++ trace_from o' (length (hist t)) (prog t).

(** ** More observations *)

(** The outcome goroutine [p] is blocked sending on [conns], if any. *)
Definition offer_of (s : State) (p : Tid) : option maybeConn :=
  match p with
  | TListen => fst <$> offering (prog (listenG s))
  | THandshake i =>
      match handshakes s !! i with
      | Some t => fst <$> offering (prog t)
      | None => None
      end
  | _ => None
  end.

(** The history of goroutine [p]. *)
Definition hist_of (s : State) (p : Tid) : list Event :=
  match p with
  | TListen => hist (listenG s)
  | THandshake i => from_option (@hist _) [] (handshakes s !! i)
  | TAccept i => from_option (@hist _) [] (accepts s !! i)
  | TClose i => from_option (@hist _) [] (closes s !! i)
  end.

(** An outcome passed from a sender to a receiver, seen from each side. *)
Definition is_emission (e : Event) : bool :=
  match e with EvSendConns _ true => true | _ => false end.
Definition is_reception (e : Event) : bool :=
  match e with EvRecvConns (Some _) => true | _ => false end.

(** The events a step appends to the histories. *)
Definition next_event {A : Type} (t : Thread A) (a : Answer) : list Event :=
  match prog t with
  | Ret _ => []
  | Vis op _ => [event_of op (a _ op)]
  end.

Definition step_events (s : State) (act : Action) : list Event :=
  match act with
  | Run TListen a => next_event (listenG s) a
  | Run (THandshake i) a =>
      from_option (fun t => next_event t a) [] (handshakes s !! i)
  | Run (TAccept i) a =>
      from_option (fun t => next_event t a) [] (accepts s !! i)
  | Run (TClose i) a =>
      from_option (fun t => next_event t a) [] (closes s !! i)
  | Handoff p _ =>
      match offer_of s p with
      | Some m => [EvSendConns m true; EvRecvConns (Some m)]
      | None => []
      end
  | CallAccept | CallClose => []
  end.

(** The raw accept failed. *)
Definition accept_failed (tr : list Event) : bool :=
  existsb (fun e => match e with EvTcpAccept (Err _) => true | _ => false end) tr.

(** The bytes a read or [GenActTwo] produced; none when it failed. *)
Definition payload (r : result bytes) : bytes :=
  match r with Ok b => b | Err _ => [] end.

(** The task offered a connection, that is, it completed the handshake. *)
Definition succeeded (tr : list Event) : bool :=
  existsb is_success (offered tr).

(** ** Concrete executions *)

(** The listener [NewListener] returns. *)
Definition fresh_listener : State :=
  {| handshakeSema := defaultHandshakes; quit := false; panicked := false;
     listenG := spawn listen_iter; handshakes := [];
     accepts := []; closes := [] |}.

(** Run a list of steps on a fresh listener. *)
Definition start (acts : list Action) : option State :=
  match NewListener with
  | Some s0 => exec s0 acts
  | None => None
  end.

(** The steps can be taken and lead to a state where [P] holds. *)
Definition after_run (acts : list Action) (P : State -> Prop) : Prop :=
  match start acts with
  | Some s => P s
  | None => False
  end.

(** [listen] takes a token, accepts connection 7 and starts its
    handshake. *)
Definition accept_one : list Action :=
  [Run TListen (answer calm); Run TListen (answer calm);
   Run TListen (answer calm)].

(** A call of [Close] by caller [j], run to its return; the raw listener
    answers as in [e]. *)
Definition close_open (j : nat) (e : Env) : list Action :=
  [CallClose; Run (TClose j) (answer calm); Run (TClose j) (answer calm);
   Run (TClose j) (answer e)].
Definition close_closed (j : nat) (e : Env) : list Action :=
  [CallClose; Run (TClose j) (answer closing); Run (TClose j) (answer e)].

(** A connection is accepted, completes the handshake with an honest
    peer, and is handed to a caller of [Accept]. *)
Definition served : list Action :=
  accept_one
  ++ repeat (Run (THandshake 0) (answer calm)) 12
  ++ [CallAccept; Handoff (THandshake 0) 0; Run (THandshake 0) (answer calm)].

(** [Close] is called twice, one call after the other; the raw listener
    reports that it is closed already the second time. *)
Definition closed_twice : list Action :=
  close_open 0 calm ++ close_closed 1 closing.

(** A connection is accepted, the listener is closed, and only then does
    the handshake goroutine get to run. *)
Definition closed_before_handshake : list Action :=
  accept_one ++ close_open 0 calm
  ++ [Run (THandshake 0) (answer closing); Run (THandshake 0) (answer closing)].

(** The peer hangs up before Act One; the listener is closed before the
    error can be handed to anyone. *)
Definition hangup_then_close : list Action :=
  accept_one
  ++ repeat (Run (THandshake 0) (answer calm)) 3
  ++ [Run (THandshake 0) (answer hangup)]
  ++ close_open 0 calm
  ++ [Run (THandshake 0) (answer calm); Run (THandshake 0) (answer closing);
      Run (THandshake 0) (answer closing)].

(** The listener is closed while [listen] waits in the raw accept, which
    then fails. *)
Definition close_then_accept_fails : list Action :=
  [Run TListen (answer calm)]
  ++ close_open 0 calm
  ++ [Run TListen (answer closing); Run TListen (answer closing);
      Run TListen (answer closing)].

(** ** The rest of [listener.go] *)

(** [close(l.quit)] was executed. *)
Definition is_close_quit (e : Event) : bool :=
  match e with EvCloseQuit => true | _ => false end.

(** Equality of outcomes. *)
Definition eqb_Conn (a b : Conn) : bool :=
  Nat.eqb (Conn_conn a) (Conn_conn b) && Nat.eqb (Conn_noise a) (Conn_noise b).

Definition eqb_maybeConn (a b : maybeConn) : bool :=
  match conn a, conn b with
  | Some x, Some y => eqb_Conn x y
  | None, None => true
  | _, _ => false
  end
  && match err a, err b with
     | Some x, Some y => String.eqb x y
     | None, None => true
     | _, _ => false
     end.

(** The outcome [m] was handed over, seen from the sender and from the
    receiver. *)
Definition emits (m : maybeConn) (e : Event) : bool :=
  match e with EvSendConns m' true => eqb_maybeConn m' m | _ => false end.
Definition receives (m : maybeConn) (e : Event) : bool :=
  match e with EvRecvConns (Some m') => eqb_maybeConn m' m | _ => false end.

(** After the raw connection was closed, the trace has no operation on
    it or on the noise machine. *)
Fixpoint untouched_after_close (tr : list Event) : bool :=
  match tr with
  | [] => true
  | e :: rest =>
      if is_close e
      then forallb (fun e' => negb (on_conn e' || on_noise e')) rest
      else untouched_after_close rest
  end.

(** A call of [Close] executes [close(l.quit)] once at most: [n] is how
    many times the program may still do it. *)
Fixpoint closes_quit_within {A : Type} (p : Prog A) (n : nat) : Prop :=
  match p with
  | Ret _ => True
  | Vis op k =>
      forall x, if is_close_quit (event_of op x)
                then match n with
                     | S n' => closes_quit_within (k x) n'
                     | O => False
                     end
                else closes_quit_within (k x) n
  end.

Definition never_closes_quit (e : Event) : bool := negb (is_close_quit e).

(** A call of [Accept] is waiting, has returned the closed error, or has
    returned what the one outcome it received held. *)
Definition accept_form (t : Thread (NetConn * option error)) : Prop :=
  (prog t = Accept /\ hist t = [])
  \/ (prog t = Ret (NilIface, Some "lndc connection closed"%string)
      /\ hist t = [EvRecvConns None])
  \/ (exists m, prog t = Ret (IfaceConn (conn m), err m)
                /\ hist t = [EvRecvConns (Some m)]).

(** [strconv.Itoa]. *)
Definition Itoa (n : Z) : string := NilZero.string_of_int (Z.to_int n).

(** A call that returns a value, fails with an error, or never returns. *)
Inductive returned (A : Type) : Type :=
| Returns (a : A)
| Fails (e : error)
| Blocks.
Arguments Returns {A} a.
Arguments Fails {A} e.
Arguments Blocks {A}.

(** [NewListener] in full: [ResolveTCPAddr] and [ListenTCP] are the two
    calls into package [net], each of which can fail; on success the
    listener of [NewListener] above is returned. *)
Definition NewListenerOn {Addr Tcp : Type}
    (ResolveTCPAddr : string -> string -> result Addr)
    (ListenTCP : string -> Addr -> result Tcp)
    (port : Z) : returned (Tcp * State) :=
  let str := (":" ++ Itoa port)%string in
  match ResolveTCPAddr "tcp"%string str with
  | Err e => Fails e
  | Ok addr =>
      match ListenTCP "tcp"%string addr with
      | Err e => Fails e
      | Ok l =>
          match NewListener with
          | Some s => Returns (l, s)
          | None => Blocks
          end
      end
  end.

(** A goroutine blocked in a [select] that receives from [conns]. *)
Definition waits {A : Type} (t : Thread A) : bool :=
  match awaiting (prog t) with Some _ => true | None => false end.

(** The next operation of a program answered by [a]: what is left of
    the program and the event. *)
Definition peek {A : Type} (p : Prog A) (a : Answer) : option (Prog A * Event) :=
  match p with
  | Ret _ => None
  | Vis op k => Some (k (a _ op), event_of op (a _ op))
  end.

(** The connections the raw accept returned and those a handshake
    goroutine was started for, in order. *)
Definition accepted_conn (e : Event) : option RawConn :=
  match e with EvTcpAccept (Ok c) => Some c | _ => None end.
Definition started_conn (e : Event) : option RawConn :=
  match e with EvGo c => Some c | _ => None end.
Definition accepted (tr : list Event) : list RawConn := omap accepted_conn tr.
Definition started (tr : list Event) : list RawConn := omap started_conn tr.

(** [pend] is the connection accepted and not yet passed to a goroutine:
    the program passes it on as the next thing it does with a
    connection, and accepts no other before. *)
Fixpoint go_pending {A : Type} (p : Prog A) (pend : list RawConn) : Prop :=
  match p with
  | Ret _ => pend = []
  | Vis op k =>
      forall x,
        match event_of op x with
        | EvTcpAccept (Ok c) => pend = [] /\ go_pending (k x) [c]
        | EvGo c => pend = [c] /\ go_pending (k x) []
        | _ => go_pending (k x) pend
        end
  end.

(** The goroutine [t] was started as [go l.doHandshake(c)]. *)
Definition serves (c : RawConn) (t : Thread unit) : Prop :=
  runs (doHandshake c) t.

(** Further concrete executions. *)

(** Two calls of [Close] at the same time: both find [quit] open. *)
Definition closed_at_once : list Action :=
  [CallClose; CallClose;
   Run (TClose 0) (answer calm); Run (TClose 1) (answer calm);
   Run (TClose 0) (answer calm); Run (TClose 1) (answer calm)].

(** The raw accept fails and nobody has called [Accept]. *)
Definition accept_fails_unheard : list Action :=
  [Run TListen (answer calm); Run TListen (answer refusing)].

(** As many connections are accepted as there are tokens, and no
    handshake goroutine has run yet. *)
Definition pool_exhausted : list Action :=
  concat (repeat accept_one defaultHandshakes).

(** The outcome of the handshake of [served]. *)
Definition served_conn : maybeConn :=
  {| conn := Some {| Conn_conn := 7; Conn_noise := 1 |}; err := None |}.

(** ** Who sends on [conns], and how often *)

(** An outcome was put up for delivery on [conns]. *)
Definition is_offer (e : Event) : bool :=
  match e with EvSendConns _ _ => true | _ => false end.

(** The program performs at most [n] more operations that satisfy [f]. *)
Fixpoint at_most {A : Type} (f : Event -> bool) (p : Prog A) (n : nat) : Prop :=
  match p with
  | Ret _ => True
  | Vis op k =>
      forall x, if f (event_of op x)
                then match n with
                     | S n' => at_most f (k x) n'
                     | O => False
                     end
                else at_most f (k x) n
  end.

(** The errors the raw accept returned, in order. *)
Definition accept_error (e : Event) : option error :=
  match e with EvTcpAccept (Err x) => Some x | _ => None end.
Definition accept_errors (tr : list Event) : list error :=
  omap accept_error tr.

(** The outcome [rejectConn(err)] puts up for delivery. *)
Definition rejected (e : error) : maybeConn :=
  {| conn := None; err := Some e |}.

(** [pend] is the error of the raw accept that was not put up for
    delivery yet: the program puts it up, as [rejected], before the raw
    accept is called again, and puts up nothing else. *)
Fixpoint reject_pending {A : Type} (p : Prog A) (pend : list error) : Prop :=
  match p with
  | Ret _ => pend = []
  | Vis op k =>
      forall x,
        match event_of op x with
        | EvTcpAccept (Err e) => pend = [] /\ reject_pending (k x) [e]
        | EvTcpAccept (Ok _) => pend = [] /\ reject_pending (k x) []
        | EvSendConns m _ =>
            exists e, pend = [e] /\ m = rejected e /\ reject_pending (k x) []
        | _ => reject_pending (k x) pend
        end
  end.

(** The goroutine is at an operation on a channel of the listener that
    can block: a [select], or the send on [handshakeSema]. *)
Definition on_channel {X : Type} (op : Op X) : bool :=
  match op with
  | PollQuit | RecvSemaOrQuit | SendSema
  | SendConnsOrQuit _ | RecvConnsOrQuit => true
  | _ => false
  end.
Definition at_channel {A : Type} (t : Thread A) : bool :=
  match prog t with
  | Ret _ => false
  | Vis op _ => on_channel op
  end.

(** A handshake completed and its goroutine waits in [acceptConn]; a
    caller of [Accept] has arrived. *)
Definition offered_to_caller : list Action :=
  accept_one
  ++ repeat (Run (THandshake 0) (answer calm)) 12
  ++ [CallAccept].

(** A connection was accepted and a caller waits in [Accept] when the
    listener is closed. *)
Definition closed_with_waiters : list Action :=
  accept_one ++ [CallAccept] ++ close_open 0 calm.

(** * Proofs *)

Arguments defaultHandshakes : simpl never.

(** Walk down every branch of a program. *)
Ltac walk :=
  repeat (simpl;
          match goal with
          | |- forall x : bool, _ => intros []
          | |- forall x : option _, _ => intros [?|]
          | |- forall x : result _, _ => intros [?|?]
          | |- forall x, _ => intros ?
          | |- _ /\ _ => split
          end);
  simpl; auto.

Ltac ask_oracle :=
  match goal with
  | |- context [match ?o ?i ?X ?op with _ => _ end] =>
      destruct (o i X op) eqn:?; simpl
  end.

Ltac handshake_paths :=
  unfold trace, doHandshake, doHandshake_body; simpl; repeat ask_oracle.

Lemma count_if_snoc f tr e :
  count_if f (tr ++ [e]) = count_if f tr + (if f e then 1 else 0).
Proof.
  unfold count_if. rewrite List.filter_app, length_app. simpl.
  destruct (f e); reflexivity.
Qed.

Lemma sum_list_with_insert {A} (f : A -> nat) (l : list A) i x y :
  l !! i = Some x ->
  sum_list_with f (<[i := y]> l) + f x = sum_list_with f l + f y.
Proof.
  revert i. induction l as [|z l IH]; intros [|i] H; simpl in *; try discriminate.
  - inversion H; subst. lia.
  - specialize (IH i H). lia.
Qed.

Lemma sum_list_with_snoc {A} (f : A -> nat) (l : list A) x :
  sum_list_with f (l ++ [x]) = sum_list_with f l + f x.
Proof. rewrite sum_list_with_app. simpl. lia. Qed.

Lemma advance_inv {A} (t t' : Thread A) a s s' :
  advance t a s = Some (t', s') ->
  exists X (op : Op X) k,
    prog t = Vis op k /\
    t' = {| prog := k (a _ op); hist := hist t ++ [event_of op (a _ op)] |} /\
    perform s op (a _ op) = Some s'.
Proof.
  unfold advance. destruct (prog t) as [r|X op k]; [discriminate|].
  destruct (perform s op (a X op)) eqn:E; [|discriminate].
  intros H. inversion H; subst. eauto 10.
Qed.

Lemma perform_effect s X (op : Op X) x s' :
  perform s op x = Some s' ->
  listenG s' = listenG s /\ accepts s' = accepts s /\ closes s' = closes s /\
  handshakes s' = handshakes s ++
    match event_of op x with EvGo c => [spawn (doHandshake c)] | _ => [] end /\
  handshakeSema s' + (if is_acquire (event_of op x) then 1 else 0)
    = handshakeSema s + (if is_release (event_of op x) then 1 else 0) /\
  (is_release (event_of op x) = true -> handshakeSema s < defaultHandshakes).
Proof.
  destruct op; simpl; intros H.
  all: repeat match type of H with
       | (if ?b then _ else _) = _ => destruct b eqn:?
       | match ?b with _ => _ end = _ => destruct b eqn:?
       end; try discriminate.
  all: inversion H; subst; simpl; rewrite ?app_nil_r.
  all: repeat split; try lia; try discriminate; try reflexivity.
  all: unfold send_sema in *.
  all: repeat match goal with
       | H : (if ?b then _ else _) = _ |- _ => destruct b eqn:?; try discriminate
       end.
  all: try (inversion Heqo; subst); try (apply Nat.ltb_lt in Heqb); try lia.
Qed.
(** ** The tokens *)

Lemma doHandshake_holds_token c : holds_token (doHandshake c).
Proof.
  unfold doHandshake, doHandshake_body. simpl.
  walk.
Qed.

Lemma listen_iter_owes : owes listen_iter 0.
Proof.
  unfold listen_iter. simpl.
  walk.
Qed.

Lemma Accept_sema_free : always sema_free Accept.
Proof. unfold Accept. walk. Qed.

Lemma Close_sema_free : always sema_free Close.
Proof. unfold Close. walk. Qed.

Lemma quiet_advance {A} (t t' : Thread A) a s s' :
  quiet t -> advance t a s = Some (t', s') ->
  quiet t' /\ handshakeSema s' = handshakeSema s /\ handshakes s' = handshakes s
  /\ listenG s' = listenG s /\ accepts s' = accepts s /\ closes s' = closes s.
Proof.
  intros (Hal & Ha & Hr & Hg) H.
  apply advance_inv in H as (X & op & k & Hp & -> & Hperf).
  rewrite Hp in Hal. simpl in Hal. destruct (Hal (a X op)) as [Hfree Hal'].
  apply perform_effect in Hperf as (HL & HA & HC & HH & HS & _).
  unfold sema_free in Hfree. apply negb_true_iff in Hfree.
  apply orb_false_iff in Hfree as [Hfree Hgo].
  apply orb_false_iff in Hfree as [Hacq Hrel].
  rewrite Hacq, Hrel in HS.
  assert (HH' : handshakes s' = handshakes s).
  { rewrite HH. destruct (event_of op (a X op)); try discriminate; apply app_nil_r. }
  repeat split; auto; try lia.
  all: unfold count_in in *; simpl; rewrite count_if_snoc.
  - rewrite Hacq. lia.
  - rewrite Hrel. lia.
  - rewrite Hgo. lia.
Qed.

Lemma quiet_receiver {A} (t t' : Thread A) m :
  quiet t -> receiver t m = Some t' -> quiet t'.
Proof.
  intros (Hal & Ha & Hr & Hg). unfold receiver, awaiting.
  destruct (prog t) as [r|X op k] eqn:Hp; [discriminate|].
  destruct op; try discriminate. intros H. inversion H; subst; clear H.
  simpl in Hal. destruct (Hal (Some m)) as [_ Hal'].
  repeat split; auto; unfold count_in in *; simpl; rewrite count_if_snoc; simpl; lia.
Qed.

Lemma sender_inv {A} (t t' : Thread A) m :
  sender t = Some (m, t') ->
  exists k, prog t = Vis (SendConnsOrQuit m) k /\
            t' = {| prog := k true; hist := hist t ++ [EvSendConns m true] |}.
Proof.
  unfold sender, offering.
  destruct (prog t) as [r|X op k] eqn:Hp; [discriminate|].
  destruct op; try discriminate. intros H. inversion H; subst. eauto.
Qed.

Lemma receiver_inv {A} (t t' : Thread A) m :
  receiver t m = Some t' ->
  exists k, prog t = Vis RecvConnsOrQuit k /\
            t' = {| prog := k (Some m); hist := hist t ++ [EvRecvConns (Some m)] |}.
Proof.
  unfold receiver, awaiting.
  destruct (prog t) as [r|X op k] eqn:Hp; [discriminate|].
  destruct op; try discriminate. intros H. inversion H; subst. eauto.
Qed.

Lemma next_iter_hist t : hist (next_iter t) = hist t.
Proof. unfold next_iter. destruct (prog t) as [[]|]; reflexivity. Qed.

Lemma next_iter_owes t h : owes (prog t) h -> owes (prog (next_iter t)) h.
Proof.
  unfold next_iter. destruct (prog t) as [[]|] eqn:E; simpl; intros H;
    rewrite ?E; simpl; auto.
  subst. apply listen_iter_owes.
Qed.

Lemma count_in_next_iter f t : count_in f (next_iter t) = count_in f t.
Proof. unfold count_in. now rewrite next_iter_hist. Qed.

Lemma spawn_task_inv c : task_inv (spawn (doHandshake c)).
Proof.
  repeat split; auto. left. split; [apply doHandshake_holds_token | reflexivity].
Qed.

Lemma tokens_inv_listen s a t s1 :
  tokens_inv s -> advance (listenG s) a s = Some (t, s1) ->
  tokens_inv (set_listenG (next_iter t) s1).
Proof.
  intros [(h & Hw & Hbal & Hsum) HT HA HC HG] H.
  apply advance_inv in H as (X & op & k & Hp & -> & Hperf).
  apply perform_effect in Hperf as (_ & HA' & HC' & HH & HS & _).
  rewrite Hp in Hw. simpl in Hw. specialize (Hw (a X op)).
  set (e := event_of op (a X op)) in *.
  destruct (after e h) as [h'|] eqn:Haft; [|contradiction].
  unfold count_in in *.
  constructor; simpl; rewrite ?HA', ?HC'; auto.
  - exists h'. split; [apply next_iter_owes; exact Hw|].
    rewrite !count_in_next_iter. unfold count_in. simpl.
    rewrite !count_if_snoc, HH. unfold after in Haft.
    destruct e; simpl in *; try destruct got; simpl in *;
      rewrite ?app_nil_r, ?length_app, ?sum_list_with_snoc; simpl;
      try (destruct h as [|[|?]]; try discriminate);
      inversion Haft; subst; unfold count_in; simpl;
      change (count_if is_release []) with 0; split; lia.
  - rewrite HH. destruct e; rewrite ?app_nil_r; auto.
    apply Forall_app. split; auto. constructor; auto. apply spawn_task_inv.
  - rewrite count_in_next_iter. unfold count_in. simpl.
    rewrite count_if_snoc, HH.
    destruct e; simpl; rewrite ?app_nil_r, ?length_app; simpl; lia.
Qed.

Lemma tokens_inv_task s a i t t' s1 :
  tokens_inv s -> handshakes s !! i = Some t ->
  advance t a s = Some (t', s1) ->
  tokens_inv (set_handshakes (<[i := t']> (handshakes s1)) s1).
Proof.
  intros [(h & Hw & Hbal & Hsum) HT HA HC HG] Hi H.
  apply advance_inv in H as (X & op & k & Hp & -> & Hperf).
  apply perform_effect in Hperf as (HL & HA' & HC' & HH & HS & _).
  pose proof (proj1 (Forall_lookup _ _) HT i t Hi) as (Hacq & Hgo & Hcase).
  destruct Hcase as [[Hhold Hrel]|[Hfin _]];
    [|unfold finished in Hfin; rewrite Hp in Hfin; discriminate].
  rewrite Hp in Hhold. simpl in Hhold. specialize (Hhold (a X op)).
  set (e := event_of op (a X op)) in *.
  set (t' := {| prog := k (a X op); hist := hist t ++ [e] |}).
  assert (Hnogo : is_go e = false).
  { destruct (is_release e) eqn:Er.
    - destruct e; try discriminate; reflexivity.
    - destruct Hhold as [Hn _]. apply orb_false_iff in Hn. tauto. }
  assert (HH' : handshakes s1 = handshakes s).
  { rewrite HH. destruct e; try discriminate; apply app_nil_r. }
  assert (Hnoacq : is_acquire e = false).
  { destruct (is_release e) eqn:Er.
    - destruct e; try discriminate; reflexivity.
    - destruct Hhold as [Hn _]. apply orb_false_iff in Hn. tauto. }
  rewrite Hnoacq in HS.
  assert (Ht' : task_inv t' /\
                count_in is_release t' = (if is_release e then 1 else 0)).
  { unfold task_inv, count_in in *. simpl. rewrite !count_if_snoc.
    rewrite Hnoacq, Hnogo, Hacq, Hgo, Hrel.
    destruct (is_release e).
    - repeat split; auto.
    - destruct Hhold as [_ Hhold]. repeat split; auto. }
  destruct Ht' as [Ht' Hrel'].
  pose proof (@sum_list_with_insert _ (count_in is_release) (handshakes s)
                i t t' Hi) as Hins.
  rewrite Hrel' in Hins.
  rewrite Hrel in Hins.
  constructor; simpl; rewrite ?HL, ?HA', ?HC', ?HH', ?length_insert; auto.
  - exists h. repeat split; auto. destruct (is_release e); lia.
  - apply Forall_insert; auto.
Qed.

Lemma tokens_inv_accept s a i t t' s1 :
  tokens_inv s -> accepts s !! i = Some t ->
  advance t a s = Some (t', s1) ->
  tokens_inv (set_accepts (<[i := t']> (accepts s1)) s1).
Proof.
  intros [HLi HT HA HC HG] Hi H.
  pose proof (proj1 (Forall_lookup _ _) HA i t Hi) as Hq.
  destruct (@quiet_advance _ t t' a s s1 Hq H) as (Hq' & HS & HH & HL & HA' & HC').
  constructor; simpl; rewrite ?HS, ?HH, ?HL, ?HA', ?HC'; auto.
  apply Forall_insert; auto.
Qed.

Lemma tokens_inv_close s a i t t' s1 :
  tokens_inv s -> closes s !! i = Some t ->
  advance t a s = Some (t', s1) ->
  tokens_inv (set_closes (<[i := t']> (closes s1)) s1).
Proof.
  intros [HLi HT HA HC HG] Hi H.
  pose proof (proj1 (Forall_lookup _ _) HC i t Hi) as Hq.
  destruct (@quiet_advance _ t t' a s s1 Hq H) as (Hq' & HS & HH & HL & HA' & HC').
  constructor; simpl; rewrite ?HS, ?HH, ?HL, ?HA', ?HC'; auto.
  apply Forall_insert; auto.
Qed.

Lemma tokens_inv_handoff s p j s' :
  tokens_inv s -> handoff s p j = Some s' -> tokens_inv s'.
Proof.
  intros [(h & Hw & Hbal & Hsum) HT HA HC HG]. unfold handoff.
  destruct (accepts s !! j) as [ta|] eqn:Hj; [|discriminate].
  pose proof (proj1 (Forall_lookup _ _) HA j ta Hj) as Hq.
  destruct p as [|i| |]; try discriminate.
  - destruct (sender (listenG s)) as [[m tl]|] eqn:Hs; [|discriminate].
    destruct (receiver ta m) as [ta'|] eqn:Hr; [|discriminate].
    intros H. inversion H; subst; clear H.
    apply sender_inv in Hs as (k & Hp & ->).
    rewrite Hp in Hw. simpl in Hw. specialize (Hw true). simpl in Hw.
    constructor; simpl; auto.
    + exists h. split; [apply next_iter_owes; exact Hw|].
      rewrite !count_in_next_iter. unfold count_in in *. simpl.
      rewrite !count_if_snoc. simpl. split; lia.
    + apply Forall_insert; auto. eapply quiet_receiver; eauto.
    + rewrite count_in_next_iter. unfold count_in in *. simpl.
      rewrite count_if_snoc. simpl. lia.
  - destruct (handshakes s !! i) as [th|] eqn:Hi; [|discriminate].
    destruct (sender th) as [[m th']|] eqn:Hs; [|discriminate].
    destruct (receiver ta m) as [ta'|] eqn:Hr; [|discriminate].
    intros H. inversion H; subst; clear H.
    apply sender_inv in Hs as (k & Hp & ->).
    pose proof (proj1 (Forall_lookup _ _) HT i th Hi) as (Hacq & Hgo & Hcase).
    destruct Hcase as [[Hhold Hrel]|[Hfin _]];
      [|unfold finished in Hfin; rewrite Hp in Hfin; discriminate].
    rewrite Hp in Hhold. simpl in Hhold. specialize (Hhold true).
    simpl in Hhold. destruct Hhold as [_ Hhold].
    set (th' := {| prog := k true; hist := hist th ++ [EvSendConns m true] |}).
    assert (Hc : forall f, f (EvSendConns m true) = false ->
                           count_in f th' = count_in f th).
    { intros f Hf. unfold count_in. simpl. rewrite count_if_snoc, Hf. lia. }
    pose proof (@sum_list_with_insert _ (count_in is_release) (handshakes s)
                  i th th' Hi) as Hins.
    rewrite (Hc is_release eq_refl) in Hins.
    constructor; simpl; rewrite ?length_insert; auto.
    + exists h. repeat split; auto. lia.
    + apply Forall_insert; auto. unfold task_inv.
      rewrite !Hc by reflexivity. repeat split; auto.
    + apply Forall_insert; auto. eapply quiet_receiver; eauto.
Qed.

Lemma tokens_inv_step s act s' :
  tokens_inv s -> step s act = Some s' -> tokens_inv s'.
Proof.
  intros Hinv. unfold step. destruct (panicked s); [discriminate|].
  destruct act as [[|i|i|i] a|p j| |].
  - destruct (advance (listenG s) a s) as [[t s1]|] eqn:E; [|discriminate].
    intros H; inversion H; subst. eapply tokens_inv_listen; eauto.
  - destruct (handshakes s !! i) as [t|] eqn:Hi; [|discriminate].
    destruct (advance t a s) as [[t' s1]|] eqn:E; [|discriminate].
    intros H; inversion H; subst. eapply tokens_inv_task; eauto.
  - destruct (accepts s !! i) as [t|] eqn:Hi; [|discriminate].
    destruct (advance t a s) as [[t' s1]|] eqn:E; [|discriminate].
    intros H; inversion H; subst. eapply tokens_inv_accept; eauto.
  - destruct (closes s !! i) as [t|] eqn:Hi; [|discriminate].
    destruct (advance t a s) as [[t' s1]|] eqn:E; [|discriminate].
    intros H; inversion H; subst. eapply tokens_inv_close; eauto.
  - apply tokens_inv_handoff; auto.
  - intros H; inversion H; subst. destruct Hinv as [HL HT HA HC HG].
    constructor; simpl; auto. apply Forall_app. split; auto.
    constructor; auto. repeat split; auto. apply Accept_sema_free.
  - intros H; inversion H; subst. destruct Hinv as [HL HT HA HC HG].
    constructor; simpl; auto. apply Forall_app. split; auto.
    constructor; auto. repeat split; auto. apply Close_sema_free.
Qed.

Lemma fill_sema_full : fill_sema defaultHandshakes 0 = Some defaultHandshakes.
Proof. vm_compute. reflexivity. Qed.

Lemma NewListener_state s0 : NewListener = Some s0 -> s0 = fresh_listener.
Proof.
  unfold NewListener. rewrite fill_sema_full. intros H. now inversion H.
Qed.

Lemma start_reachable acts s : start acts = Some s -> reachable s.
Proof.
  unfold start, reachable. destruct NewListener as [s0|]; [|discriminate].
  intros H. exists s0, acts. auto.
Qed.

Lemma tokens_inv_init s0 : NewListener = Some s0 -> tokens_inv s0.
Proof.
  intros H. apply NewListener_state in H. subst.
  constructor; simpl; auto.
  exists 0. split; [apply listen_iter_owes|]. split; reflexivity.
Qed.

Lemma exec_invariant (P : State -> Prop) :
  (forall s act s', P s -> step s act = Some s' -> P s') ->
  forall acts s s', P s -> exec s acts = Some s' -> P s'.
Proof.
  intros Hstep. induction acts as [|act acts IH]; simpl; intros s s' Hs H.
  - inversion H; subst; auto.
  - destruct (step s act) as [s1|] eqn:E; [|discriminate]. eauto.
Qed.

Lemma tokens_inv_reachable s : reachable s -> tokens_inv s.
Proof.
  intros (s0 & acts & H0 & H).
  eapply (exec_invariant tokens_inv); eauto using tokens_inv_step, tokens_inv_init.
Qed.

Lemma owes_at_most_one {A} (p : Prog A) h : owes p h -> h <= 1.
Proof.
  revert h. induction p as [r|X op k IH]; simpl; intros h Hw.
  - lia.
  - specialize (Hw (answer calm op)). unfold after in Hw.
    destruct (is_acquire _); [destruct h; [lia|contradiction]|].
    destruct (is_release _ || is_go _).
    + destruct h as [|[|?]]; try contradiction; lia.
    + eapply IH; eauto.
Qed.

Lemma sum_list_with_zero {A} (f : A -> nat) (l : list A) :
  Forall (fun t => f t = 0) l -> sum_list_with f l = 0.
Proof. induction 1; simpl; lia. Qed.

Lemma task_inv_released t :
  task_inv t -> count_in is_release t = if finished t then 1 else 0.
Proof.
  intros (_ & _ & [[Hh Hr]|[Hf Hr]]).
  - unfold finished. destruct (prog t); [contradiction|exact Hr].
  - now rewrite Hf.
Qed.

Lemma active_released (l : list (Thread unit)) :
  Forall task_inv l ->
  length (List.filter (fun t => negb (finished t)) l)
    + sum_list_with (count_in is_release) l = length l.
Proof.
  induction 1 as [|t l Ht Hl IH]; simpl; [reflexivity|].
  rewrite (task_inv_released Ht). destruct (finished t); simpl; lia.
Qed.

Lemma sum_list_with_lookup_lt {A} (f : A -> nat) (l : list A) i t :
  Forall (fun t => f t <= 1) l -> l !! i = Some t -> f t = 0 ->
  sum_list_with f l < length l.
Proof.
  intros H. revert i. induction H as [|x l Hx Hl IH]; intros [|i] Hi H0;
    simpl in *; try discriminate.
  - inversion Hi; subst. rewrite H0.
    assert (sum_list_with f l <= length l); [|lia].
    clear -Hl. induction Hl; simpl; lia.
  - specialize (IH i Hi H0). lia.
Qed.

(** What the invariant says in terms of the counts of a state. *)
Lemma tokens_inv_counts s :
  tokens_inv s ->
  active s <= in_flight s /\
  released s <= acquired s /\
  in_flight s + handshakeSema s = defaultHandshakes /\
  exists h, h <= 1 /\
    in_flight s = active s + h /\
    count_in is_acquire (listenG s)
      = count_in is_release (listenG s) + length (handshakes s) + h /\
    owes (prog (listenG s)) h.
Proof.
  intros [(h & Hw & Hbal & Hsum) HT HA HC HG].
  pose proof (owes_at_most_one _ _ Hw) as Hh.
  pose proof (active_released HT) as Hact. fold (active s) in Hact.
  assert (Ha0 : sum_list_with (count_in is_acquire) (handshakes s) = 0).
  { apply sum_list_with_zero. eapply Forall_impl; [exact HT|]. now intros t []. }
  assert (Haa : forall f, (f = is_acquire \/ f = is_release) ->
                sum_list_with (count_in f) (accepts s) = 0).
  { intros f Hf. apply sum_list_with_zero. eapply Forall_impl; [exact HA|].
    intros t (_ & ? & ? & _). destruct Hf; subst; auto. }
  assert (Hca : forall f, (f = is_acquire \/ f = is_release) ->
                sum_list_with (count_in f) (closes s) = 0).
  { intros f Hf. apply sum_list_with_zero. eapply Forall_impl; [exact HC|].
    intros t (_ & ? & ? & _). destruct Hf; subst; auto. }
  unfold in_flight, acquired, released, count_all.
  rewrite Ha0, !Haa, !Hca by auto.
  repeat split; try lia.
  exists h. repeat split; auto; lia.
Qed.

Lemma doHandshake_releases_last (o : Oracle) c :
  exists pre, trace o (doHandshake c) = pre ++ [EvSendSema]
              /\ count_if is_release pre = 0 /\ count_if is_acquire pre = 0.
Proof.
  handshake_paths.
  all: match goal with
       | |- exists pre, ?l = _ /\ _ => exists (removelast l)
       end; simpl; repeat split; reflexivity.
Qed.

Lemma listen_iter_tokens (o : Oracle) :
  let tr := trace o listen_iter in
  count_if is_acquire tr <= 1 /\
  count_if is_acquire tr = count_if is_release tr + count_if is_go tr /\
  count_if is_release tr = (if accept_failed tr then 1 else 0).
Proof.
  unfold trace, listen_iter. simpl. repeat ask_oracle.
  all: cbn; repeat split; lia.
Qed.

Lemma unfinished_active (l : list (Thread unit)) i t :
  l !! i = Some t -> finished t = false ->
  1 <= length (List.filter (fun t => negb (finished t)) l).
Proof.
  revert i. induction l as [|x l IH]; intros [|i] Hi Hf; simpl in *; try discriminate.
  - inversion Hi; subst. rewrite Hf. simpl. lia.
  - specialize (IH i Hi Hf). destruct (negb (finished x)); simpl; lia.
Qed.

(** C1.  In every state a listener can reach after [NewListener], the
    handshake goroutines that have not returned are at most
    [defaultHandshakes] and at most the tokens in flight; the tokens in
    flight (received from [handshakeSema] and not sent back) plus those
    in the channel are [defaultHandshakes]; a handshake goroutine has
    sent back one token if it has returned and none if it has not; the
    accept loop has taken as many tokens as it has sent back, passed to
    the goroutines it started, or (one at most) still holds; and a send
    that puts a token back, in a handshake goroutine or in the accept
    loop, never blocks.  Along every
    run of [doHandshake] the token is sent back once, as the last
    operation, whatever the exit; along every iteration of [listen] the
    token taken is sent back once when the raw accept failed and passed
    on to the new goroutine otherwise. *)
Theorem capacity_invariant :
  (forall s, reachable s ->
     active s <= defaultHandshakes /\
     active s <= in_flight s /\
     released s <= acquired s /\
     in_flight s + handshakeSema s = defaultHandshakes /\
     Forall (fun t => count_in is_release t = if finished t then 1 else 0)
       (handshakes s) /\
     (exists h, h <= 1 /\ in_flight s = active s + h /\
        count_in is_acquire (listenG s)
          = count_in is_release (listenG s) + length (handshakes s) + h) /\
     (forall i t a, panicked s = false -> handshakes s !! i = Some t ->
        (exists k, prog t = Vis SendSema k) ->
        exists s', step s (Run (THandshake i) a) = Some s') /\
     (forall a, panicked s = false ->
        (exists k, prog (listenG s) = Vis SendSema k) ->
        exists s', step s (Run TListen a) = Some s')) /\
  (forall o c, exists pre,
     trace o (doHandshake c) = pre ++ [EvSendSema]
     /\ count_if is_release pre = 0 /\ count_if is_acquire pre = 0) /\
  (forall o, let tr := trace o listen_iter in
     count_if is_acquire tr <= 1 /\
     count_if is_acquire tr = count_if is_release tr + count_if is_go tr /\
     count_if is_release tr = (if accept_failed tr then 1 else 0)).
Proof.
  split; [|split; [apply doHandshake_releases_last | apply listen_iter_tokens]].
  intros s Hr. apply tokens_inv_reachable in Hr.
  destruct (tokens_inv_counts Hr)
    as (Hact & Hle & Hcap & h & Hh & Hfl & Hbal & Hw).
  repeat split; try lia.
  - eapply Forall_impl; [apply (ti_tasks Hr)|]. apply task_inv_released.
  - exists h. repeat split; auto.
  - intros i t a Hp Hi [k Hk].
    assert (Hf : finished t = false) by (unfold finished; now rewrite Hk).
    pose proof (unfinished_active _ _ Hi Hf) as H1. fold (active s) in H1.
    assert (Hlt : handshakeSema s < defaultHandshakes) by lia.
    unfold step. rewrite Hp, Hi. unfold advance. rewrite Hk. simpl.
    unfold send_sema. apply Nat.ltb_lt in Hlt. rewrite Hlt. eauto.
  - intros a Hp [k Hk]. rewrite Hk in Hw. simpl in Hw. specialize (Hw tt).
    simpl in Hw. destruct h as [|[|?]]; try contradiction.
    assert (Hlt : handshakeSema s < defaultHandshakes) by lia.
    unfold step. rewrite Hp. unfold advance. rewrite Hk. simpl.
    unfold send_sema. apply Nat.ltb_lt in Hlt. rewrite Hlt. eauto.
Qed.

(** ** The outcomes *)

Lemma doHandshake_send_ok c : always send_ok (doHandshake c).
Proof. unfold doHandshake, doHandshake_body. walk. Qed.

Lemma listen_iter_send_ok : always send_ok listen_iter.
Proof. unfold listen_iter. walk. Qed.

Lemma Accept_ensures : ensures recv_ok (fun r => negb (nil_nil r)) Accept.
Proof.
  unfold Accept. simpl. intros [[[c|] [e|]]|]; simpl; try discriminate; auto.
Qed.

Lemma forallb_snoc {A} (f : A -> bool) l x :
  forallb f (l ++ [x]) = forallb f l && f x.
Proof. rewrite forallb_app. simpl. now rewrite andb_true_r. Qed.

Lemma producer_ok_next_iter t : producer_ok t -> producer_ok (next_iter t).
Proof.
  intros [Ha Hh]. unfold producer_ok. rewrite next_iter_hist. split; auto.
  unfold next_iter. destruct (prog t) as [[]|] eqn:E; rewrite ?E; auto.
  apply listen_iter_send_ok.
Qed.

Lemma producer_ok_advance {A} (t t' : Thread A) a s s' :
  producer_ok t -> advance t a s = Some (t', s') -> producer_ok t'.
Proof.
  intros [Ha Hh] H. apply advance_inv in H as (X & op & k & Hp & -> & _).
  rewrite Hp in Ha. simpl in Ha. destruct (Ha (a X op)) as [He Hk].
  split; simpl; auto. rewrite forallb_snoc, Hh, He. reflexivity.
Qed.

Lemma producer_ok_sender {A} (t t' : Thread A) m :
  producer_ok t -> sender t = Some (m, t') ->
  producer_ok t' /\ exactly_one m = true.
Proof.
  intros [Ha Hh] H. apply sender_inv in H as (k & Hp & ->).
  rewrite Hp in Ha. simpl in Ha. destruct (Ha true) as [He Hk].
  repeat split; simpl; auto. rewrite forallb_snoc, Hh. exact He.
Qed.

Lemma perform_recv_ok s X (op : Op X) x s' :
  perform s op x = Some s' -> recv_ok (event_of op x) = true.
Proof. destruct op; simpl; auto. destruct x; [discriminate|auto]. Qed.

Lemma consumer_ok_advance t t' a s s' :
  consumer_ok t -> advance t a s = Some (t', s') -> consumer_ok t'.
Proof.
  intros [Ha Hh] H. apply advance_inv in H as (X & op & k & Hp & -> & Hperf).
  apply perform_recv_ok in Hperf.
  rewrite Hp in Ha. simpl in Ha. specialize (Ha (a X op) Hperf).
  split; simpl; auto. rewrite forallb_snoc, Hh, Hperf. reflexivity.
Qed.

Lemma consumer_ok_receiver t t' m :
  consumer_ok t -> exactly_one m = true -> receiver t m = Some t' ->
  consumer_ok t'.
Proof.
  intros [Ha Hh] Hm H. apply receiver_inv in H as (k & Hp & ->).
  rewrite Hp in Ha. simpl in Ha. specialize (Ha (Some m) Hm).
  split; simpl; auto. rewrite forallb_snoc, Hh. exact Hm.
Qed.

Lemma perform_tasks_ok s X (op : Op X) x s' :
  perform s op x = Some s' ->
  Forall producer_ok (handshakes s) -> Forall producer_ok (handshakes s').
Proof.
  intros H HT. apply perform_effect in H as (_ & _ & _ & HH & _).
  rewrite HH. apply Forall_app. split; auto.
  destruct (event_of op x); auto. constructor; auto.
  split; [apply doHandshake_send_ok | reflexivity].
Qed.

Lemma advance_frame {A} (t t' : Thread A) a s s' :
  advance t a s = Some (t', s') ->
  listenG s' = listenG s /\ accepts s' = accepts s /\ closes s' = closes s
  /\ (Forall producer_ok (handshakes s) -> Forall producer_ok (handshakes s'))
  /\ length (handshakes s) <= length (handshakes s').
Proof.
  intros H. apply advance_inv in H as (X & op & k & Hp & -> & Hperf).
  pose proof (@perform_tasks_ok _ _ _ _ _ Hperf) as HT.
  apply perform_effect in Hperf as (HL & HA & HC & HH & _).
  repeat split; auto. rewrite HH, length_app. lia.
Qed.

Lemma outcomes_inv_step s act s' :
  outcomes_inv s -> step s act = Some s' -> outcomes_inv s'.
Proof.
  intros [HL HT HA]. unfold step. destruct (panicked s); [discriminate|].
  destruct act as [[|i|i|i] a|p j| |].
  - destruct (advance (listenG s) a s) as [[t s1]|] eqn:E; [|discriminate].
    intros H; inversion H; subst; clear H.
    destruct (@advance_frame _ _ _ _ _ _ E) as (_ & HA' & _ & HT' & _).
    constructor; simpl; rewrite ?HA'; auto.
    apply producer_ok_next_iter. eapply producer_ok_advance; eauto.
  - destruct (handshakes s !! i) as [t|] eqn:Hi; [|discriminate].
    destruct (advance t a s) as [[t' s1]|] eqn:E; [|discriminate].
    intros H; inversion H; subst; clear H.
    destruct (@advance_frame _ _ _ _ _ _ E) as (HL' & HA' & _ & HT' & _).
    constructor; simpl; rewrite ?HA', ?HL'; auto.
    apply Forall_insert; auto.
    eapply producer_ok_advance; eauto.
    exact (proj1 (Forall_lookup _ _) HT i t Hi).
  - destruct (accepts s !! i) as [t|] eqn:Hi; [|discriminate].
    destruct (advance t a s) as [[t' s1]|] eqn:E; [|discriminate].
    intros H; inversion H; subst; clear H.
    destruct (@advance_frame _ _ _ _ _ _ E) as (HL' & HA' & _ & HT' & _).
    constructor; simpl; rewrite ?HA', ?HL'; auto.
    apply Forall_insert; auto.
    eapply consumer_ok_advance; eauto.
    exact (proj1 (Forall_lookup _ _) HA i t Hi).
  - destruct (closes s !! i) as [t|] eqn:Hi; [|discriminate].
    destruct (advance t a s) as [[t' s1]|] eqn:E; [|discriminate].
    intros H; inversion H; subst; clear H.
    destruct (@advance_frame _ _ _ _ _ _ E) as (HL' & HA' & _ & HT' & _).
    constructor; simpl; rewrite ?HA', ?HL'; auto.
  - unfold handoff.
    destruct (accepts s !! j) as [ta|] eqn:Hj; [|discriminate].
    pose proof (proj1 (Forall_lookup _ _) HA j ta Hj) as Hc.
    destruct p as [|i| |]; try discriminate.
    + destruct (sender (listenG s)) as [[m tl]|] eqn:Hs; [|discriminate].
      destruct (receiver ta m) as [ta'|] eqn:Hr; [|discriminate].
      intros H; inversion H; subst; clear H.
      destruct (producer_ok_sender HL Hs) as [Hp Hm].
      constructor; simpl; auto.
      * now apply producer_ok_next_iter.
      * apply Forall_insert; auto. eapply consumer_ok_receiver; eauto.
    + destruct (handshakes s !! i) as [th|] eqn:Hi; [|discriminate].
      destruct (sender th) as [[m th']|] eqn:Hs; [|discriminate].
      destruct (receiver ta m) as [ta'|] eqn:Hr; [|discriminate].
      intros H; inversion H; subst; clear H.
      pose proof (proj1 (Forall_lookup _ _) HT i th Hi) as Hth.
      destruct (producer_ok_sender Hth Hs) as [Hp Hm].
      constructor; simpl; auto.
      * apply Forall_insert; auto.
      * apply Forall_insert; auto. eapply consumer_ok_receiver; eauto.
  - intros H; inversion H; subst. constructor; simpl; auto.
    apply Forall_app. split; auto. constructor; auto.
    split; [apply Accept_ensures | reflexivity].
  - intros H; inversion H; subst. constructor; simpl; auto.
Qed.

Lemma outcomes_inv_reachable s : reachable s -> outcomes_inv s.
Proof.
  intros (s0 & acts & H0 & H).
  eapply (exec_invariant outcomes_inv); eauto using outcomes_inv_step.
  apply NewListener_state in H0. subst. constructor; simpl; auto.
  split; [apply listen_iter_send_ok | reflexivity].
Qed.

Lemma send_ok_emitted tr :
  forallb send_ok tr = true ->
  forallb exactly_one (offered tr) = true /\ forallb exactly_one (emitted tr) = true.
Proof.
  induction tr as [|e tr IH]; simpl; [auto|].
  intros H. apply andb_true_iff in H as [He H]. destruct (IH H) as [IH1 IH2].
  unfold offered, emitted in *.
  destruct e; simpl; auto. destruct sent; simpl in *; rewrite ?He; auto.
Qed.

Lemma recv_ok_received tr :
  forallb recv_ok tr = true -> forallb exactly_one (received tr) = true.
Proof.
  induction tr as [|e tr IH]; simpl; [auto|].
  intros H. apply andb_true_iff in H as [He H]. specialize (IH H).
  unfold received in *.
  destruct e; simpl; auto. destruct r; simpl in *; rewrite ?He; auto.
Qed.

(** C7.  In every reachable state, every outcome that was handed over on
    [conns], by the accept loop or by a handshake goroutine, holds a
    connection or an error and not both, so does every outcome a call
    of [Accept] received, and no call of [Accept] has returned a nil
    connection with a nil error. *)
Theorem outcome_exclusive (s : State) :
  reachable s ->
  forallb exactly_one (emitted (hist (listenG s))) = true /\
  Forall (fun t => forallb exactly_one (emitted (hist t)) = true) (handshakes s) /\
  Forall (fun t => forallb exactly_one (received (hist t)) = true
                   /\ forall r, prog t = Ret r -> nil_nil r = false)
    (accepts s).
Proof.
  intros Hr. apply outcomes_inv_reachable in Hr as [[_ HL] HT HA].
  split; [apply send_ok_emitted, HL|]. split.
  - eapply Forall_impl; [exact HT|]. intros t [_ Ht]. apply send_ok_emitted, Ht.
  - eapply Forall_impl; [exact HA|]. intros t [He Ht]. split.
    + apply recv_ok_received, Ht.
    + intros r Hp. rewrite Hp in He. simpl in He. now apply negb_true_iff.
Qed.

(** ** [Accept] *)

Lemma offers_offering {A} (t : Thread A) :
  offers t = false -> sender t = None.
Proof.
  unfold offers, sender. destruct (offering (prog t)) as [[]|]; [discriminate|auto].
Qed.

Lemma existsb_lookup {A} (f : A -> bool) (l : list A) i x :
  existsb f l = false -> l !! i = Some x -> f x = false.
Proof.
  revert i. induction l as [|y l IH]; intros [|i] H Hi; simpl in *; try discriminate.
  - inversion Hi; subst. now apply orb_false_iff in H.
  - apply orb_false_iff in H as [_ H]. eauto.
Qed.

Lemma accept_blocked s j t :
  panicked s = false -> accepts s !! j = Some t -> prog t = Accept ->
  quit s = false -> someone_offers s = false ->
  (forall a, step s (Run (TAccept j) a) = None) /\
  (forall p, step s (Handoff p j) = None).
Proof.
  intros Hnp Hj Hp Hq Ho. split.
  - intros a. unfold step. rewrite Hnp, Hj. unfold advance. rewrite Hp.
    simpl. destruct (a _ RecvConnsOrQuit); [reflexivity|]. now rewrite Hq.
  - intros p. unfold step. rewrite Hnp. unfold handoff. rewrite Hj.
    apply orb_false_iff in Ho as [Hl Hh].
    destruct p as [|i| |]; auto.
    + now rewrite (offers_offering _ Hl).
    + destruct (handshakes s !! i) as [th|] eqn:Hi; auto.
      now rewrite (offers_offering _ (existsb_lookup _ _ _ Hh Hi)).
Qed.

Lemma emitted_snoc tr e : emitted (tr ++ [e]) = emitted tr ++ from_option (fun m => [m]) [] (emission e).
Proof.
  unfold emitted. rewrite omap_app. simpl. destruct (emission e); reflexivity.
Qed.

Lemma accept_returns s j t act s' :
  accepts s !! j = Some t -> prog t = Accept -> step s act = Some s' ->
  accepts s' !! j = Some t
  \/ (exists a, act = Run (TAccept j) a /\ quit s = true /\
        accepts s' !! j =
          Some {| prog := Ret (NilIface, Some "lndc connection closed"%string);
                  hist := hist t ++ [EvRecvConns None] |})
  \/ (exists p m, act = Handoff p j /\ offer_of s p = Some m /\
        accepts s' !! j =
          Some {| prog := Ret (IfaceConn (conn m), err m);
                  hist := hist t ++ [EvRecvConns (Some m)] |} /\
        (forall j', j' <> j -> accepts s' !! j' = accepts s !! j') /\
        emitted (hist_of s' p) = emitted (hist_of s p) ++ [m]).
Proof.
  intros Hj Hp. pose proof (lookup_lt_Some _ _ _ Hj) as Hlt.
  unfold step. destruct (panicked s); [discriminate|].
  destruct act as [[|i|i|i] a|p j0| |].
  - destruct (advance (listenG s) a s) as [[t1 s1]|] eqn:E; [|discriminate].
    intros H; inversion H; subst; clear H.
    destruct (@advance_frame _ _ _ _ _ _ E) as (_ & HA & _).
    left. simpl. now rewrite HA.
  - destruct (handshakes s !! i) as [t0|] eqn:Hi; [|discriminate].
    destruct (advance t0 a s) as [[t1 s1]|] eqn:E; [|discriminate].
    intros H; inversion H; subst; clear H.
    destruct (@advance_frame _ _ _ _ _ _ E) as (_ & HA & _).
    left. simpl. now rewrite HA.
  - destruct (accepts s !! i) as [t0|] eqn:Hi; [|discriminate].
    destruct (advance t0 a s) as [[t1 s1]|] eqn:E; [|discriminate].
    intros H; inversion H; subst; clear H.
    destruct (@advance_frame _ _ _ _ _ _ E) as (_ & HA & _).
    simpl. rewrite HA.
    destruct (decide (i = j)) as [->|Hne].
    + right. left. exists a. rewrite Hj in Hi. inversion Hi; subst t0.
      unfold advance in E. rewrite Hp in E. simpl in E.
      destruct (a _ RecvConnsOrQuit) eqn:Ea; [discriminate|].
      destruct (quit s) eqn:Hq; [|discriminate].
      inversion E; subst.
      repeat split; auto. now apply list_lookup_insert_eq.
    + left. rewrite list_lookup_insert_ne; auto.
  - destruct (closes s !! i) as [t0|] eqn:Hi; [|discriminate].
    destruct (advance t0 a s) as [[t1 s1]|] eqn:E; [|discriminate].
    intros H; inversion H; subst; clear H.
    destruct (@advance_frame _ _ _ _ _ _ E) as (_ & HA & _).
    left. simpl. now rewrite HA.
  - unfold handoff.
    destruct (accepts s !! j0) as [ta|] eqn:Hj0; [|discriminate].
    assert (Hrecv : forall m ta', j0 = j -> receiver ta m = Some ta' ->
              ta' = {| prog := Ret (IfaceConn (conn m), err m);
                       hist := hist t ++ [EvRecvConns (Some m)] |}).
    { intros m ta' -> Hr. rewrite Hj in Hj0. inversion Hj0; subst ta.
      unfold receiver in Hr. rewrite Hp in Hr. simpl in Hr. now inversion Hr. }
    destruct p as [|i| |]; try discriminate.
    + destruct (sender (listenG s)) as [[m tl]|] eqn:Hs; [|discriminate].
      destruct (receiver ta m) as [ta'|] eqn:Hr; [|discriminate].
      intros H; inversion H; subst; clear H. simpl.
      destruct (decide (j0 = j)) as [->|Hne];
        [|left; rewrite list_lookup_insert_ne; auto].
      right. right. exists TListen, m.
      rewrite (Hrecv _ _ eq_refl Hr).
      apply sender_inv in Hs as (k & Hk & ->).
      repeat split; auto.
      * simpl. now rewrite Hk.
      * now apply list_lookup_insert_eq.
      * intros j' Hne. rewrite list_lookup_insert_ne; auto.
      * simpl. rewrite next_iter_hist. simpl. now rewrite emitted_snoc.
    + destruct (handshakes s !! i) as [th|] eqn:Hi; [|discriminate].
      destruct (sender th) as [[m th']|] eqn:Hs; [|discriminate].
      destruct (receiver ta m) as [ta'|] eqn:Hr; [|discriminate].
      intros H; inversion H; subst; clear H. simpl.
      destruct (decide (j0 = j)) as [->|Hne];
        [|left; rewrite list_lookup_insert_ne; auto].
      right. right. exists (THandshake i), m.
      rewrite (Hrecv _ _ eq_refl Hr).
      apply sender_inv in Hs as (k & Hk & ->).
      repeat split; auto.
      * simpl. now rewrite Hi, Hk.
      * now apply list_lookup_insert_eq.
      * intros j' Hne. rewrite list_lookup_insert_ne; auto.
      * simpl. rewrite list_lookup_insert_eq, Hi
          by (eapply lookup_lt_Some; eauto).
        simpl. now rewrite emitted_snoc.
  - intros H; inversion H; subst; clear H. left. simpl.
    now rewrite lookup_app_l.
  - intros H; inversion H; subst; clear H. left. simpl. auto.
Qed.

Lemma accept_enabled s j t :
  panicked s = false -> accepts s !! j = Some t -> prog t = Accept ->
  (quit s = true -> exists s', step s (Run (TAccept j) (answer closing)) = Some s') /\
  (forall p m, offer_of s p = Some m -> exists s', step s (Handoff p j) = Some s').
Proof.
  intros Hnp Hj Hp. split.
  - intros Hq. unfold step. rewrite Hnp, Hj. unfold advance. rewrite Hp.
    simpl. rewrite Hq. eauto.
  - intros p m Ho. unfold step. rewrite Hnp. unfold handoff. rewrite Hj.
    unfold receiver. rewrite Hp. simpl.
    destruct p as [|i| |]; simpl in Ho; try discriminate.
    + unfold sender. destruct (offering (prog (listenG s))) as [[]|]; [|discriminate].
      eauto.
    + destruct (handshakes s !! i) as [th|]; [|discriminate].
      unfold sender. destruct (offering (prog th)) as [[]|]; [|discriminate].
      eauto.
Qed.

Lemma count_in_snoc {A} f (t : Thread A) (p : Prog A) e :
  count_in f {| prog := p; hist := hist t ++ [e] |}
  = count_in f t + (if f e then 1 else 0).
Proof. unfold count_in. simpl. apply count_if_snoc. Qed.

Lemma advance_count {A} f (t t' : Thread A) a s s1 :
  advance t a s = Some (t', s1) ->
  count_in f t' = count_in f t + count_if f (next_event t a) /\
  count_all f s1 = count_all f s /\
  listenG s1 = listenG s /\ accepts s1 = accepts s /\ closes s1 = closes s /\
  forall i t0, handshakes s !! i = Some t0 -> handshakes s1 !! i = Some t0.
Proof.
  intros H. apply advance_inv in H as (X & op & k & Hp & -> & Hperf).
  unfold next_event. rewrite Hp.
  split; [rewrite count_in_snoc; unfold count_if; simpl;
          destruct (f _); reflexivity|].
  apply perform_effect in Hperf as (HL & HA & HC & HH & _).
  unfold count_all. rewrite HL, HA, HC, HH, sum_list_with_app.
  repeat split; auto.
  - destruct (event_of op (a X op)); simpl; unfold count_in; simpl; lia.
  - intros i t0 Hi. now apply lookup_app_l_Some.
Qed.

Lemma count_if_two f e1 e2 :
  count_if f [e1; e2] = (if f e1 then 1 else 0) + (if f e2 then 1 else 0).
Proof. unfold count_if. simpl. destruct (f e1), (f e2); reflexivity. Qed.

(** What one step adds to a count over all histories. *)
Lemma count_all_step f s act s' :
  step s act = Some s' ->
  count_all f s' = count_all f s + count_if f (step_events s act).
Proof.
  unfold step. destruct (panicked s); [discriminate|].
  destruct act as [[|i|i|i] a|p j| |]; simpl.
  - destruct (advance (listenG s) a s) as [[t s1]|] eqn:E; [|discriminate].
    intros H; inversion H; subst; clear H.
    destruct (@advance_count _ f _ _ _ _ _ E) as (Hc & Hall & HL & HA & HC & HH).
    unfold count_all in *. simpl. rewrite count_in_next_iter, Hc.
    rewrite HL in Hall. lia.
  - destruct (handshakes s !! i) as [t|] eqn:Hi; [|discriminate].
    destruct (advance t a s) as [[t' s1]|] eqn:E; [|discriminate].
    intros H; inversion H; subst; clear H.
    destruct (@advance_count _ f _ _ _ _ _ E) as (Hc & Hall & HL & HA & HC & HH).
    pose proof (@sum_list_with_insert _ (count_in f) (handshakes s1) i t t'
                  (HH _ _ Hi)) as Hins.
    unfold count_all in *. simpl. lia.
  - destruct (accepts s !! i) as [t|] eqn:Hi; [|discriminate].
    destruct (advance t a s) as [[t' s1]|] eqn:E; [|discriminate].
    intros H; inversion H; subst; clear H.
    destruct (@advance_count _ f _ _ _ _ _ E) as (Hc & Hall & HL & HA & HC & HH).
    rewrite <- HA in Hi.
    pose proof (@sum_list_with_insert _ (count_in f) (accepts s1) i t t' Hi) as Hins.
    unfold count_all in *. simpl. lia.
  - destruct (closes s !! i) as [t|] eqn:Hi; [|discriminate].
    destruct (advance t a s) as [[t' s1]|] eqn:E; [|discriminate].
    intros H; inversion H; subst; clear H.
    destruct (@advance_count _ f _ _ _ _ _ E) as (Hc & Hall & HL & HA & HC & HH).
    rewrite <- HC in Hi.
    pose proof (@sum_list_with_insert _ (count_in f) (closes s1) i t t' Hi) as Hins.
    unfold count_all in *. simpl. lia.
  - unfold handoff.
    destruct (accepts s !! j) as [ta|] eqn:Hj; [|discriminate].
    destruct p as [|i| |]; try discriminate.
    + destruct (sender (listenG s)) as [[m tl]|] eqn:Hs; [|discriminate].
      destruct (receiver ta m) as [ta'|] eqn:Hr; [|discriminate].
      intros H; inversion H; subst; clear H.
      apply sender_inv in Hs as (k & Hk & ->).
      apply receiver_inv in Hr as (k' & Hk' & ->).
      pose proof (@sum_list_with_insert _ (count_in f) (accepts s) j ta
        {| prog := k' (Some m); hist := hist ta ++ [EvRecvConns (Some m)] |} Hj) as Hins.
      rewrite count_in_snoc in Hins.
      unfold count_all. simpl. rewrite Hk. simpl.
      rewrite count_in_next_iter, count_in_snoc, count_if_two. lia.
    + destruct (handshakes s !! i) as [th|] eqn:Hi; [|discriminate].
      destruct (sender th) as [[m th']|] eqn:Hs; [|discriminate].
      destruct (receiver ta m) as [ta'|] eqn:Hr; [|discriminate].
      intros H; inversion H; subst; clear H.
      apply sender_inv in Hs as (k & Hk & ->).
      apply receiver_inv in Hr as (k' & Hk' & ->).
      pose proof (@sum_list_with_insert _ (count_in f) (accepts s) j ta
        {| prog := k' (Some m); hist := hist ta ++ [EvRecvConns (Some m)] |} Hj) as Hins.
      pose proof (@sum_list_with_insert _ (count_in f) (handshakes s) i th
        {| prog := k true; hist := hist th ++ [EvSendConns m true] |} Hi) as Hins'.
      rewrite count_in_snoc in Hins. rewrite count_in_snoc in Hins'.
      unfold count_all. simpl. rewrite Hi, Hk. simpl. rewrite count_if_two. lia.
  - intros H; inversion H; subst; clear H.
    unfold count_all. simpl. rewrite sum_list_with_app. simpl.
    change (count_in f (spawn Accept)) with 0. change (count_if f []) with 0. lia.
  - intros H; inversion H; subst; clear H.
    unfold count_all. simpl. rewrite sum_list_with_app. simpl.
    change (count_in f (spawn Close)) with 0. change (count_if f []) with 0. lia.
Qed.

Lemma perform_no_handoff s X (op : Op X) x s1 :
  perform s op x = Some s1 ->
  is_emission (event_of op x) = false /\ is_reception (event_of op x) = false.
Proof.
  destruct op; simpl; auto.
  - destruct x; [discriminate|auto].
  - destruct x; [discriminate|auto].
Qed.

Lemma advance_no_handoff {A} (t t' : Thread A) a s s1 :
  advance t a s = Some (t', s1) ->
  count_if is_emission (next_event t a) = 0 /\
  count_if is_reception (next_event t a) = 0.
Proof.
  intros H. apply advance_inv in H as (X & op & k & Hp & -> & Hperf).
  unfold next_event. rewrite Hp.
  destruct (@perform_no_handoff _ _ _ _ _ Hperf) as [E1 E2].
  unfold count_if. simpl. now rewrite E1, E2.
Qed.

Lemma step_events_paired s act s' :
  step s act = Some s' ->
  count_if is_emission (step_events s act)
  = count_if is_reception (step_events s act).
Proof.
  unfold step. destruct (panicked s); [discriminate|].
  destruct act as [[|i|i|i] a|p j| |]; simpl; auto.
  - destruct (advance (listenG s) a s) as [[t s1]|] eqn:E; [|discriminate].
    destruct (@advance_no_handoff _ _ _ _ _ _ E) as [-> ->]. reflexivity.
  - destruct (handshakes s !! i) as [t|] eqn:Hi; [|discriminate]. simpl.
    destruct (advance t a s) as [[t' s1]|] eqn:E; [|discriminate].
    destruct (@advance_no_handoff _ _ _ _ _ _ E) as [-> ->]. reflexivity.
  - destruct (accepts s !! i) as [t|] eqn:Hi; [|discriminate]. simpl.
    destruct (advance t a s) as [[t' s1]|] eqn:E; [|discriminate].
    destruct (@advance_no_handoff _ _ _ _ _ _ E) as [-> ->]. reflexivity.
  - destruct (closes s !! i) as [t|] eqn:Hi; [|discriminate]. simpl.
    destruct (advance t a s) as [[t' s1]|] eqn:E; [|discriminate].
    destruct (@advance_no_handoff _ _ _ _ _ _ E) as [-> ->]. reflexivity.
  - destruct (offer_of s p); reflexivity.
Qed.

Lemma delivered_once s :
  reachable s -> count_all is_emission s = count_all is_reception s.
Proof.
  intros (s0 & acts & H0 & H).
  eapply (exec_invariant
            (fun s => count_all is_emission s = count_all is_reception s));
    [| |exact H].
  - clear. intros s act s' Hs Hstep.
    rewrite (@count_all_step is_emission _ _ _ Hstep).
    rewrite (@count_all_step is_reception _ _ _ Hstep).
    rewrite (@step_events_paired _ _ _ Hstep). lia.
  - apply NewListener_state in H0. subst. reflexivity.
Qed.


(** ** [Close] *)

Lemma exec_app s l1 l2 :
  exec s (l1 ++ l2) = match exec s l1 with Some s1 => exec s1 l2 | None => None end.
Proof.
  revert s. induction l1 as [|a l1 IH]; simpl; intros s; [reflexivity|].
  destruct (step s a); auto.
Qed.

Lemma lookup_snoc {A} (l : list A) x : (l ++ [x]) !! length l = Some x.
Proof. now apply list_lookup_middle. Qed.

Lemma insert_snoc {A} (l : list A) x y : <[length l := y]> (l ++ [x]) = l ++ [y].
Proof.
  rewrite insert_app_r_alt by lia. now rewrite Nat.sub_diag.
Qed.

(** A call of [Close] that finds [quit] open closes it, then closes the
    raw listener and returns what that returns. *)
Lemma close_call_open s (a1 a2 a3 : Answer) :
  panicked s = false -> quit s = false -> a1 _ PollQuit = false ->
  let i := length (closes s) in
  exec s [CallClose; Run (TClose i) a1; Run (TClose i) a2; Run (TClose i) a3]
  = Some (set_closes
            (closes s ++
               [{| prog := Ret (a3 _ TcpClose);
                   hist := [EvPollQuit false; EvCloseQuit;
                            EvTcpClose (a3 _ TcpClose)] |}])
            (set_quit true s)).
Proof.
  intros Hnp Hq Ha1. simpl.
  unfold step at 1. rewrite Hnp.
  unfold step at 1. simpl. rewrite Hnp, lookup_snoc.
  unfold advance. simpl. rewrite Ha1, Hq. simpl. rewrite insert_snoc.
  unfold step at 1. simpl. rewrite Hnp, lookup_snoc.
  unfold advance. simpl. rewrite Hq. simpl. rewrite insert_snoc.
  unfold step at 1. simpl. rewrite Hnp, lookup_snoc.
  unfold advance. simpl. rewrite insert_snoc. reflexivity.
Qed.

(** A call of [Close] that finds [quit] closed leaves it alone, closes
    the raw listener again and returns what that returns. *)
Lemma close_call_closed s (b1 b2 : Answer) :
  panicked s = false -> quit s = true -> b1 _ PollQuit = true ->
  let i := length (closes s) in
  exec s [CallClose; Run (TClose i) b1; Run (TClose i) b2]
  = Some (set_closes
            (closes s ++
               [{| prog := Ret (b2 _ TcpClose);
                   hist := [EvPollQuit true; EvTcpClose (b2 _ TcpClose)] |}])
            s).
Proof.
  intros Hnp Hq Hb1. simpl.
  unfold step at 1. rewrite Hnp.
  unfold step at 1. simpl. rewrite Hnp, lookup_snoc.
  unfold advance. simpl. rewrite Hb1, Hq. simpl. rewrite insert_snoc.
  unfold step at 1. simpl. rewrite Hnp, lookup_snoc.
  unfold advance. simpl. rewrite insert_snoc. reflexivity.
Qed.

(** It cannot take the [default] case of the [select]. *)
Lemma close_call_closed_only s (b : Answer) :
  quit s = true -> b _ PollQuit = false ->
  exec s [CallClose; Run (TClose (length (closes s))) b] = None.
Proof.
  intros Hq Hb. simpl. unfold step at 1.
  destruct (panicked s) eqn:Hnp; [reflexivity|].
  unfold step at 1. simpl. rewrite Hnp, lookup_snoc.
  unfold advance. simpl. rewrite Hb, Hq. reflexivity.
Qed.

(** C3.  Two calls of [Close], one after the other, on a listener that
    is open: the first finds [quit] open, closes it, closes the raw
    listener and returns what that returned; the second finds [quit]
    closed, does not close it again (it cannot take the [default]
    case), does not panic, closes the raw listener again and returns
    what that returned this time.  [quit] is closed once.  The same
    holds of any call of [Close] made while [quit] is closed. *)
Theorem close_twice s (a1 a2 a3 b1 b2 : Answer) :
  panicked s = false ->
  let i := length (closes s) in
  let first :=
    {| prog := Ret (a3 _ TcpClose);
       hist := [EvPollQuit false; EvCloseQuit; EvTcpClose (a3 _ TcpClose)] |} in
  let second :=
    {| prog := Ret (b2 _ TcpClose);
       hist := [EvPollQuit true; EvTcpClose (b2 _ TcpClose)] |} in
  let once := [CallClose; Run (TClose i) a1; Run (TClose i) a2; Run (TClose i) a3] in
  (quit s = false -> a1 _ PollQuit = false -> b1 _ PollQuit = true ->
     exec s (once ++ [CallClose; Run (TClose (S i)) b1; Run (TClose (S i)) b2])
     = Some (set_closes (closes s ++ [first; second]) (set_quit true s))) /\
  (quit s = false -> a1 _ PollQuit = false -> b1 _ PollQuit = false ->
     exec s (once ++ [CallClose; Run (TClose (S i)) b1]) = None) /\
  (quit s = true -> b1 _ PollQuit = true ->
     exec s [CallClose; Run (TClose i) b1; Run (TClose i) b2]
     = Some (set_closes (closes s ++ [second]) s)) /\
  (quit s = true -> b1 _ PollQuit = false ->
     exec s [CallClose; Run (TClose i) b1] = None).
Proof.
  intros Hnp i first second once. subst once.
  assert (Hlater :
    (quit s = true -> b1 _ PollQuit = true ->
       exec s [CallClose; Run (TClose i) b1; Run (TClose i) b2]
       = Some (set_closes (closes s ++ [second]) s)) /\
    (quit s = true -> b1 _ PollQuit = false ->
       exec s [CallClose; Run (TClose i) b1] = None)).
  { split; intros Hq Hb1.
    - now apply close_call_closed.
    - now apply close_call_closed_only. }
  destruct Hlater as [Hl1 Hl2].
  cut (quit s = false -> a1 _ PollQuit = false ->
       (b1 _ PollQuit = true ->
          exec s ([CallClose; Run (TClose i) a1; Run (TClose i) a2;
                   Run (TClose i) a3]
                  ++ [CallClose; Run (TClose (S i)) b1; Run (TClose (S i)) b2])
          = Some (set_closes (closes s ++ [first; second]) (set_quit true s))) /\
       (b1 _ PollQuit = false ->
          exec s ([CallClose; Run (TClose i) a1; Run (TClose i) a2;
                   Run (TClose i) a3]
                  ++ [CallClose; Run (TClose (S i)) b1]) = None)).
  { intros H. repeat split; auto; intros Hq Ha1 Hb1; now apply H. }
  clear Hl1 Hl2. intros Hq Ha1.
  pose proof (close_call_open s a1 a2 a3 Hnp Hq Ha1) as H1.
  cbv zeta in H1. fold i first in H1.
  split; intros Hb1; rewrite exec_app, H1.
  - pose proof (close_call_closed (set_closes (closes s ++ [first]) (set_quit true s))
                  b1 b2 Hnp eq_refl Hb1) as H2.
    simpl in H2. rewrite length_app in H2. simpl in H2.
    replace (length (closes s) + 1) with (S i) in H2 by (unfold i; lia).
    simpl. rewrite H2. unfold set_closes, set_quit. simpl.
    now rewrite <- app_assoc.
  - pose proof (close_call_closed_only
                  (set_closes (closes s ++ [first]) (set_quit true s)) b1
                  eq_refl Hb1) as H2.
    simpl in H2. rewrite length_app in H2. simpl in H2.
    replace (length (closes s) + 1) with (S i) in H2 by (unfold i; lia).
    simpl. exact H2.
Qed.

(** ** The accept loop *)

Lemma listen_iter_shape : loop_shape listen_iter.
Proof. unfold listen_iter. walk. Qed.

Lemma perform_quit s X (op : Op X) x s1 :
  perform s op x = Some s1 ->
  (quit s = true -> quit s1 = true) /\
  (is_quit_acquire (event_of op x) = true -> quit s = true).
Proof.
  destruct op; simpl; intros H.
  all: repeat match type of H with
       | (if ?b then _ else _) = _ => destruct b eqn:?
       | match ?b with _ => _ end = _ => destruct b eqn:?
       end; try discriminate.
  all: inversion H; subst; simpl; split; auto; discriminate.
Qed.

Lemma advance_quit {A} (t t' : Thread A) a s s1 :
  advance t a s = Some (t', s1) -> quit s = true -> quit s1 = true.
Proof.
  intros H. apply advance_inv in H as (X & op & k & Hp & -> & Hperf).
  now apply perform_quit in Hperf.
Qed.

Lemma loop_shape_next_iter (t : Thread LoopCtl) :
  loop_shape (prog t) ->
  finished (next_iter t) = false /\ loop_shape (prog (next_iter t)).
Proof.
  unfold next_iter, finished. destruct (prog t) as [[]|] eqn:E; simpl; intros H.
  - split; [reflexivity|apply listen_iter_shape].
  - discriminate.
  - rewrite E. split; auto.
Qed.

Lemma loop_inv_step s act s' :
  loop_inv s -> step s act = Some s' -> loop_inv s'.
Proof.
  intros Hinv. unfold step. destruct (panicked s); [discriminate|].
  destruct act as [[|i|i|i] a|p j| |].
  - destruct (advance (listenG s) a s) as [[t s1]|] eqn:E; [|discriminate].
    intros H; inversion H; subst; clear H.
    apply advance_inv in E as (X & op & k & Hp & -> & Hperf).
    destruct Hinv as [[Hr _]|[_ Hs]]; [rewrite Hr in Hp; discriminate|].
    rewrite Hp in Hs. simpl in Hs. specialize (Hs (a X op)).
    apply perform_quit in Hperf as [Hm Hq].
    destruct (is_quit_acquire (event_of op (a X op))).
    + left. simpl. unfold next_iter. simpl. rewrite Hs. simpl. auto.
    + right. simpl. now apply loop_shape_next_iter.
  - destruct (handshakes s !! i) as [t|] eqn:Hi; [|discriminate].
    destruct (advance t a s) as [[t' s1]|] eqn:E; [|discriminate].
    intros H; inversion H; subst; clear H.
    destruct (@advance_frame _ _ _ _ _ _ E) as (HL & _).
    pose proof (@advance_quit _ _ _ _ _ _ E) as Hq.
    unfold loop_inv in *. simpl. rewrite HL. tauto.
  - destruct (accepts s !! i) as [t|] eqn:Hi; [|discriminate].
    destruct (advance t a s) as [[t' s1]|] eqn:E; [|discriminate].
    intros H; inversion H; subst; clear H.
    destruct (@advance_frame _ _ _ _ _ _ E) as (HL & _).
    pose proof (@advance_quit _ _ _ _ _ _ E) as Hq.
    unfold loop_inv in *. simpl. rewrite HL. tauto.
  - destruct (closes s !! i) as [t|] eqn:Hi; [|discriminate].
    destruct (advance t a s) as [[t' s1]|] eqn:E; [|discriminate].
    intros H; inversion H; subst; clear H.
    destruct (@advance_frame _ _ _ _ _ _ E) as (HL & _).
    pose proof (@advance_quit _ _ _ _ _ _ E) as Hq.
    unfold loop_inv in *. simpl. rewrite HL. tauto.
  - unfold handoff.
    destruct (accepts s !! j) as [ta|] eqn:Hj; [|discriminate].
    destruct p as [|i| |]; try discriminate.
    + destruct (sender (listenG s)) as [[m tl]|] eqn:Hs; [|discriminate].
      destruct (receiver ta m) as [ta'|] eqn:Hr; [|discriminate].
      intros H; inversion H; subst; clear H.
      apply sender_inv in Hs as (k & Hk & ->).
      destruct Hinv as [[Hr' _]|[_ Hsh]]; [rewrite Hr' in Hk; discriminate|].
      rewrite Hk in Hsh. simpl in Hsh. specialize (Hsh true). simpl in Hsh.
      right. simpl. now apply loop_shape_next_iter.
    + destruct (handshakes s !! i) as [th|] eqn:Hi; [|discriminate].
      destruct (sender th) as [[m th']|] eqn:Hs; [|discriminate].
      destruct (receiver ta m) as [ta'|] eqn:Hr; [|discriminate].
      intros H; inversion H; subst; clear H. exact Hinv.
  - intros H; inversion H; subst; clear H. exact Hinv.
  - intros H; inversion H; subst; clear H. exact Hinv.
Qed.

Lemma loop_inv_reachable s : reachable s -> loop_inv s.
Proof.
  intros (s0 & acts & H0 & H).
  eapply (exec_invariant loop_inv); eauto using loop_inv_step.
  apply NewListener_state in H0. subst. right. simpl.
  split; [reflexivity|apply listen_iter_shape].
Qed.

(** C5.  When the raw accept fails with [e], the iteration of [listen]
    puts the outcome holding [e] and no connection up for delivery,
    then sends its token back, then goes on with the next iteration;
    the outcome is handed over if the send on [conns] is taken and is
    dropped if the quit case is, which needs [quit] to be closed.  An
    iteration returns only if its first [select] took the quit case,
    and in every reachable state where [listen] has returned, [quit] is
    closed. *)
Theorem accept_error_continues :
  (forall (o : Oracle) e,
     o 0 _ RecvSemaOrQuit = true -> o 1 _ TcpAccept = Err e ->
     let m := {| conn := None; err := Some e |} in
     let sent := o 2 _ (SendConnsOrQuit m) in
     trace o listen_iter
       = [EvRecvSema true; EvTcpAccept (Err e); EvSendConns m sent; EvSendSema]
     /\ emitted (trace o listen_iter) = (if sent then [m] else [])
     /\ returns o listen_iter = Continue) /\
  (forall s m s', perform s (SendConnsOrQuit m) false = Some s' -> quit s = true) /\
  (forall o : Oracle,
     returns o listen_iter = Return <-> o 0 _ RecvSemaOrQuit = false) /\
  (forall s, reachable s -> finished (listenG s) = true -> quit s = true).
Proof.
  split; [|split; [|split]].
  - intros o e Hgot Hacc. unfold trace, returns, listen_iter. simpl.
    rewrite Hgot. simpl. rewrite Hacc. simpl.
    repeat split. unfold emitted. simpl. destruct (o 2 _ _); reflexivity.
  - intros s m s' H. simpl in H. destruct (quit s); [reflexivity|discriminate].
  - intros o. unfold returns, listen_iter. simpl.
    destruct (o 0 _ RecvSemaOrQuit); simpl; [|tauto].
    destruct (o 1 _ TcpAccept); simpl; split; discriminate.
  - intros s Hr Hf. destruct (loop_inv_reachable Hr) as [[_ Hq]|[Hn _]]; auto.
    rewrite Hf in Hn. discriminate.
Qed.

(** ** Histories are traces *)

Lemma trace_from_ext {A} (p : Prog A) (o1 o2 : Oracle) i :
  (forall j, i <= j -> forall X (op : Op X), o1 j X op = o2 j X op) ->
  trace_from o1 i p = trace_from o2 i p.
Proof.
  revert i. induction p as [r|X op k IH]; simpl; intros i H; [reflexivity|].
  rewrite (H i (le_n i)). f_equal. apply IH. intros j Hj. apply H. lia.
Qed.

Lemma runs_spawn {A} (p : Prog A) : runs p (spawn p).
Proof. intros o'. exists o'. reflexivity. Qed.

Lemma runs_step {A} (p : Prog A) (t : Thread A) X (op : Op X) k (a : Answer) :
  prog t = Vis op k -> runs p t ->
  runs p {| prog := k (a X op); hist := hist t ++ [event_of op (a X op)] |}.
Proof.
  intros Hp Hr o'.
  set (len := length (hist t)).
  set (o'' := fun j => if Nat.eqb j len then a else o' j).
  assert (Ha : o'' len = a) by (unfold o''; now rewrite Nat.eqb_refl).
  destruct (Hr o'') as [o Ho]. exists o. rewrite Ho, Hp. simpl.
  fold len. rewrite Ha, <- app_assoc. simpl. do 2 f_equal.
  rewrite length_app. simpl.
  replace (length (hist t) + 1) with (S len) by (unfold len; lia).
  apply trace_from_ext. intros j Hj Y op'. unfold o''.
  destruct (Nat.eqb_spec j len); [lia|reflexivity].
Qed.

(** A property of handshake goroutines that holds when they start and
    is kept by each of their operations holds of all of them in every
    reachable state. *)
Lemma tasks_invariant (P : Thread unit -> Prop) :
  (forall c, P (spawn (doHandshake c))) ->
  (forall t X (op : Op X) k (a : Answer),
     prog t = Vis op k -> P t ->
     P {| prog := k (a X op); hist := hist t ++ [event_of op (a X op)] |}) ->
  forall s, reachable s -> Forall P (handshakes s).
Proof.
  intros Hspawn Hstep s (s0 & acts & H0 & H).
  eapply (exec_invariant (fun s => Forall P (handshakes s))); [| |exact H].
  - clear -Hspawn Hstep. intros s act s' HT.
    assert (Hperf : forall X (op : Op X) x s1,
              perform s op x = Some s1 -> Forall P (handshakes s1)).
    { intros X op x s1 Hp. apply perform_effect in Hp as (_ & _ & _ & HH & _).
      rewrite HH. apply Forall_app. split; auto.
      destruct (event_of op x); auto. }
    unfold step. destruct (panicked s); [discriminate|].
    destruct act as [[|i|i|i] a|p j| |].
    + destruct (advance (listenG s) a s) as [[t s1]|] eqn:E; [|discriminate].
      intros H; inversion H; subst; clear H. simpl.
      apply advance_inv in E as (X & op & k & Hp & -> & Hpf). eauto.
    + destruct (handshakes s !! i) as [t|] eqn:Hi; [|discriminate].
      destruct (advance t a s) as [[t' s1]|] eqn:E; [|discriminate].
      intros H; inversion H; subst; clear H. simpl.
      apply advance_inv in E as (X & op & k & Hp & -> & Hpf).
      apply Forall_insert; eauto.
      apply Hstep; auto. exact (proj1 (Forall_lookup _ _) HT i t Hi).
    + destruct (accepts s !! i) as [t|] eqn:Hi; [|discriminate].
      destruct (advance t a s) as [[t' s1]|] eqn:E; [|discriminate].
      intros H; inversion H; subst; clear H. simpl.
      apply advance_inv in E as (X & op & k & Hp & -> & Hpf). eauto.
    + destruct (closes s !! i) as [t|] eqn:Hi; [|discriminate].
      destruct (advance t a s) as [[t' s1]|] eqn:E; [|discriminate].
      intros H; inversion H; subst; clear H. simpl.
      apply advance_inv in E as (X & op & k & Hp & -> & Hpf). eauto.
    + unfold handoff.
      destruct (accepts s !! j) as [ta|] eqn:Hj; [|discriminate].
      destruct p as [|i| |]; try discriminate.
      * destruct (sender (listenG s)) as [[m tl]|] eqn:Hs; [|discriminate].
        destruct (receiver ta m) as [ta'|] eqn:Hr; [|discriminate].
        intros H; inversion H; subst; clear H. exact HT.
      * destruct (handshakes s !! i) as [th|] eqn:Hi; [|discriminate].
        destruct (sender th) as [[m th']|] eqn:Hs; [|discriminate].
        destruct (receiver ta m) as [ta'|] eqn:Hr; [|discriminate].
        intros H; inversion H; subst; clear H. simpl.
        apply sender_inv in Hs as (k & Hk & ->).
        apply Forall_insert; auto.
        apply (Hstep th _ (SendConnsOrQuit m) k (answer calm) Hk).
        exact (proj1 (Forall_lookup _ _) HT i th Hi).
    + intros H; inversion H; subst; clear H. exact HT.
    + intros H; inversion H; subst; clear H. exact HT.
  - apply NewListener_state in H0. subst. constructor.
Qed.

(** The theorems on [doHandshake] below are stated for its traces
    against every oracle.  They apply to the interleaving semantics: in
    every reachable state the history of a handshake goroutine that has
    returned is such a trace. *)
Lemma finished_task_trace s i t :
  reachable s -> handshakes s !! i = Some t -> finished t = true ->
  exists (o : Oracle) c, hist t = trace o (doHandshake c).
Proof.
  intros Hr Hi Hf.
  pose proof (tasks_invariant (fun t => exists c, runs (doHandshake c) t)) as H.
  assert (HT : Forall (fun t => exists c, runs (doHandshake c) t) (handshakes s)).
  { apply H; auto.
    - intros c. exists c. apply runs_spawn.
    - intros t0 X op k a Hp [c Hc]. exists c. now apply runs_step. }
  destruct (proj1 (Forall_lookup _ _) HT i t Hi) as [c Hc].
  destruct (Hc (fun _ => answer calm)) as [o Ho].
  exists o, c. rewrite Ho. unfold finished in Hf.
  destruct (prog t); [|discriminate]. simpl. now rewrite app_nil_r.
Qed.

(** ** The handshake task *)

(** C9.  The first check of [quit] finds it closed exactly when it is
    closed.  When it does, the task does nothing but send its token
    back: no noise machine is made, no deadline is set, nothing is read
    from, written to or closed on the connection, and no outcome is put
    up for delivery.  In a state where [quit] is closed, a handshake
    goroutine that has not started cannot take the [default] case, and
    its two steps leave it returned with its token back in
    [handshakeSema] and nothing else changed. *)
Theorem pre_check_no_io :
  (forall s fired s', perform s PollQuit fired = Some s' -> fired = quit s) /\
  (forall (o : Oracle) (c : RawConn),
     o 0 _ PollQuit = true ->
     let tr := trace o (doHandshake c) in
     tr = [EvPollQuit true; EvSendSema] /\
     count_if on_conn tr = 0 /\ count_if on_noise tr = 0 /\
     offered tr = [] /\ count_if is_release tr = 1) /\
  (forall s i c (a1 a2 : Answer),
     panicked s = false -> quit s = true ->
     handshakes s !! i = Some (spawn (doHandshake c)) ->
     handshakeSema s < defaultHandshakes ->
     (a1 _ PollQuit = false -> step s (Run (THandshake i) a1) = None) /\
     (a1 _ PollQuit = true ->
      exec s [Run (THandshake i) a1; Run (THandshake i) a2]
      = Some (set_handshakes
                (<[i := {| prog := Ret tt;
                           hist := [EvPollQuit true; EvSendSema] |}]>
                   (handshakes s))
                (set_handshakeSema (S (handshakeSema s)) s)))).
Proof.
  split; [|split].
  - intros s fired s'. simpl. destruct fired, (quit s); simpl; auto; discriminate.
  - intros o c H. unfold trace, doHandshake, doHandshake_body. simpl.
    rewrite H. simpl. repeat split.
  - intros s i c a1 a2 Hnp Hq Hi Hlt.
    pose proof (lookup_lt_Some _ _ _ Hi) as Hlen.
    split; intros Ha1.
    + unfold step. rewrite Hnp, Hi. unfold advance. simpl.
      rewrite Ha1, Hq. reflexivity.
    + simpl. unfold step at 1. rewrite Hnp, Hi. unfold advance at 1. simpl.
      rewrite Ha1, Hq. simpl.
      unfold step. simpl. rewrite Hnp, list_lookup_insert_eq by assumption.
      unfold advance. simpl. unfold send_sema.
      apply Nat.ltb_lt in Hlt. rewrite Hlt. simpl.
      rewrite list_insert_insert_eq. destruct (a2 _ SendSema). reflexivity.
Qed.

(** C2.  A handshake task puts no outcome up for delivery when it
    leaves at the first check of [quit] or at the check after Act Two,
    and exactly one on every other path; the outcome is handed over
    unless the [select] that sends it takes the quit case, which needs
    [quit] to be closed.  So the task emits no outcome on those three
    exits and exactly one otherwise. *)
Theorem outcomes_per_task :
  (forall (o : Oracle) (c : RawConn),
     let tr := trace o (doHandshake c) in
     length (offered tr)
       = (if pre_check_exit tr || mid_check_exit tr then 0 else 1) /\
     emitted tr = (if delivery_lost tr then [] else offered tr) /\
     length (emitted tr) = (if quit_exit tr then 0 else 1)) /\
  (forall s m s',
     perform s (SendConnsOrQuit m) false = Some s' -> quit s = true).
Proof.
  split.
  - intros o c. handshake_paths; repeat split.
  - intros s m s' H. simpl in H. destruct (quit s); [reflexivity|discriminate].
Qed.

(** C8.  A handshake task sets a deadline of [handshakeReadTimeout] from
    now at most twice, once right before each read it gets to and
    nowhere else; it removes the deadline exactly when it completes the
    handshake, and then it has set two, and removing the deadline is the
    last thing it does on the connection, right before it puts the
    connection up for delivery. *)
Theorem deadlines_per_task (o : Oracle) (c : RawConn) :
  let tr := trace o (doHandshake c) in
  count_if is_arm tr <= 2 /\
  count_if is_arm tr = count_if is_read tr /\
  reads_armed c handshakeReadTimeout tr = true /\
  count_if is_clear tr = (if succeeded tr then 1 else 0) /\
  (succeeded tr = true ->
     count_if is_arm tr = 2 /\
     exists pre e m sent,
       tr = pre ++ [EvSetReadDeadline c ZeroTime e; EvSendConns m sent; EvSendSema]
       /\ is_success m = true /\ count_if is_clear pre = 0 /\ offered pre = []).
Proof.
  handshake_paths.
  all: cbn; rewrite ?Nat.eqb_refl; repeat split; try lia; try discriminate.
  intros; match goal with
  | |- exists pre e m sent, ?l = _ /\ _ =>
      exists (firstn (length l - 3) l)
  end.
  cbn. do 3 eexists. repeat split.
Qed.

(** C10.  A handshake task closes the raw connection once when a step
    of the exchange failed and never otherwise.  So it does not close
    it when it leaves at the first check of [quit], at the check after
    Act Two, or when the delivery of a connection takes the quit case;
    when the delivery of an error takes the quit case, the connection
    was closed right before that delivery was tried. *)
Theorem closes_on_quit_exit (o : Oracle) (c : RawConn) :
  let tr := trace o (doHandshake c) in
  count_if is_close tr = length (failures tr) /\
  length (failures tr) <= 1 /\
  (pre_check_exit tr = true -> count_if is_close tr = 0) /\
  (mid_check_exit tr = true -> count_if is_close tr = 0) /\
  (delivery_lost tr = true -> succeeded tr = true -> count_if is_close tr = 0) /\
  (delivery_lost tr = true -> succeeded tr = false ->
     exists pre e m,
       tr = pre ++ [EvConnClose c e; EvSendConns m false; EvSendSema]
       /\ count_if is_close pre = 0).
Proof.
  handshake_paths.
  all: cbn; repeat split; try lia; try discriminate.
  all: intros; match goal with
    | |- exists pre e m, ?l = _ /\ _ => exists (firstn (length l - 3) l)
    end;
    cbn; do 2 eexists; repeat split.
Qed.

(** C6.  The steps of the exchange a task performs are, in this order
    and as far as it gets: read [ActOneSize] bytes, [RecvActOne] on
    them, [GenActTwo], write its result, read [ActThreeSize] bytes,
    [RecvActThree] on them.  How far it gets is fixed by what happens:
    it performs no step exactly when it finds [quit] closed at its
    first check, and otherwise at least the first read; it stops after
    the fourth step, that one having succeeded, exactly when it finds
    [quit] closed at the check after Act Two; it stops after a step
    that failed, every step before having succeeded; and with no
    failure and [quit] found open it performs all six and completes the
    handshake, which it does in no other case.  At most one step
    fails.  When none does the connection is not closed.  When one
    fails with [e], the task goes on with exactly: close the raw
    connection, put the outcome holding [e] and no connection up for
    delivery, send the token back; that outcome is handed over if the
    send is taken and dropped if the quit case is. *)
Theorem three_act_sequence (o : Oracle) (c : RawConn) :
  let tr := trace o (doHandshake c) in
  (exists m r1 e1 r2 e2 r3 e3 rest,
     [EvReadFull c ActOneSize r1; EvRecvActOne m (payload r1) e1;
      EvGenActTwo m r2; EvConnWrite c (payload r2) e2;
      EvReadFull c ActThreeSize r3; EvRecvActThree m (payload r3) e3]
     = List.filter is_act tr ++ rest
     /\ (succeeded tr = true <-> rest = [] /\ failures tr = [])
     /\ (pre_check_exit tr = true <-> List.filter is_act tr = [])
     /\ (mid_check_exit tr = true <-> length rest = 2 /\ failures tr = [])
     /\ (failures tr = [] ->
           pre_check_exit tr = true \/ mid_check_exit tr = true
           \/ succeeded tr = true)
     /\ (forall e, failures tr = [e] ->
           exists done f,
             List.filter is_act tr = done ++ [f]
             /\ failure f = Some e /\ failures done = [])) /\
  match failures tr with
  | [] => count_if is_close tr = 0
  | [e] =>
      exists pre f ce sent,
        tr = pre ++ [f; EvConnClose c ce;
                     EvSendConns {| conn := None; err := Some e |} sent;
                     EvSendSema]
        /\ failure f = Some e
        /\ count_if is_close pre = 0 /\ offered pre = []
        /\ emitted tr = (if sent then [{| conn := None; err := Some e |}] else [])
  | _ => False
  end.
Proof.
  cbv zeta. split.
  - exists (o 1 _ (NewNoiseMachine false)).
    exists (o 3 _ (ReadFull c ActOneSize)).
    exists (o 4 _ (RecvActOne (o 1 _ (NewNoiseMachine false))
                     (payload (o 3 _ (ReadFull c ActOneSize))))).
    exists (o 5 _ (GenActTwo (o 1 _ (NewNoiseMachine false)))).
    exists (o 6 _ (ConnWrite c (payload (o 5 _ (GenActTwo (o 1 _ (NewNoiseMachine false))))))).
    exists (o 9 _ (ReadFull c ActThreeSize)).
    exists (o 10 _ (RecvActThree (o 1 _ (NewNoiseMachine false))
                      (payload (o 9 _ (ReadFull c ActThreeSize))))).
    handshake_paths.
    all: cbn; eexists; split; [reflexivity|].
    all: repeat match goal with
         | |- _ /\ _ => split
         | |- _ <-> _ => split
         end.
    all: try (intros; discriminate).
    all: try (intros [? ?]; discriminate).
    all: try (intros; split; reflexivity).
    all: try (intros; reflexivity).
    all: try (intros; auto; fail).
    all: try (intros ? He; inversion He; subst;
              match goal with
              | |- exists done f, ?l = _ /\ _ =>
                  exists (removelast l); cbn; eexists; repeat split
              end).
    all: try (intros; right; right; reflexivity).
    all: try (intros; right; left; reflexivity).
    all: try (intros; left; reflexivity).
  - handshake_paths.
    all: cbn; try reflexivity.
    all: match goal with
         | |- exists pre f ce sent, ?l = _ /\ _ =>
             exists (firstn (length l - 4) l)
         end;
      cbn; do 3 eexists; repeat split.
    all: match goal with
         | |- context [if ?b then _ else _] => destruct b
         | H : ?x = false |- _ => rewrite H
         | H : ?x = true |- _ => rewrite H
         | _ => idtac
         end; try reflexivity.
Qed.

(** ** Properties kept by each goroutine *)

(** Properties of the four kinds of goroutine that hold when they start
    and are kept by each of their operations, whatever it is answered,
    hold in every reachable state. *)
Lemma threads_invariant
    (PL : Thread LoopCtl -> Prop) (PT : Thread unit -> Prop)
    (PA : Thread (NetConn * option error) -> Prop)
    (PC : Thread (option error) -> Prop) :
  PL (spawn listen_iter) ->
  (forall t, PL t -> PL (next_iter t)) ->
  (forall c, PT (spawn (doHandshake c))) ->
  PA (spawn Accept) ->
  PC (spawn Close) ->
  (forall t X (op : Op X) k (a : Answer), prog t = Vis op k -> PL t ->
     PL {| prog := k (a X op); hist := hist t ++ [event_of op (a X op)] |}) ->
  (forall t X (op : Op X) k (a : Answer), prog t = Vis op k -> PT t ->
     PT {| prog := k (a X op); hist := hist t ++ [event_of op (a X op)] |}) ->
  (forall t X (op : Op X) k (a : Answer), prog t = Vis op k -> PA t ->
     PA {| prog := k (a X op); hist := hist t ++ [event_of op (a X op)] |}) ->
  (forall t X (op : Op X) k (a : Answer), prog t = Vis op k -> PC t ->
     PC {| prog := k (a X op); hist := hist t ++ [event_of op (a X op)] |}) ->
  forall s, reachable s ->
    PL (listenG s) /\ Forall PT (handshakes s)
    /\ Forall PA (accepts s) /\ Forall PC (closes s).
Proof.
  intros HL0 HLn HT0 HA0 HC0 HL HT HA HC s (s0 & acts & H0 & H).
  eapply (exec_invariant
            (fun s => PL (listenG s) /\ Forall PT (handshakes s)
                      /\ Forall PA (accepts s) /\ Forall PC (closes s)));
    [| |exact H].
  - clear s s0 acts H0 H. intros s act s' (IL & IT & IA & IC).
    assert (Hgrow : forall X (op : Op X) x s1,
              perform s op x = Some s1 ->
              listenG s1 = listenG s /\ accepts s1 = accepts s
              /\ closes s1 = closes s /\ Forall PT (handshakes s1)).
    { intros X op x s1 Hp.
      apply perform_effect in Hp as (E1 & E2 & E3 & E4 & _).
      repeat split; auto. rewrite E4. apply Forall_app. split; auto.
      destruct (event_of op x); auto. }
    unfold step. destruct (panicked s); [discriminate|].
    destruct act as [[|i|i|i] a|p j| |].
    + destruct (advance (listenG s) a s) as [[t s1]|] eqn:E; [|discriminate].
      intros H; inversion H; subst; clear H. simpl.
      apply advance_inv in E as (X & op & k & Hp & -> & Hpf).
      destruct (Hgrow _ _ _ _ Hpf) as (_ & E2 & E3 & E4).
      rewrite E2, E3. repeat split; auto.
    + destruct (handshakes s !! i) as [t|] eqn:Hi; [|discriminate].
      destruct (advance t a s) as [[t' s1]|] eqn:E; [|discriminate].
      intros H; inversion H; subst; clear H. simpl.
      apply advance_inv in E as (X & op & k & Hp & -> & Hpf).
      destruct (Hgrow _ _ _ _ Hpf) as (E1 & E2 & E3 & E4).
      rewrite E1, E2, E3. repeat split; auto.
      apply Forall_insert; auto. apply HT; auto.
      exact (proj1 (Forall_lookup _ _) IT i t Hi).
    + destruct (accepts s !! i) as [t|] eqn:Hi; [|discriminate].
      destruct (advance t a s) as [[t' s1]|] eqn:E; [|discriminate].
      intros H; inversion H; subst; clear H. simpl.
      apply advance_inv in E as (X & op & k & Hp & -> & Hpf).
      destruct (Hgrow _ _ _ _ Hpf) as (E1 & E2 & E3 & E4).
      rewrite E1, E2, E3. repeat split; auto.
      apply Forall_insert; auto. apply HA; auto.
      exact (proj1 (Forall_lookup _ _) IA i t Hi).
    + destruct (closes s !! i) as [t|] eqn:Hi; [|discriminate].
      destruct (advance t a s) as [[t' s1]|] eqn:E; [|discriminate].
      intros H; inversion H; subst; clear H. simpl.
      apply advance_inv in E as (X & op & k & Hp & -> & Hpf).
      destruct (Hgrow _ _ _ _ Hpf) as (E1 & E2 & E3 & E4).
      rewrite E1, E2, E3. repeat split; auto.
      apply Forall_insert; auto. apply HC; auto.
      exact (proj1 (Forall_lookup _ _) IC i t Hi).
    + unfold handoff.
      destruct (accepts s !! j) as [ta|] eqn:Hj; [|discriminate].
      pose proof (proj1 (Forall_lookup _ _) IA j ta Hj) as Hta.
      assert (Hrecv : forall m ta', receiver ta m = Some ta' -> PA ta').
      { intros m ta' Hr. apply receiver_inv in Hr as (k & Hk & ->).
        apply (HA ta _ RecvConnsOrQuit k
                 (answer {| env_fired := false; env_got := true;
                            env_sent := true; env_recv := Some m;
                            env_accept := Ok 0; env_close := None;
                            env_read := fun _ => Ok [];
                            env_io := None; env_noise := None;
                            env_gen := Ok []; env_machine := 0 |}) Hk Hta). }
      destruct p as [|i| |]; try discriminate.
      * destruct (sender (listenG s)) as [[m tl]|] eqn:Hs; [|discriminate].
        destruct (receiver ta m) as [ta'|] eqn:Hr; [|discriminate].
        intros H; inversion H; subst; clear H. simpl.
        apply sender_inv in Hs as (k & Hk & ->).
        repeat split; auto.
        -- apply HLn. apply (HL _ _ (SendConnsOrQuit m) k (answer calm) Hk IL).
        -- apply Forall_insert; eauto.
      * destruct (handshakes s !! i) as [th|] eqn:Hi; [|discriminate].
        destruct (sender th) as [[m th']|] eqn:Hs; [|discriminate].
        destruct (receiver ta m) as [ta'|] eqn:Hr; [|discriminate].
        intros H; inversion H; subst; clear H. simpl.
        apply sender_inv in Hs as (k & Hk & ->).
        repeat split; auto.
        -- apply Forall_insert; auto.
           apply (HT th _ (SendConnsOrQuit m) k (answer calm) Hk).
           exact (proj1 (Forall_lookup _ _) IT i th Hi).
        -- apply Forall_insert; eauto.
    + intros H; inversion H; subst; clear H. simpl. repeat split; auto.
      apply Forall_app. split; auto.
    + intros H; inversion H; subst; clear H. simpl. repeat split; auto.
      apply Forall_app. split; auto.
  - apply NewListener_state in H0. subst. simpl. repeat split; auto.
Qed.

(** ** Who sends on [conns], and how often *)

Lemma at_most_step {A} f b (t : Thread A) X (op : Op X) k (a : Answer) :
  prog t = Vis op k ->
  (exists n, at_most f (prog t) n /\ count_in f t + n <= b) ->
  exists n,
    at_most f (k (a X op)) n
    /\ count_in f {| prog := k (a X op);
                     hist := hist t ++ [event_of op (a X op)] |} + n <= b.
Proof.
  intros Hp (n & Hn & Hc). rewrite Hp in Hn. simpl in Hn.
  specialize (Hn (a X op)). rewrite count_in_snoc.
  destruct (f (event_of op (a X op))).
  - destruct n as [|n]; [contradiction|]. exists n. split; [exact Hn | lia].
  - exists n. split; [exact Hn | lia].
Qed.

Lemma doHandshake_offers_once c : at_most is_offer (doHandshake c) 1.
Proof. unfold doHandshake, doHandshake_body. walk. Qed.

Lemma Accept_receives_once : at_most is_reception Accept 1.
Proof. unfold Accept. walk. Qed.

Lemma emissions_offered tr : count_if is_emission tr <= count_if is_offer tr.
Proof.
  unfold count_if. induction tr as [|e tr IH]; simpl; [lia|].
  destruct e; simpl; try exact IH. destruct sent; simpl; lia.
Qed.

Lemma offered_length tr : length (offered tr) = count_if is_offer tr.
Proof.
  unfold offered, count_if. induction tr as [|e tr IH]; simpl; [reflexivity|].
  destruct e; simpl; auto.
Qed.

Lemma received_length tr : length (received tr) = count_if is_reception tr.
Proof.
  unfold received, count_if. induction tr as [|e tr IH]; simpl; [reflexivity|].
  destruct e as [| | | | [m|] | | | | | | | | | | | |]; simpl; auto.
Qed.

(** A handshake goroutine puts one outcome at most up for delivery, and
    a call of [Accept] receives one at most. *)
Lemma offer_budget s :
  reachable s ->
  Forall (fun t => exists n, at_most is_offer (prog t) n
                             /\ count_in is_offer t + n <= 1) (handshakes s) /\
  Forall (fun t => exists n, at_most is_reception (prog t) n
                             /\ count_in is_reception t + n <= 1) (accepts s).
Proof.
  intros Hr.
  pose (PT := fun t : Thread unit =>
                exists n, at_most is_offer (prog t) n
                          /\ count_in is_offer t + n <= 1).
  pose (PA := fun t : Thread (NetConn * option error) =>
                exists n, at_most is_reception (prog t) n
                          /\ count_in is_reception t + n <= 1).
  destruct (threads_invariant (fun _ => True) PT PA (fun _ => True))
    with (s := s) as (_ & HT & HA & _); auto.
  - intros c. exists 1. split; [apply doHandshake_offers_once | reflexivity].
  - exists 1. split; [apply Accept_receives_once | reflexivity].
  - intros t X op k a Hp H. now apply at_most_step.
  - intros t X op k a Hp H. now apply at_most_step.
Qed.

Lemma listen_iter_reject_pending : reject_pending listen_iter [].
Proof.
  unfold listen_iter, rejectConn. simpl. intros [|]; simpl; [|reflexivity].
  intros [c|e]; simpl.
  - split; [reflexivity|]. intros []. reflexivity.
  - split; [reflexivity|]. intros sent. exists e.
    repeat split; try (intros []; reflexivity).
Qed.

(** [listen] puts up for delivery the errors of the raw accept, each
    once, in order, and nothing else. *)
Lemma listen_rejects_each_error s :
  reachable s ->
  exists pend,
    reject_pending (prog (listenG s)) pend
    /\ map rejected (accept_errors (hist (listenG s)))
       = offered (hist (listenG s)) ++ map rejected pend.
Proof.
  intros Hr.
  pose (PL := fun t : Thread LoopCtl =>
                exists pend,
                  reject_pending (prog t) pend
                  /\ map rejected (accept_errors (hist t))
                     = offered (hist t) ++ map rejected pend).
  destruct (threads_invariant PL (fun _ => True) (fun _ => True)
              (fun _ => True)) with (s := s) as (HL & _); auto.
  - exists []. split; [apply listen_iter_reject_pending | reflexivity].
  - intros t (pend & Hg & Ha). unfold PL. rewrite next_iter_hist.
    unfold next_iter. destruct (prog t) as [[]|] eqn:E; rewrite ?E; eauto.
    simpl in Hg. subst pend. exists []. split; auto.
    apply listen_iter_reject_pending.
  - intros t X op k a Hp (pend & Hg & Ha). rewrite Hp in Hg. simpl in Hg.
    specialize (Hg (a X op)). unfold PL. simpl.
    unfold accept_errors, offered in *. rewrite !omap_app, map_app, Ha. simpl.
    destruct (event_of op (a X op)) as
      [| | | m sent | | | | [c|e] | | | | | | | | |]; simpl;
      try (exists pend; split; [exact Hg | now rewrite !app_nil_r]).
    + destruct Hg as (e & -> & -> & Hg). exists [].
      split; [exact Hg | now rewrite ?app_nil_r].
    + destruct Hg as [-> Hg]. exists [].
      split; [exact Hg | now rewrite ?app_nil_r].
    + destruct Hg as [-> Hg]. exists [e].
      split; [exact Hg | now rewrite ?app_nil_r].
Qed.

Lemma reject_pending_length {A} (p : Prog A) pend :
  reject_pending p pend -> length pend <= 1.
Proof.
  revert pend. induction p as [r|X op k IH]; simpl; intros pend H.
  - subst. simpl. lia.
  - specialize (H (answer calm op)).
    destruct (event_of op (answer calm op)) as
      [| | | m sent | | | | [c|e] | | | | | | | | |]; eauto.
    + destruct H as (e & -> & _). simpl. lia.
    + destruct H as [-> _]. simpl. lia.
    + destruct H as [-> _]. simpl. lia.
Qed.

Lemma reject_pending_nil_offering {A} (p : Prog A) :
  reject_pending p [] -> offering p = None.
Proof.
  destruct p as [r|X op k]; simpl; auto.
  destruct op; auto. intros H. destruct (H true) as (e & He & _).
  discriminate.
Qed.

Lemma at_most_zero_offering {A} (p : Prog A) :
  at_most is_offer p 0 -> offering p = None.
Proof.
  destruct p as [r|X op k]; simpl; auto.
  destruct op; auto. intros H. destruct (H true).
Qed.

(** After a rendezvous the sender is past its send: it offers nothing. *)
Lemma handoff_consumes s p j s' :
  reachable s -> step s (Handoff p j) = Some s' -> offer_of s' p = None.
Proof.
  intros Hr. unfold step. destruct (panicked s); [discriminate|].
  unfold handoff. destruct (accepts s !! j) as [ta|]; [|discriminate].
  destruct p as [|i| |]; try discriminate.
  - destruct (sender (listenG s)) as [[m tl]|] eqn:Hs; [|discriminate].
    destruct (receiver ta m) as [ta'|]; [|discriminate].
    intros H; inversion H; subst; clear H. simpl.
    apply sender_inv in Hs as (k & Hk & ->).
    destruct (listen_rejects_each_error Hr) as (pend & Hg & _).
    rewrite Hk in Hg. simpl in Hg. destruct (Hg true) as (e & _ & _ & Hg').
    unfold next_iter. simpl.
    destruct (k true) as [[]|] eqn:E; simpl; try reflexivity.
    pose proof (reject_pending_nil_offering _ Hg') as Ho. simpl in Ho.
    now rewrite Ho.
  - destruct (handshakes s !! i) as [th|] eqn:Hi; [|discriminate].
    destruct (sender th) as [[m th']|] eqn:Hs; [|discriminate].
    destruct (receiver ta m) as [ta'|]; [|discriminate].
    intros H; inversion H; subst; clear H. simpl.
    apply sender_inv in Hs as (k & Hk & ->).
    rewrite list_lookup_insert_eq by (eapply lookup_lt_Some; eauto). simpl.
    destruct (offer_budget Hr) as [HT _].
    destruct (proj1 (Forall_lookup _ _) HT i th Hi) as (n & Hn & Hc).
    rewrite Hk in Hn. simpl in Hn. specialize (Hn true). simpl in Hn.
    destruct n as [|[|n]]; [contradiction| |simpl in Hc; lia].
    now rewrite (at_most_zero_offering _ Hn).
Qed.

(** Senders never receive, receivers never send, and a call of [Close]
    does neither. *)
Lemma handover_roles s :
  reachable s ->
  count_in is_reception (listenG s) = 0 /\
  Forall (fun t => count_in is_reception t = 0) (handshakes s) /\
  Forall (fun t => count_in is_emission t = 0) (accepts s) /\
  Forall (fun t => count_in is_reception t = 0 /\ count_in is_emission t = 0)
    (closes s).
Proof.
  intros Hr.
  pose (NR := fun e : Event => negb (is_reception e)).
  pose (NS := fun e : Event => negb (is_emission e)).
  pose (P1 := fun A (t : Thread A) =>
                always NR (prog t) /\ count_in is_reception t = 0).
  pose (P2 := fun A (t : Thread A) =>
                always NS (prog t) /\ count_in is_emission t = 0).
  assert (H1 : forall A (t : Thread A) X (op : Op X) k (a : Answer),
            prog t = Vis op k -> P1 A t ->
            P1 A {| prog := k (a X op);
                    hist := hist t ++ [event_of op (a X op)] |}).
  { intros A t X op k a Hp [Ha Hc]. rewrite Hp in Ha. simpl in Ha.
    destruct (Ha (a X op)) as [He Hk]. split; auto.
    rewrite count_in_snoc, Hc. unfold NR in He.
    destruct (is_reception (event_of op (a X op))); [discriminate|reflexivity]. }
  assert (H2 : forall A (t : Thread A) X (op : Op X) k (a : Answer),
            prog t = Vis op k -> P2 A t ->
            P2 A {| prog := k (a X op);
                    hist := hist t ++ [event_of op (a X op)] |}).
  { intros A t X op k a Hp [Ha Hc]. rewrite Hp in Ha. simpl in Ha.
    destruct (Ha (a X op)) as [He Hk]. split; auto.
    rewrite count_in_snoc, Hc. unfold NS in He.
    destruct (is_emission (event_of op (a X op))); [discriminate|reflexivity]. }
  destruct (threads_invariant (P1 _) (P1 _) (P2 _) (fun t => P1 _ t /\ P2 _ t))
    with (s := s) as (HL & HT & HA & HC); auto.
  - split; [unfold listen_iter; walk | reflexivity].
  - intros t [Ha Hc]. split.
    + unfold next_iter. destruct (prog t) as [[]|] eqn:E; rewrite ?E; auto.
      unfold listen_iter. walk.
    + now rewrite count_in_next_iter.
  - intros c. split; [unfold doHandshake, doHandshake_body; walk | reflexivity].
  - split; [unfold Accept; walk | reflexivity].
  - split; (split; [unfold Close; walk | reflexivity]).
  - intros t X op k a Hp [Ha Hb]. split; auto.
  - split; [exact (proj2 HL)|]. split; [|split].
    + eapply Forall_impl; [exact HT|]. now intros t [].
    + eapply Forall_impl; [exact HA|]. now intros t [].
    + eapply Forall_impl; [exact HC|]. intros t [[] []]. auto.
Qed.

(** C4.  A call of [Accept] waiting in its [select] cannot move while
    [quit] is open and no goroutine is sending on [conns].  Once [quit]
    is closed it can take the quit case, and then returns a nil
    connection and the error "lndc connection closed"; once a goroutine
    offers an outcome [m] it can receive it, and then returns [m]'s
    connection and [m]'s error.  Nothing else changes it: if a step
    changes it, then either it took the quit case, [quit] being closed,
    or it received the outcome [m] one goroutine was offering, with
    these results, no other call of [Accept] is changed, and the sender
    records that one emission.  An outcome goes to one caller only: in every state a
    listener can reach, a rendezvous leaves the sender past its send,
    offering nothing; as many outcomes were received as were handed
    over, all of them received by calls of [Accept] and handed over by
    [listen] or a handshake goroutine; a call of [Accept] has received
    one outcome at most; a handshake goroutine, which calls [acceptConn]
    or [rejectConn] once at most, has handed over one outcome at most;
    and [listen] has handed over no more outcomes than raw accepts
    failed. *)
Theorem accept_rendezvous :
  (forall s j t,
     panicked s = false -> accepts s !! j = Some t -> prog t = Accept ->
     (quit s = false -> someone_offers s = false ->
        (forall a, step s (Run (TAccept j) a) = None) /\
        (forall p, step s (Handoff p j) = None)) /\
     (quit s = true ->
        exists s',
          step s (Run (TAccept j) (answer closing)) = Some s'
          /\ accepts s' !! j =
               Some {| prog := Ret (NilIface, Some "lndc connection closed"%string);
                       hist := hist t ++ [EvRecvConns None] |}) /\
     (forall p m, offer_of s p = Some m ->
        exists s',
          step s (Handoff p j) = Some s'
          /\ accepts s' !! j =
               Some {| prog := Ret (IfaceConn (conn m), err m);
                       hist := hist t ++ [EvRecvConns (Some m)] |}) /\
     (forall act s', step s act = Some s' ->
        accepts s' !! j = Some t
        \/ (exists a, act = Run (TAccept j) a /\ quit s = true /\
              accepts s' !! j =
                Some {| prog := Ret (NilIface, Some "lndc connection closed"%string);
                        hist := hist t ++ [EvRecvConns None] |})
        \/ (exists p m, act = Handoff p j /\ offer_of s p = Some m /\
              accepts s' !! j =
                Some {| prog := Ret (IfaceConn (conn m), err m);
                        hist := hist t ++ [EvRecvConns (Some m)] |} /\
              (forall j', j' <> j -> accepts s' !! j' = accepts s !! j') /\
              emitted (hist_of s' p) = emitted (hist_of s p) ++ [m]))) /\
  (forall s, reachable s ->
     (forall p j s', step s (Handoff p j) = Some s' -> offer_of s' p = None) /\
     count_all is_emission s = count_all is_reception s /\
     sum_list_with (count_in is_reception) (accepts s)
     = count_in is_emission (listenG s)
       + sum_list_with (count_in is_emission) (handshakes s) /\
     Forall (fun t => count_in is_reception t <= 1) (accepts s) /\
     Forall (fun t => count_in is_emission t <= 1) (handshakes s) /\
     count_in is_emission (listenG s)
     <= length (accept_errors (hist (listenG s)))).
Proof.
  split.
  - intros s j t Hnp Hj Hp.
    assert (Hlt : j < length (accepts s)) by (eapply lookup_lt_Some; eauto).
    split; [|split; [|split]].
    + intros Hq Hno. now apply (accept_blocked _ _ Hnp Hj Hp).
    + intros Hq. unfold step, advance. rewrite Hnp, Hj, Hp. simpl.
      rewrite Hq. eexists. split; [reflexivity|]. simpl.
      now rewrite list_lookup_insert_eq.
    + intros p m Ho. unfold step. rewrite Hnp. unfold handoff. rewrite Hj.
      unfold receiver. rewrite Hp. simpl.
      destruct p as [|i| |]; simpl in Ho; try discriminate.
      * unfold sender.
        destruct (offering (prog (listenG s))) as [[m' p']|]; [|discriminate].
        simpl in Ho. inversion Ho; subst. eexists. split; [reflexivity|].
        simpl. now rewrite list_lookup_insert_eq.
      * destruct (handshakes s !! i) as [th|]; [|discriminate].
        unfold sender.
        destruct (offering (prog th)) as [[m' p']|]; [|discriminate].
        simpl in Ho. inversion Ho; subst. eexists. split; [reflexivity|].
        simpl. now rewrite list_lookup_insert_eq.
    + intros act s'. now apply accept_returns.
  - intros s Hr.
    destruct (handover_roles Hr) as (RL & RT & RA & RC).
    destruct (offer_budget Hr) as [HT HA].
    destruct (listen_rejects_each_error Hr) as (pend & _ & Hl).
    pose proof (delivered_once Hr) as Hall.
    split; [intros p j s'; now apply handoff_consumes|].
    split; [exact Hall|]. split; [|split; [|split]].
    + unfold count_all in Hall. rewrite RL in Hall.
      assert (E1 : sum_list_with (count_in is_reception) (handshakes s) = 0).
      { apply sum_list_with_zero. exact RT. }
      assert (E2 : sum_list_with (count_in is_emission) (accepts s) = 0).
      { apply sum_list_with_zero. exact RA. }
      assert (E3 : sum_list_with (count_in is_reception) (closes s) = 0).
      { apply sum_list_with_zero. eapply Forall_impl; [exact RC|]. now intros t []. }
      assert (E4 : sum_list_with (count_in is_emission) (closes s) = 0).
      { apply sum_list_with_zero. eapply Forall_impl; [exact RC|]. now intros t []. }
      lia.
    + eapply Forall_impl; [exact HA|]. intros t (n & _ & Hc). simpl in Hc. lia.
    + eapply Forall_impl; [exact HT|]. intros t (n & _ & Hc). simpl in Hc.
      pose proof (emissions_offered (hist t)) as Hle.
      unfold count_in in *. lia.
    + pose proof (emissions_offered (hist (listenG s))) as Hle.
      apply (f_equal (@length _)) in Hl.
      rewrite length_app, !length_map, offered_length in Hl.
      unfold count_in. lia.
Qed.

(** ** [quit] and [close(l.quit)] *)

Lemma perform_quit_panic s X (op : Op X) x s1 :
  perform s op x = Some s1 ->
  quit s1 = quit s || is_close_quit (event_of op x) /\
  panicked s1 = panicked s || (quit s && is_close_quit (event_of op x)).
Proof.
  destruct op; simpl; intros H.
  all: repeat match type of H with
       | (if ?b then _ else _) = _ => destruct b eqn:?
       | match ?b with _ => _ end = _ => destruct b eqn:?
       end; try discriminate.
  all: inversion H; subst; simpl; rewrite ?Heqb0, ?Heqb.
  all: repeat match goal with
       | |- context [quit ?s] => destruct (quit s)
       | |- context [panicked ?s] => destruct (panicked s)
       end; simpl; split; try reflexivity; try discriminate.
Qed.

Lemma count_if_one f e : count_if f [e] = if f e then 1 else 0.
Proof. unfold count_if. simpl. destruct (f e); reflexivity. Qed.

Lemma advance_quit_panic {A} (t t' : Thread A) a s s1 :
  advance t a s = Some (t', s1) ->
  let n := count_if is_close_quit (next_event t a) in
  n <= 1 /\
  quit s1 = quit s || negb (Nat.eqb n 0) /\
  panicked s1 = panicked s || (quit s && negb (Nat.eqb n 0)).
Proof.
  intros H. apply advance_inv in H as (X & op & k & Hp & -> & Hperf).
  apply perform_quit_panic in Hperf as [Hq Hpn].
  unfold next_event. rewrite Hp. cbv zeta. rewrite count_if_one, Hq, Hpn.
  destruct (is_close_quit _); simpl; repeat split; auto.
Qed.

(** What a step does to [quit] and to the process. *)
Lemma step_quit_panic s act s' :
  step s act = Some s' ->
  let n := count_if is_close_quit (step_events s act) in
  n <= 1 /\
  quit s' = quit s || negb (Nat.eqb n 0) /\
  panicked s' = quit s && negb (Nat.eqb n 0).
Proof.
  unfold step. destruct (panicked s) eqn:Hnp; [discriminate|].
  destruct act as [[|i|i|i] a|p j| |]; simpl.
  - destruct (advance (listenG s) a s) as [[t s1]|] eqn:E; [|discriminate].
    intros H; inversion H; subst; clear H. simpl.
    apply advance_quit_panic in E. now rewrite Hnp in E.
  - destruct (handshakes s !! i) as [t|] eqn:Hi; [|discriminate].
    destruct (advance t a s) as [[t' s1]|] eqn:E; [|discriminate].
    intros H; inversion H; subst; clear H. simpl.
    apply advance_quit_panic in E. now rewrite Hnp in E.
  - destruct (accepts s !! i) as [t|] eqn:Hi; [|discriminate].
    destruct (advance t a s) as [[t' s1]|] eqn:E; [|discriminate].
    intros H; inversion H; subst; clear H. simpl.
    apply advance_quit_panic in E. now rewrite Hnp in E.
  - destruct (closes s !! i) as [t|] eqn:Hi; [|discriminate].
    destruct (advance t a s) as [[t' s1]|] eqn:E; [|discriminate].
    intros H; inversion H; subst; clear H. simpl.
    apply advance_quit_panic in E. now rewrite Hnp in E.
  - intros H.
    assert (Hq : quit s' = quit s).
    { unfold handoff in H.
      destruct (accepts s !! j); [|discriminate].
      destruct p; try discriminate.
      - destruct (sender (listenG s)) as [[m tl]|]; [|discriminate].
        destruct (receiver _ m); [|discriminate]. now inversion H.
      - destruct (handshakes s !! i); [|discriminate].
        destruct (sender _) as [[m tl]|]; [|discriminate].
        destruct (receiver _ m); [|discriminate]. now inversion H. }
    assert (Hp : panicked s' = panicked s).
    { unfold handoff in H.
      destruct (accepts s !! j); [|discriminate].
      destruct p; try discriminate.
      - destruct (sender (listenG s)) as [[m tl]|]; [|discriminate].
        destruct (receiver _ m); [|discriminate]. now inversion H.
      - destruct (handshakes s !! i); [|discriminate].
        destruct (sender _) as [[m tl]|]; [|discriminate].
        destruct (receiver _ m); [|discriminate]. now inversion H. }
    rewrite Hq, Hp, Hnp.
    destruct (offer_of s p); cbn; rewrite ?orb_false_r, ?andb_false_r; auto.
  - intros H; inversion H; subst; clear H. cbn.
    rewrite ?orb_false_r, ?andb_false_r; auto.
  - intros H; inversion H; subst; clear H. cbn.
    rewrite ?orb_false_r, ?andb_false_r; auto.
Qed.

Lemma quit_counts_reachable s :
  reachable s ->
  quit s = negb (Nat.eqb (count_all is_close_quit s) 0) /\
  (panicked s = true -> 2 <= count_all is_close_quit s).
Proof.
  intros (s0 & acts & H0 & H).
  eapply (exec_invariant
            (fun s => quit s = negb (Nat.eqb (count_all is_close_quit s) 0) /\
                      (panicked s = true -> 2 <= count_all is_close_quit s)));
    [| |exact H].
  - clear. intros s act s' [Hq Hp] Hstep.
    pose proof (@count_all_step is_close_quit _ _ _ Hstep) as Hc.
    destruct (step_quit_panic _ _ Hstep) as (Hn & Hq' & Hp').
    rewrite Hc, Hq', Hp', Hq.
    destruct (Nat.eqb_spec (count_all is_close_quit s) 0) as [E|E];
      destruct (Nat.eqb_spec (count_if is_close_quit (step_events s act)) 0)
        as [E'|E']; simpl; split; try discriminate; try lia.
    + destruct (Nat.eqb_spec (count_all is_close_quit s
                              + count_if is_close_quit (step_events s act)) 0);
        [reflexivity|lia].
    + destruct (Nat.eqb_spec (count_all is_close_quit s
                              + count_if is_close_quit (step_events s act)) 0);
        [lia|reflexivity].
    + destruct (Nat.eqb_spec (count_all is_close_quit s
                              + count_if is_close_quit (step_events s act)) 0);
        [lia|reflexivity].
    + destruct (Nat.eqb_spec (count_all is_close_quit s
                              + count_if is_close_quit (step_events s act)) 0);
        [lia|reflexivity].
  - apply NewListener_state in H0. subst. split; [reflexivity|discriminate].
Qed.

Lemma doHandshake_never_closes_quit c : always never_closes_quit (doHandshake c).
Proof. unfold doHandshake, doHandshake_body. walk. Qed.

Lemma listen_iter_never_closes_quit : always never_closes_quit listen_iter.
Proof. unfold listen_iter. walk. Qed.

Lemma Accept_never_closes_quit : always never_closes_quit Accept.
Proof. unfold Accept. walk. Qed.

Lemma Close_closes_quit_once : closes_quit_within Close 1.
Proof. unfold Close. walk. Qed.

(** Only calls of [Close] execute [close(l.quit)], each once at most. *)
Lemma close_quit_origin s :
  reachable s ->
  count_in is_close_quit (listenG s) = 0 /\
  Forall (fun t => count_in is_close_quit t = 0) (handshakes s) /\
  Forall (fun t => count_in is_close_quit t = 0) (accepts s) /\
  Forall (fun t => count_in is_close_quit t <= 1) (closes s).
Proof.
  intros Hr.
  pose (P := fun A (t : Thread A) =>
               always never_closes_quit (prog t)
               /\ count_in is_close_quit t = 0).
  pose (PC := fun t : Thread (option error) =>
                exists n, closes_quit_within (prog t) n
                          /\ count_in is_close_quit t + n <= 1).
  assert (Hstep : forall A (t : Thread A) X (op : Op X) k (a : Answer),
            prog t = Vis op k -> P A t ->
            P A {| prog := k (a X op);
                   hist := hist t ++ [event_of op (a X op)] |}).
  { intros A t X op k a Hp [Ha Hc]. rewrite Hp in Ha. simpl in Ha.
    destruct (Ha (a X op)) as [He Hk]. split; auto.
    rewrite count_in_snoc, Hc. unfold never_closes_quit in He.
    apply negb_true_iff in He. now rewrite He. }
  destruct (threads_invariant (P _) (P _) (P _) PC) with (s := s)
    as (HL & HT & HA & HC); auto.
  - split; [apply listen_iter_never_closes_quit | reflexivity].
  - intros t [Ha Hc]. split.
    + unfold next_iter. destruct (prog t) as [[]|] eqn:E; rewrite ?E; auto.
      apply listen_iter_never_closes_quit.
    + now rewrite count_in_next_iter.
  - intros c. split; [apply doHandshake_never_closes_quit | reflexivity].
  - split; [apply Accept_never_closes_quit | reflexivity].
  - exists 1. split; [apply Close_closes_quit_once | reflexivity].
  - intros t X op k a Hp (n & Hw & Hc). rewrite Hp in Hw. simpl in Hw.
    specialize (Hw (a X op)). unfold PC. rewrite count_in_snoc.
    destruct (is_close_quit (event_of op (a X op))).
    + destruct n as [|n']; [contradiction|]. exists n'. split; auto. lia.
    + exists n. split; auto. lia.
  - repeat split.
    + apply HL.
    + eapply Forall_impl; [exact HT|]. now intros t [].
    + eapply Forall_impl; [exact HA|]. now intros t [].
    + eapply Forall_impl; [exact HC|]. intros t (n & _ & Hn). lia.
Qed.

Lemma two_of_sum {A} (f : A -> nat) (l : list A) :
  Forall (fun t => f t <= 1) l -> 2 <= sum_list_with f l ->
  exists i j x y, i <> j /\ l !! i = Some x /\ l !! j = Some y
                  /\ f x = 1 /\ f y = 1.
Proof.
  assert (Hone : forall l : list A,
            Forall (fun t => f t <= 1) l -> 1 <= sum_list_with f l ->
            exists j y, l !! j = Some y /\ f y = 1).
  { clear l. induction 1 as [|x l Hx Hl IH]; simpl; intros Hs; [lia|].
    destruct (Nat.eq_dec (f x) 1) as [E|E].
    - exists 0, x. auto.
    - destruct IH as (j & y & Hj & Hy); [lia|]. exists (S j), y. auto. }
  induction 1 as [|x l Hx Hl IH]; simpl; intros Hs; [lia|].
  destruct (Nat.eq_dec (f x) 1) as [E|E].
  - destruct (Hone l Hl) as (j & y & Hj & Hy); [lia|].
    exists 0, (S j), x, y. repeat split; auto.
  - destruct IH as (i & j & x' & y & Hne & Hi & Hj & Hx' & Hy); [lia|].
    exists (S i), (S j), x', y. repeat split; auto.
Qed.

(** X2.  [quit] is closed by [Close] and by nothing else, and it stays
    closed.  Along any steps from any state, a closed [quit] is still
    closed.  In every state a listener can reach, [quit] is closed
    exactly when [close(l.quit)] has been executed; every execution of it
    is in a call of [Close], none in [listen], [doHandshake] or
    [Accept]; and a call of [Close] executes it once at most. *)
Theorem quit_one_way :
  (forall s acts s', exec s acts = Some s' -> quit s = true -> quit s' = true) /\
  (forall s, reachable s ->
     (quit s = true <-> 1 <= count_all is_close_quit s) /\
     count_all is_close_quit s
       = sum_list_with (count_in is_close_quit) (closes s) /\
     Forall (fun t => count_in is_close_quit t <= 1) (closes s)).
Proof.
  split.
  - intros s acts. revert s. induction acts as [|act acts IH]; simpl; intros s s' H Hq.
    + now inversion H; subst.
    + destruct (step s act) as [s1|] eqn:E; [|discriminate].
      apply (IH s1); auto.
      destruct (step_quit_panic _ _ E) as (_ & Hq' & _). rewrite Hq', Hq. reflexivity.
  - intros s Hr.
    destruct (quit_counts_reachable Hr) as [Hq _].
    destruct (close_quit_origin Hr) as (HL & HT & HA & HC).
    repeat split; auto.
    + intros H. rewrite H in Hq. symmetry in Hq. apply negb_true_iff in Hq.
      apply Nat.eqb_neq in Hq. lia.
    + intros H. rewrite Hq. apply negb_true_iff. apply Nat.eqb_neq. lia.
    + unfold count_all. rewrite HL.
      rewrite (sum_list_with_zero _ HT), (sum_list_with_zero _ HA). lia.
Qed.

Lemma lookup_snoc2_l {A} (l : list A) x y : (l ++ [x; y]) !! length l = Some x.
Proof. now apply list_lookup_middle. Qed.

Lemma lookup_snoc2_r {A} (l : list A) x y : (l ++ [x; y]) !! S (length l) = Some y.
Proof.
  change (l ++ [x; y]) with (l ++ [x] ++ [y]). rewrite app_assoc.
  apply list_lookup_middle. rewrite length_app. simpl. lia.
Qed.

Lemma insert_snoc2_l {A} (l : list A) x y z :
  <[length l := z]> (l ++ [x; y]) = l ++ [z; y].
Proof. rewrite insert_app_r_alt by lia. now rewrite Nat.sub_diag. Qed.

Lemma insert_snoc2_r {A} (l : list A) x y z :
  <[S (length l) := z]> (l ++ [x; y]) = l ++ [x; z].
Proof.
  rewrite insert_app_r_alt by lia.
  replace (S (length l) - length l) with 1 by lia. reflexivity.
Qed.

(** Two calls of [Close] that both find [quit] open before either
    closes it: the second [close(l.quit)] panics. *)
Lemma close_race s (a b : Answer) :
  panicked s = false -> quit s = false ->
  a _ PollQuit = false -> b _ PollQuit = false ->
  let i := length (closes s) in
  exec s [CallClose; CallClose;
          Run (TClose i) a; Run (TClose (S i)) b;
          Run (TClose i) a; Run (TClose (S i)) b]
  = Some (set_closes
            (closes s ++
               [{| prog := call TcpClose;
                   hist := [EvPollQuit false; EvCloseQuit] |};
                {| prog := call TcpClose;
                   hist := [EvPollQuit false; EvCloseQuit] |}])
            (set_panicked true (set_quit true s))).
Proof.
  intros Hnp Hq Ha Hb. simpl.
  unfold step at 1. rewrite Hnp.
  unfold step at 1. simpl. rewrite Hnp. rewrite <- app_assoc. simpl.
  unfold step at 1. simpl. rewrite Hnp, lookup_snoc2_l.
  unfold advance. simpl. rewrite Ha, Hq. simpl. rewrite insert_snoc2_l.
  unfold step at 1. simpl. rewrite Hnp, lookup_snoc2_r.
  unfold advance. simpl. rewrite Hb, Hq. simpl. rewrite insert_snoc2_r.
  unfold step at 1. simpl. rewrite Hnp, lookup_snoc2_l.
  unfold advance. simpl. rewrite Hq. simpl. rewrite insert_snoc2_l.
  unfold step at 1. simpl. rewrite Hnp, lookup_snoc2_r.
  unfold advance. simpl. rewrite insert_snoc2_r. reflexivity.
Qed.

(** X3.  [Close] is not safe to call from two goroutines at once: the
    check of [quit] and [close(l.quit)] are two steps.  From any state
    where [quit] is open, two calls that both take the [default] case
    before either closes [quit] end in a panic (close of a closed
    channel).  In a state a listener can reach, a panic has this one
    cause: two different calls of [Close] each executed
    [close(l.quit)].  After a panic nothing runs. *)
Theorem concurrent_close_panics :
  (forall s (a b : Answer),
     panicked s = false -> quit s = false ->
     a _ PollQuit = false -> b _ PollQuit = false ->
     let i := length (closes s) in
     exists s',
       exec s [CallClose; CallClose;
               Run (TClose i) a; Run (TClose (S i)) b;
               Run (TClose i) a; Run (TClose (S i)) b] = Some s'
       /\ panicked s' = true) /\
  (forall s, reachable s -> panicked s = true ->
     exists i j ti tj,
       i <> j /\ closes s !! i = Some ti /\ closes s !! j = Some tj
       /\ count_in is_close_quit ti = 1 /\ count_in is_close_quit tj = 1) /\
  (forall s act, panicked s = true -> step s act = None).
Proof.
  split; [|split].
  - intros s a b Hnp Hq Ha Hb i. eexists. split.
    + apply close_race; assumption.
    + reflexivity.
  - intros s Hr Hp.
    destruct (quit_counts_reachable Hr) as [_ H2]. specialize (H2 Hp).
    destruct (close_quit_origin Hr) as (HL & HT & HA & HC).
    apply two_of_sum; auto.
    unfold count_all in H2. rewrite HL in H2.
    rewrite (sum_list_with_zero _ HT), (sum_list_with_zero _ HA) in H2. lia.
  - intros s act Hp. unfold step. now rewrite Hp.
Qed.

(** ** Outcomes between senders and [Accept] *)

Lemma eqb_maybeConn_eq a b : eqb_maybeConn a b = true <-> a = b.
Proof.
  destruct a as [[[c1 n1]|] [e1|]], b as [[[c2 n2]|] [e2|]];
    unfold eqb_maybeConn, eqb_Conn; simpl;
    rewrite ?andb_true_iff, ?Nat.eqb_eq, ?String.eqb_eq;
    split; intros H; try discriminate; try (inversion H; subst; auto; fail).
  all: try (destruct H as [[-> ->] ->]; reflexivity).
  all: try (destruct H as [[-> ->] _]; reflexivity).
  all: try (destruct H as [_ ->]; reflexivity).
  all: try (destruct H as [H _]; discriminate).
  all: try (destruct H as [_ H]; discriminate).
  all: auto.
Qed.

Lemma count_if_zero_of f g tr :
  (forall e, f e = true -> g e = true) ->
  count_if g tr = 0 -> count_if f tr = 0.
Proof.
  intros Hfg. unfold count_if. induction tr as [|e tr IH]; simpl; auto.
  destruct (f e) eqn:Ef.
  - rewrite (Hfg e Ef). discriminate.
  - destruct (g e); simpl; auto. discriminate.
Qed.

Lemma step_events_paired_at m s act s' :
  step s act = Some s' ->
  count_if (emits m) (step_events s act)
  = count_if (receives m) (step_events s act).
Proof.
  assert (He : forall e, emits m e = true -> is_emission e = true).
  { intros [] H; try discriminate. destruct sent; [reflexivity|discriminate]. }
  assert (Hr : forall e, receives m e = true -> is_reception e = true).
  { intros [] H; try discriminate. destruct r; [reflexivity|discriminate]. }
  assert (Hadv : forall A (t t' : Thread A) a s1,
            advance t a s = Some (t', s1) ->
            count_if (emits m) (next_event t a)
            = count_if (receives m) (next_event t a)).
  { intros A t t' a s1 E.
    destruct (@advance_no_handoff _ _ _ _ _ _ E) as [E1 E2].
    rewrite (count_if_zero_of _ _ _ He E1), (count_if_zero_of _ _ _ Hr E2).
    reflexivity. }
  unfold step. destruct (panicked s); [discriminate|].
  destruct act as [[|i|i|i] a|p j| |]; simpl; auto.
  - destruct (advance (listenG s) a s) as [[t s1]|] eqn:E; [|discriminate].
    intros _. eapply Hadv; eauto.
  - destruct (handshakes s !! i) as [t|] eqn:Hi; [|discriminate]. simpl.
    destruct (advance t a s) as [[t' s1]|] eqn:E; [|discriminate].
    intros _. eapply Hadv; eauto.
  - destruct (accepts s !! i) as [t|] eqn:Hi; [|discriminate]. simpl.
    destruct (advance t a s) as [[t' s1]|] eqn:E; [|discriminate].
    intros _. eapply Hadv; eauto.
  - destruct (closes s !! i) as [t|] eqn:Hi; [|discriminate]. simpl.
    destruct (advance t a s) as [[t' s1]|] eqn:E; [|discriminate].
    intros _. eapply Hadv; eauto.
  - intros _. destruct (offer_of s p) as [m0|]; [|reflexivity].
    rewrite !count_if_two. simpl. destruct (eqb_maybeConn m0 m); reflexivity.
Qed.

(** Each outcome was received as often as it was handed over, by calls
    of [Accept] as often as [listen] and the handshake goroutines handed
    it over. *)
Lemma outcomes_paired :
  (forall a b, eqb_maybeConn a b = true <-> a = b) /\
  (forall s m, reachable s ->
     count_all (emits m) s = count_all (receives m) s) /\
  (forall s m, reachable s ->
     sum_list_with (count_in (receives m)) (accepts s)
     = count_in (emits m) (listenG s)
       + sum_list_with (count_in (emits m)) (handshakes s)).
Proof.
  assert (Hall : forall s m, reachable s ->
            count_all (emits m) s = count_all (receives m) s).
  { intros s m (s0 & acts & H0 & H).
    eapply (exec_invariant
              (fun s => count_all (emits m) s = count_all (receives m) s));
      [| |exact H].
    - clear. intros s act s' Hs Hstep.
      rewrite (@count_all_step (emits m) _ _ _ Hstep).
      rewrite (@count_all_step (receives m) _ _ _ Hstep).
      rewrite (@step_events_paired_at m _ _ _ Hstep). lia.
    - apply NewListener_state in H0. subst. reflexivity. }
  split; [apply eqb_maybeConn_eq|]. split; [exact Hall|].
  intros s m Hr. specialize (Hall s m Hr).
  (* senders never receive, receivers and closers never send *)
  pose (NR := fun e : Event => match e with EvRecvConns _ => false | _ => true end).
  pose (NS := fun e : Event => match e with EvSendConns _ _ => false | _ => true end).
  pose (P1 := fun A (t : Thread A) =>
                always NR (prog t) /\ count_in (receives m) t = 0).
  pose (P2 := fun A (t : Thread A) =>
                always NS (prog t) /\ count_in (emits m) t = 0).
  assert (H1 : forall A (t : Thread A) X (op : Op X) k (a : Answer),
            prog t = Vis op k -> P1 A t ->
            P1 A {| prog := k (a X op);
                    hist := hist t ++ [event_of op (a X op)] |}).
  { intros A t X op k a Hp [Ha Hc]. rewrite Hp in Ha. simpl in Ha.
    destruct (Ha (a X op)) as [He Hk]. split; auto.
    rewrite count_in_snoc, Hc.
    destruct (event_of op (a X op)); simpl in *; try reflexivity; discriminate. }
  assert (H2 : forall A (t : Thread A) X (op : Op X) k (a : Answer),
            prog t = Vis op k -> P2 A t ->
            P2 A {| prog := k (a X op);
                    hist := hist t ++ [event_of op (a X op)] |}).
  { intros A t X op k a Hp [Ha Hc]. rewrite Hp in Ha. simpl in Ha.
    destruct (Ha (a X op)) as [He Hk]. split; auto.
    rewrite count_in_snoc, Hc.
    destruct (event_of op (a X op)); simpl in *; try reflexivity; discriminate. }
  destruct (threads_invariant (P1 _) (P1 _) (P2 _) (fun t => P1 _ t /\ P2 _ t))
    with (s := s) as (HL & HT & HA & HC); auto.
  - split; [unfold listen_iter; walk | reflexivity].
  - intros t [Ha Hc]. split.
    + unfold next_iter. destruct (prog t) as [[]|] eqn:E; rewrite ?E; auto.
      unfold listen_iter. walk.
    + now rewrite count_in_next_iter.
  - intros c. split; [unfold doHandshake, doHandshake_body; walk | reflexivity].
  - split; [unfold Accept; walk | reflexivity].
  - split; (split; [unfold Close; walk | reflexivity]).
  - intros t X op k a Hp [Ha Hb]. split; auto.
  - unfold count_all in Hall.
    destruct HL as [_ HL].
    assert (E1 : sum_list_with (count_in (receives m)) (handshakes s) = 0).
    { apply sum_list_with_zero. eapply Forall_impl; [exact HT|]. now intros t []. }
    assert (E2 : sum_list_with (count_in (emits m)) (accepts s) = 0).
    { apply sum_list_with_zero. eapply Forall_impl; [exact HA|]. now intros t []. }
    assert (E3 : sum_list_with (count_in (receives m)) (closes s) = 0).
    { apply sum_list_with_zero. eapply Forall_impl; [exact HC|]. now intros t [[] _]. }
    assert (E4 : sum_list_with (count_in (emits m)) (closes s) = 0).
    { apply sum_list_with_zero. eapply Forall_impl; [exact HC|]. now intros t [_ []]. }
    lia.
Qed.

(** X4.  No outcome is lost, made up or duplicated between the senders
    and [Accept].  In every state a listener can reach, each outcome [m]
    (a connection or an error) has been received as many times as it
    has been handed over, and received by calls of [Accept] as many
    times as [listen] and the handshake goroutines have handed it over.
    What can be handed over is fixed by the code: [listen] has put up
    for delivery the errors of its failed raw accepts, each once and in
    order, and nothing else, the error of the last failure being at most
    still to put up; a handshake goroutine has put up one outcome at
    most; and a call of [Accept] has received one at most.
    [eqb_maybeConn] decides equality of outcomes. *)
Theorem outcomes_conserved :
  (forall a b, eqb_maybeConn a b = true <-> a = b) /\
  (forall s m, reachable s ->
     count_all (emits m) s = count_all (receives m) s) /\
  (forall s m, reachable s ->
     sum_list_with (count_in (receives m)) (accepts s)
     = count_in (emits m) (listenG s)
       + sum_list_with (count_in (emits m)) (handshakes s)) /\
  (forall s, reachable s ->
     (exists pend,
        map rejected (accept_errors (hist (listenG s)))
        = offered (hist (listenG s)) ++ map rejected pend
        /\ length pend <= 1) /\
     Forall (fun t => length (offered (hist t)) <= 1) (handshakes s) /\
     Forall (fun t => length (received (hist t)) <= 1) (accepts s)).
Proof.
  destruct outcomes_paired as (H1 & H2 & H3).
  split; [exact H1|]. split; [exact H2|]. split; [exact H3|].
  intros s Hr.
  destruct (listen_rejects_each_error Hr) as (pend & Hg & Hl).
  destruct (offer_budget Hr) as [HT HA].
  split; [|split].
  - exists pend. split; [exact Hl|]. eapply reject_pending_length; eauto.
  - eapply Forall_impl; [exact HT|]. intros t (n & _ & Hc). simpl in Hc.
    rewrite offered_length. unfold count_in in Hc. lia.
  - eapply Forall_impl; [exact HA|]. intros t (n & _ & Hc). simpl in Hc.
    rewrite received_length. unfold count_in in Hc. lia.
Qed.


(** ** Tokens when the accept loop is between connections *)

Lemma owes_listen_iter h : owes listen_iter h -> h = 0.
Proof.
  unfold listen_iter. simpl. intros H. specialize (H true). simpl in H.
  destruct h; [reflexivity|contradiction].
Qed.

Lemma tokens_at_rest_aux s :
  reachable s ->
  (finished (listenG s) = true \/ prog (listenG s) = listen_iter) ->
  handshakeSema s + active s = defaultHandshakes /\
  (active s = 0 -> handshakeSema s = defaultHandshakes) /\
  (handshakeSema s = 0 -> active s = defaultHandshakes).
Proof.
  intros Hr Hl. apply tokens_inv_reachable in Hr.
  destruct (tokens_inv_counts Hr)
    as (Hact & Hle & Hcap & h & Hh & Hfl & Hbal & Hw).
  assert (h = 0).
  { destruct Hl as [Hf|Hp].
    - unfold finished in Hf. destruct (prog (listenG s)); [exact Hw|discriminate].
    - rewrite Hp in Hw. now apply owes_listen_iter. }
  lia.
Qed.

(** X5.  Whenever [listen] is at the top of its loop or has returned, it
    holds no token itself: the tokens in [handshakeSema] and the
    handshake goroutines that have not returned are [defaultHandshakes]
    together.  So with no handshake running the pool is full, and with
    the pool empty [defaultHandshakes] handshakes are running. *)
Theorem tokens_at_rest s :
  reachable s ->
  (finished (listenG s) = true \/ prog (listenG s) = listen_iter) ->
  handshakeSema s + active s = defaultHandshakes /\
  (active s = 0 -> handshakeSema s = defaultHandshakes) /\
  (handshakeSema s = 0 -> active s = defaultHandshakes).
Proof. apply tokens_at_rest_aux. Qed.

(** X6.  [listen] at the top of its loop, in a state a listener can
    reach and that has not panicked.  With [handshakeSema] empty and
    [quit] open, [defaultHandshakes] handshakes are running and [listen]
    cannot take a step: it accepts no connection until one of them
    returns.  With a token in [handshakeSema], fewer than
    [defaultHandshakes] handshakes are running and [listen] can take
    the token, which leaves one fewer in the channel.  [listen] never
    receives a token from an empty channel. *)
Theorem listen_waits_for_token s :
  reachable s -> panicked s = false -> prog (listenG s) = listen_iter ->
  (handshakeSema s = 0 -> quit s = false ->
     active s = defaultHandshakes /\
     forall a, step s (Run TListen a) = None) /\
  (0 < handshakeSema s ->
     active s < defaultHandshakes /\
     exists s', step s (Run TListen (answer calm)) = Some s'
                /\ handshakeSema s' + 1 = handshakeSema s) /\
  (forall a s', step s (Run TListen a) = Some s' ->
     a _ RecvSemaOrQuit = true -> 0 < handshakeSema s).
Proof.
  intros Hr Hnp Hp.
  destruct (@tokens_at_rest_aux s Hr (or_intror Hp)) as [Hsum _].
  split; [|split].
  - intros Hz Hq. split; [lia|].
    intros a. unfold step. rewrite Hnp. unfold advance. rewrite Hp.
    simpl. destruct (a _ RecvSemaOrQuit); rewrite ?Hz, ?Hq; reflexivity.
  - intros Hpos. split; [lia|].
    unfold step. rewrite Hnp. unfold advance. rewrite Hp. simpl.
    destruct (handshakeSema s) as [|n] eqn:E; [lia|].
    eexists. split; [reflexivity|]. simpl. lia.
  - intros a s' Hs Ha. unfold step in Hs. rewrite Hnp in Hs.
    unfold advance in Hs. rewrite Hp in Hs. simpl in Hs. rewrite Ha in Hs.
    destruct (handshakeSema s); [discriminate|lia].
Qed.

(** ** The accept loop while an error waits for [Accept] *)

(** While a send on [conns] is pending in [listen] and [quit] is open,
    [listen] takes no step of its own and only a rendezvous with a call
    of [Accept] changes it. *)
Lemma pending_send_stalls s :
  quit s = false -> offers (listenG s) = true ->
  (forall a, step s (Run TListen a) = None) /\
  (forall act s', step s act = Some s' ->
     listenG s' = listenG s \/ exists j, act = Handoff TListen j) /\
  (existsb (@waits _) (accepts s) = false ->
     forall j, step s (Handoff TListen j) = None).
Proof.
  intros Hq Ho.
  assert (Hrun : forall a, step s (Run TListen a) = None).
  { intros a. unfold step. destruct (panicked s); [reflexivity|].
    unfold advance. unfold offers, offering in Ho.
    destruct (prog (listenG s)) as [r|X op k]; [reflexivity|].
    destruct op; try discriminate. simpl.
    destruct (a _ _); [reflexivity|]. now rewrite Hq. }
  split; [exact Hrun|]. split.
  - intros act s' Hs.
    destruct act as [[|i|i|i] a|p j| |].
    + rewrite Hrun in Hs. discriminate.
    + left. unfold step in Hs. destruct (panicked s); [discriminate|].
      destruct (handshakes s !! i) as [t|]; [|discriminate].
      destruct (advance t a s) as [[t' s1]|] eqn:E; [|discriminate].
      inversion Hs; subst. simpl.
      now destruct (@advance_frame _ _ _ _ _ _ E) as (HL & _).
    + left. unfold step in Hs. destruct (panicked s); [discriminate|].
      destruct (accepts s !! i) as [t|]; [|discriminate].
      destruct (advance t a s) as [[t' s1]|] eqn:E; [|discriminate].
      inversion Hs; subst. simpl.
      now destruct (@advance_frame _ _ _ _ _ _ E) as (HL & _).
    + left. unfold step in Hs. destruct (panicked s); [discriminate|].
      destruct (closes s !! i) as [t|]; [|discriminate].
      destruct (advance t a s) as [[t' s1]|] eqn:E; [|discriminate].
      inversion Hs; subst. simpl.
      now destruct (@advance_frame _ _ _ _ _ _ E) as (HL & _).
    + unfold step in Hs. destruct (panicked s); [discriminate|].
      unfold handoff in Hs.
      destruct (accepts s !! j) as [ta|]; [|discriminate].
      destruct p as [|i| |]; try discriminate.
      * right. eauto.
      * left. destruct (handshakes s !! i) as [th|]; [|discriminate].
        destruct (sender th) as [[m th']|]; [|discriminate].
        destruct (receiver ta m); [|discriminate]. now inversion Hs.
    + left. unfold step in Hs. destruct (panicked s); [discriminate|].
      now inversion Hs.
    + left. unfold step in Hs. destruct (panicked s); [discriminate|].
      now inversion Hs.
  - intros Hw j. unfold step. destruct (panicked s); [reflexivity|].
    unfold handoff. destruct (accepts s !! j) as [ta|] eqn:Hj; [|reflexivity].
    pose proof (existsb_lookup _ _ _ Hw Hj) as Hta. unfold waits in Hta.
    destruct (sender (listenG s)) as [[m tl]|]; [|reflexivity].
    unfold receiver. destruct (awaiting (prog ta)); [discriminate|reflexivity].
Qed.

(** X7.  An error of the raw accept is sent on [conns] by [listen]
    itself ([rejectConn] is called in the loop, not in a goroutine).
    While [quit] is open and that send is pending, [listen] takes no step
    of its own, so it accepts no further connection; no step of any
    other goroutine changes it, except a call of [Accept] receiving the
    error; and with no call of [Accept] waiting the error cannot be
    handed over.  In a state a listener can reach, a send pending in
    [listen] is always this one: what it offers is the error of the last
    raw accept that failed, the errors of the failures before it having
    been put up already, each once and in order. *)
Theorem undelivered_error_stalls_listen s :
  quit s = false -> offers (listenG s) = true ->
  (forall a, step s (Run TListen a) = None) /\
  (forall act s', step s act = Some s' ->
     listenG s' = listenG s \/ exists j, act = Handoff TListen j) /\
  (existsb (@waits _) (accepts s) = false ->
     forall j, step s (Handoff TListen j) = None) /\
  (reachable s ->
     exists e,
       offer_of s TListen = Some (rejected e)
       /\ map rejected (accept_errors (hist (listenG s)))
          = offered (hist (listenG s)) ++ [rejected e]).
Proof.
  intros Hq Ho.
  destruct (pending_send_stalls s Hq Ho) as (H1 & H2 & H3).
  split; [exact H1|]. split; [exact H2|]. split; [exact H3|].
  intros Hr.
  destruct (listen_rejects_each_error Hr) as (pend & Hg & Hl).
  unfold offers in Ho. unfold offer_of.
  destruct (prog (listenG s)) as [r|X op k]; [discriminate|].
  destruct op; try discriminate.
  simpl in Hg. destruct (Hg true) as (e & -> & -> & _).
  exists e. split; [reflexivity | exact Hl].
Qed.


(** ** What [Accept] returns *)

Lemma accept_form_step t X (op : Op X) k (a : Answer) :
  prog t = Vis op k -> accept_form t ->
  accept_form {| prog := k (a X op); hist := hist t ++ [event_of op (a X op)] |}.
Proof.
  intros Hp [[Hf Hh]|[[Hf _]|(m & Hf & _)]];
    try (rewrite Hf in Hp; discriminate).
  assert (E : peek (prog t) a = Some (k (a X op), event_of op (a X op)))
    by (now rewrite Hp).
  rewrite Hf in E. unfold Accept in E. simpl in E.
  inversion E as [[E1 E2]]. rewrite Hh. simpl.
  destruct (a _ RecvConnsOrQuit) as [m|].
  - right. right. exists m. auto.
  - right. left. auto.
Qed.

Lemma accept_form_reachable s : reachable s -> Forall accept_form (accepts s).
Proof.
  intros Hr.
  destruct (threads_invariant (fun _ => True) (fun _ => True) accept_form
              (fun _ => True)) with (s := s) as (_ & _ & HA & _); auto.
  - left. auto.
  - intros. now apply accept_form_step.
Qed.

(** X9.  What [Accept] returns.  In every state a listener can reach, a
    call of [Accept] has done nothing yet, or has received once from
    [quit] or [conns] and returned.  It returns [nil] with the error
    "lndc connection closed" when [quit] was closed; a connection with
    a [nil] error when it received a secured connection; and, when it
    received an error, that error with a [net.Conn] that holds a nil
    [*Conn] (the interface value itself is not [nil]). *)
Theorem accept_returns_once s :
  reachable s ->
  Forall (fun t =>
            accept_form t /\
            forall c e, prog t = Ret (c, e) ->
              (c = NilIface /\ e = Some "lndc connection closed"%string
               /\ hist t = [EvRecvConns None])
              \/ (exists cn, c = IfaceConn (Some cn) /\ e = None
                    /\ hist t = [EvRecvConns (Some {| conn := Some cn; err := None |})])
              \/ (exists x, c = IfaceConn None /\ e = Some x
                    /\ hist t = [EvRecvConns (Some {| conn := None; err := Some x |})]))
    (accepts s).
Proof.
  intros Hr.
  pose proof (accept_form_reachable Hr) as HF.
  pose proof (oi_accepts (outcomes_inv_reachable Hr)) as HO.
  apply Forall_lookup. intros i t Hi.
  pose proof (proj1 (Forall_lookup _ _) HF i t Hi) as Hf.
  pose proof (proj1 (Forall_lookup _ _) HO i t Hi) as [_ Hok].
  split; [exact Hf|]. intros c e Hp.
  destruct Hf as [[Hf _]|[[Hf Hh]|(m & Hf & Hh)]].
  - rewrite Hf in Hp. discriminate.
  - rewrite Hf in Hp. inversion Hp; subst. left. auto.
  - rewrite Hf in Hp. inversion Hp; subst. right.
    rewrite Hh in Hok. simpl in Hok. rewrite andb_true_r in Hok.
    destruct m as [[cn|] [x|]]; simpl in *; try discriminate.
    + left. exists cn. auto.
    + right. exists x. auto.
Qed.

(** ** After [Close] *)

Lemma perform_closing s X (op : Op X) :
  quit s = true -> on_channel op = true ->
  (is_release (event_of op (answer closing op)) = true ->
   handshakeSema s < defaultHandshakes) ->
  exists s1, perform s op (answer closing op) = Some s1.
Proof.
  intros Hq Hc Hrel. destruct op; try discriminate Hc; simpl; rewrite ?Hq; eauto.
  simpl in Hrel. specialize (Hrel eq_refl). unfold send_sema.
  apply Nat.ltb_lt in Hrel. rewrite Hrel. eauto.
Qed.

Lemma advance_closing {A} (t : Thread A) s :
  quit s = true -> at_channel t = true ->
  (forall X (op : Op X) k, prog t = Vis op k ->
     is_release (event_of op (answer closing op)) = true ->
     handshakeSema s < defaultHandshakes) ->
  exists t' s1, advance t (answer closing) s = Some (t', s1).
Proof.
  intros Hq Hc Hrel. unfold advance, at_channel in *.
  destruct (prog t) as [r|X op k] eqn:Hp; [discriminate|].
  destruct (@perform_closing s X op Hq Hc (Hrel X op k eq_refl)) as [s1 H1].
  rewrite H1. eauto.
Qed.

(** X8.  Once [quit] is closed (and no panic occurred), no goroutine
    waits on a channel of the listener.  In every state a listener can
    reach, a goroutine whose next operation is a [select] or the send
    on [handshakeSema] can perform it: the [select] by its quit case,
    the send because the channel has room.  So [listen] at the top of
    its loop returns; every call of [Accept] that has not returned can
    return, with a nil connection and the error "lndc connection
    closed"; and a handshake goroutine in [acceptConn] or [rejectConn],
    or about to give its token back, goes on.  Nothing is said of a
    goroutine inside a call of the network or of the noise machine:
    closing [quit] does not end those. *)
Theorem no_channel_wait_after_close s :
  reachable s -> panicked s = false -> quit s = true ->
  (at_channel (listenG s) = true ->
     exists s', step s (Run TListen (answer closing)) = Some s') /\
  (prog (listenG s) = listen_iter ->
     exists s', step s (Run TListen (answer closing)) = Some s'
                /\ prog (listenG s') = Ret Return) /\
  (forall i t, handshakes s !! i = Some t -> at_channel t = true ->
     exists s', step s (Run (THandshake i) (answer closing)) = Some s') /\
  (forall i t, accepts s !! i = Some t -> finished t = false ->
     exists s',
       step s (Run (TAccept i) (answer closing)) = Some s'
       /\ accepts s' !! i
          = Some {| prog := Ret (NilIface, Some "lndc connection closed"%string);
                    hist := hist t ++ [EvRecvConns None] |}) /\
  (forall i t, closes s !! i = Some t -> at_channel t = true ->
     exists s', step s (Run (TClose i) (answer closing)) = Some s').
Proof.
  intros Hreach Hnp Hq. pose proof (tokens_inv_reachable Hreach) as Hr.
  destruct (tokens_inv_counts Hr)
    as (Hact & Hle & Hcap & h & Hh & Hfl & Hbal & Hw).
  assert (Hquiet : forall A (t : Thread A), quiet t ->
            forall X (op : Op X) k, prog t = Vis op k ->
            is_release (event_of op (answer closing op)) = true ->
            handshakeSema s < defaultHandshakes).
  { intros A t (Hal & _) X op k Hp Hrel. rewrite Hp in Hal. simpl in Hal.
    destruct (Hal (answer closing op)) as [Hfree _].
    unfold sema_free in Hfree. rewrite Hrel in Hfree.
    rewrite orb_true_r in Hfree. discriminate. }
  assert (Hfin : forall A (t : Thread A), at_channel t = true -> finished t = false).
  { intros A t. unfold at_channel, finished. destruct (prog t); auto. }
  split; [|split; [|split; [|split]]].
  - intros Hc.
    destruct (@advance_closing _ (listenG s) s Hq Hc) as (t' & s1 & E).
    + intros X op k Hp Hrel. rewrite Hp in Hw. simpl in Hw.
      specialize (Hw (answer closing op)). unfold after in Hw.
      destruct (event_of op (answer closing op)); try discriminate Hrel.
      simpl in Hw. destruct h as [|[|?]]; try contradiction. lia.
    + unfold step. rewrite Hnp, E. eauto.
  - intros Hp. unfold step, advance. rewrite Hnp, Hp. simpl. rewrite Hq.
    eexists. split; reflexivity.
  - intros i t Hi Hc.
    pose proof (unfinished_active _ _ Hi (Hfin _ t Hc)) as H1.
    fold (active s) in H1.
    destruct (@advance_closing _ t s Hq Hc) as (t' & s1 & E).
    + intros. lia.
    + unfold step. rewrite Hnp, Hi, E. eauto.
  - intros i t Hi Hf.
    pose proof (proj1 (Forall_lookup _ _) (accept_form_reachable Hreach) i t Hi)
      as [[Hp Hh']|[[Hp _]|(m & Hp & _)]];
      try (unfold finished in Hf; rewrite Hp in Hf; discriminate).
    unfold step, advance. rewrite Hnp, Hi, Hp. simpl. rewrite Hq.
    eexists. split; [reflexivity|]. simpl.
    rewrite list_lookup_insert_eq by (eapply lookup_lt_Some; eauto).
    reflexivity.
  - intros i t Hi Hc.
    pose proof (proj1 (Forall_lookup _ _) (ti_closes Hr) i t Hi) as Hqt.
    destruct (@advance_closing _ t s Hq Hc) as (t' & s1 & E).
    + apply (Hquiet _ t Hqt).
    + unfold step. rewrite Hnp, Hi, E. eauto.
Qed.

(** ** The handshake task, continued *)

(** X10.  Along every run of [doHandshake] the noise machine is made
    as a responder.  An outcome offered on [conns] that is a success is
    the connection the goroutine was started for, with the machine it
    made; and the run that offers it is the whole handshake with
    nothing failed: [quit] found open twice, the read deadline armed
    before each read, Act One read in full and accepted, Act Two
    generated and written, Act Three read in full and accepted, the
    deadline cleared, then the offer and the release of the token. *)
Theorem secured_connection_is_authenticated (o : Oracle) (c : RawConn) :
  let tr := trace o (doHandshake c) in
  (forall i m, In (EvNewNoiseMachine i m) tr -> i = false) /\
  (forall m, In m (offered tr) -> is_success m = true ->
     exists mach b1 b2 b3 e1 e2 e3 sent,
       m = {| conn := Some {| Conn_conn := c; Conn_noise := mach |}; err := None |}
       /\ tr = [EvPollQuit false; EvNewNoiseMachine false mach;
                EvSetReadDeadline c (NowAdd handshakeReadTimeout) e1;
                EvReadFull c ActOneSize (Ok b1);
                EvRecvActOne mach b1 None;
                EvGenActTwo mach (Ok b2);
                EvConnWrite c b2 None;
                EvPollQuit false;
                EvSetReadDeadline c (NowAdd handshakeReadTimeout) e2;
                EvReadFull c ActThreeSize (Ok b3);
                EvRecvActThree mach b3 None;
                EvSetReadDeadline c ZeroTime e3;
                EvSendConns m sent; EvSendSema]).
Proof.
  cbv zeta. split.
  - handshake_paths.
    all: intros i m Hin; simpl in Hin;
      repeat (destruct Hin as [Hin|Hin]; [try discriminate; now inversion Hin|]);
      contradiction.
  - handshake_paths.
    all: intros m Hin Hs; simpl in Hin;
      repeat (destruct Hin as [Hin|Hin]; [subst m; try discriminate Hs|]);
      try contradiction.
    do 8 eexists. split; reflexivity.
Qed.

(** X11.  Along every run of [doHandshake]: once the raw connection is
    closed, the run touches neither it nor the noise machine again; it
    is closed once at most; only the connection the goroutine was
    started for is closed; and a run that closed it did not hand out a
    secured connection. *)
Theorem no_use_after_close (o : Oracle) (c : RawConn) :
  let tr := trace o (doHandshake c) in
  untouched_after_close tr = true /\
  count_if is_close tr <= 1 /\
  (forall c' e, In (EvConnClose c' e) tr -> c' = c) /\
  (count_if is_close tr = 1 -> succeeded tr = false).
Proof.
  cbv zeta. repeat split.
  - handshake_paths; reflexivity.
  - handshake_paths; cbn; lia.
  - handshake_paths.
    all: intros c' e' Hin; simpl in Hin;
      repeat (destruct Hin as [Hin|Hin]; [try discriminate; now inversion Hin|]);
      contradiction.
  - handshake_paths; cbn; intros; try reflexivity; discriminate.
Qed.

(** ** [NewListener] *)

Lemma fill_sema_bound n len :
  fill_sema n len
  = if (n =? 0) || (len + n <=? defaultHandshakes)
    then Some (len + n) else None.
Proof.
  revert len. induction n as [|n IH]; intros len.
  - simpl. now rewrite Nat.add_0_r.
  - change (fill_sema (S n) len)
      with (match send_sema len with
            | Some len' => fill_sema n len'
            | None => None
            end).
    change (S n =? 0) with false. rewrite orb_false_l.
    unfold send_sema. destruct (Nat.ltb_spec len defaultHandshakes) as [H|H].
    + rewrite IH. replace (S len + n) with (len + S n) by lia.
      destruct (Nat.leb_spec (len + S n) defaultHandshakes) as [H'|H'];
        [now rewrite orb_true_r|].
      destruct n; [lia|reflexivity].
    + destruct (Nat.leb_spec (len + S n) defaultHandshakes); [lia|reflexivity].
Qed.

(** X1.  [NewListener].  Sending [n] tokens on [handshakeSema] holding
    [len] goes through when they fit in its capacity
    [defaultHandshakes], and blocks otherwise.  So the loop of
    [NewListener], which sends [defaultHandshakes] tokens on the empty
    channel, never blocks: a call of [NewListener] fails with the error
    of [ResolveTCPAddr] for ":port", or with the error of [ListenTCP]
    for the resolved address, or returns a listener on the socket
    [ListenTCP] returned, with a full pool, [quit] open, [listen]
    started and no handshake running. *)
Theorem NewListener_fills_pool :
  (forall n len,
     fill_sema n len
     = if (n =? 0) || (len + n <=? defaultHandshakes)
       then Some (len + n) else None) /\
  (forall (Addr Tcp : Type)
          (ResolveTCPAddr : string -> string -> result Addr)
          (ListenTCP : string -> Addr -> result Tcp) (port : Z),
     match NewListenerOn ResolveTCPAddr ListenTCP port with
     | Returns (l, s) =>
         exists addr,
           ResolveTCPAddr "tcp"%string (":" ++ Itoa port)%string = Ok addr
           /\ ListenTCP "tcp"%string addr = Ok l
           /\ handshakeSema s = defaultHandshakes /\ quit s = false
           /\ panicked s = false
           /\ listenG s = spawn listen_iter
           /\ handshakes s = [] /\ accepts s = [] /\ closes s = []
     | Fails e =>
         ResolveTCPAddr "tcp"%string (":" ++ Itoa port)%string = Err e
         \/ exists addr,
              ResolveTCPAddr "tcp"%string (":" ++ Itoa port)%string = Ok addr
              /\ ListenTCP "tcp"%string addr = Err e
     | Blocks => False
     end).
Proof.
  split; [apply fill_sema_bound|].
  intros Addr Tcp R L port. unfold NewListenerOn.
  destruct (R _ _) as [addr|e] eqn:ER; [|auto].
  destruct (L _ addr) as [l|e] eqn:EL; [|eauto].
  unfold NewListener. rewrite fill_sema_full. exists addr. repeat split; auto.
Qed.

(** ** One handshake goroutine for each accepted connection *)

Lemma listen_iter_go_pending : go_pending listen_iter [].
Proof. unfold listen_iter. walk. Qed.

Lemma listen_accepts_then_starts s :
  reachable s ->
  exists pend,
    go_pending (prog (listenG s)) pend
    /\ accepted (hist (listenG s)) = started (hist (listenG s)) ++ pend.
Proof.
  intros Hr.
  pose (PL := fun t : Thread LoopCtl =>
                exists pend, go_pending (prog t) pend
                             /\ accepted (hist t) = started (hist t) ++ pend).
  destruct (threads_invariant PL (fun _ => True) (fun _ => True)
              (fun _ => True)) with (s := s) as (HL & _); auto.
  - exists []. split; [apply listen_iter_go_pending | reflexivity].
  - intros t (pend & Hg & Ha). unfold PL. rewrite next_iter_hist.
    unfold next_iter. destruct (prog t) as [[]|] eqn:E; rewrite ?E; eauto.
    simpl in Hg. subst pend. exists []. split; auto.
    apply listen_iter_go_pending.
  - intros t X op k a Hp (pend & Hg & Ha). rewrite Hp in Hg. simpl in Hg.
    specialize (Hg (a X op)). unfold PL. simpl.
    unfold accepted, started in *. rewrite !omap_app, Ha. simpl.
    destruct (event_of op (a X op)) as
      [| | | | | | c | [c|e] | | | | | | | | |]; simpl;
      try (exists pend; split; [exact Hg | now rewrite !app_nil_r]).
    + destruct Hg as [-> Hg]. exists [].
      split; [exact Hg | now rewrite ?app_nil_r].
    + destruct Hg as [-> Hg]. exists [c].
      split; [exact Hg | now rewrite ?app_nil_r].
Qed.

Lemma go_pending_length {A} (p : Prog A) pend :
  go_pending p pend -> length pend <= 1.
Proof.
  revert pend. induction p as [r|X op k IH]; simpl; intros pend H.
  - subst. simpl. lia.
  - specialize (H (answer calm op)).
    destruct (event_of op (answer calm op)) as
      [| | | | | | c | [c|e] | | | | | | | | |]; eauto.
    + destruct H as [-> _]. simpl. lia.
    + destruct H as [-> _]. simpl. lia.
Qed.

Lemma Forall2_insert_r {A B} (R : A -> B -> Prop) l k i y y' :
  Forall2 R l k -> k !! i = Some y -> (forall x, R x y -> R x y') ->
  Forall2 R l (<[i := y']> k).
Proof.
  intros H. revert i. induction H as [|a b l k Hab Hlk IH]; intros [|i] Hi Hy;
    simpl in *; try discriminate.
  - inversion Hi; subst. constructor; auto.
  - constructor; auto.
Qed.

Lemma started_served s :
  reachable s ->
  Forall2 serves (started (hist (listenG s))) (handshakes s).
Proof.
  intros (s0 & acts & H0 & H).
  cut (tokens_inv s /\ Forall2 serves (started (hist (listenG s))) (handshakes s));
    [tauto|].
  eapply (exec_invariant
            (fun s => tokens_inv s /\
                      Forall2 serves (started (hist (listenG s))) (handshakes s)));
    [| |exact H].
  - clear. intros s act s' [Hinv HF] Hstep.
    split; [eapply tokens_inv_step; eauto|].
    assert (Hnogo : forall X (op : Op X) x s1,
              perform s op x = Some s1 -> is_go (event_of op x) = false ->
              handshakes s1 = handshakes s /\ listenG s1 = listenG s).
    { intros X op x s1 Hp Hg. apply perform_effect in Hp as (E1 & _ & _ & E4 & _).
      split; auto. rewrite E4.
      destruct (event_of op x); try discriminate; apply app_nil_r. }
    assert (Hquiet : forall A (t : Thread A) X (op : Op X) k x,
              quiet t -> prog t = Vis op k -> is_go (event_of op x) = false).
    { intros A t X op k x (Hal & _) Hp. rewrite Hp in Hal. simpl in Hal.
      destruct (Hal x) as [Hfree _]. unfold sema_free in Hfree.
      apply negb_true_iff in Hfree. now apply orb_false_iff in Hfree as [_ ?]. }
    revert Hstep. unfold step. destruct (panicked s); [discriminate|].
    destruct act as [[|i|i|i] a|p j| |].
    + destruct (advance (listenG s) a s) as [[t s1]|] eqn:E; [|discriminate].
      intros H; inversion H; subst; clear H. simpl.
      apply advance_inv in E as (X & op & k & Hp & -> & Hpf).
      apply perform_effect in Hpf as (_ & _ & _ & E4 & _).
      rewrite next_iter_hist. simpl. unfold started. rewrite omap_app, E4.
      apply Forall2_app; auto.
      destruct (event_of op (a X op)); simpl; constructor; auto.
      apply runs_spawn.
    + destruct (handshakes s !! i) as [t|] eqn:Hi; [|discriminate].
      destruct (advance t a s) as [[t' s1]|] eqn:E; [|discriminate].
      intros H; inversion H; subst; clear H. simpl.
      apply advance_inv in E as (X & op & k & Hp & -> & Hpf).
      pose proof (proj1 (Forall_lookup _ _) (ti_tasks Hinv) i t Hi)
        as (_ & _ & Hcase).
      assert (Hg : is_go (event_of op (a X op)) = false).
      { destruct Hcase as [[Hh _]|[Hf _]];
          [|unfold finished in Hf; rewrite Hp in Hf; discriminate].
        rewrite Hp in Hh. simpl in Hh. specialize (Hh (a X op)).
        destruct (is_release _) eqn:Er.
        - destruct (event_of op (a X op)); try discriminate; reflexivity.
        - destruct Hh as [Hn _]. now apply orb_false_iff in Hn as [_ ?]. }
      destruct (Hnogo _ _ _ _ Hpf Hg) as [E1 E2]. rewrite E1, E2.
      eapply Forall2_insert_r; eauto.
      intros c Hc. now apply runs_step.
    + destruct (accepts s !! i) as [t|] eqn:Hi; [|discriminate].
      destruct (advance t a s) as [[t' s1]|] eqn:E; [|discriminate].
      intros H; inversion H; subst; clear H. simpl.
      apply advance_inv in E as (X & op & k & Hp & -> & Hpf).
      pose proof (proj1 (Forall_lookup _ _) (ti_accepts Hinv) i t Hi) as Hq.
      destruct (Hnogo _ _ _ _ Hpf (Hquiet _ _ _ _ _ _ Hq Hp)) as [E1 E2].
      now rewrite E1, E2.
    + destruct (closes s !! i) as [t|] eqn:Hi; [|discriminate].
      destruct (advance t a s) as [[t' s1]|] eqn:E; [|discriminate].
      intros H; inversion H; subst; clear H. simpl.
      apply advance_inv in E as (X & op & k & Hp & -> & Hpf).
      pose proof (proj1 (Forall_lookup _ _) (ti_closes Hinv) i t Hi) as Hq.
      destruct (Hnogo _ _ _ _ Hpf (Hquiet _ _ _ _ _ _ Hq Hp)) as [E1 E2].
      now rewrite E1, E2.
    + unfold handoff.
      destruct (accepts s !! j) as [ta|] eqn:Hj; [|discriminate].
      destruct p as [|i| |]; try discriminate.
      * destruct (sender (listenG s)) as [[m tl]|] eqn:Hs; [|discriminate].
        destruct (receiver ta m) as [ta'|] eqn:Hr; [|discriminate].
        intros H; inversion H; subst; clear H. simpl.
        apply sender_inv in Hs as (k & Hk & ->).
        rewrite next_iter_hist. simpl. unfold started. rewrite omap_app. simpl.
        now rewrite app_nil_r.
      * destruct (handshakes s !! i) as [th|] eqn:Hi; [|discriminate].
        destruct (sender th) as [[m th']|] eqn:Hs; [|discriminate].
        destruct (receiver ta m) as [ta'|] eqn:Hr; [|discriminate].
        intros H; inversion H; subst; clear H. simpl.
        apply sender_inv in Hs as (k & Hk & ->).
        eapply Forall2_insert_r; eauto.
        intros c Hc.
        apply (@runs_step _ (doHandshake c) th _ (SendConnsOrQuit m) k
                 (answer calm) Hk Hc).
    + intros H; inversion H; subst; clear H. exact HF.
    + intros H; inversion H; subst; clear H. exact HF.
  - split; [now apply tokens_inv_init|].
    apply NewListener_state in H0. subst. constructor.
Qed.

(** X12.  [listen] starts one handshake goroutine for each connection
    the raw accept returned, in order, and nothing else starts one.  In
    every state a listener can reach, the connections accepted are
    those a goroutine was started for, followed by one at most that was
    just accepted; there are as many handshake goroutines as
    connections started; and what the [i]-th goroutine has done so far
    is the beginning of a run of [doHandshake] on the [i]-th accepted
    connection, all of that run when the goroutine has returned. *)
Theorem one_goroutine_per_connection s :
  reachable s ->
  exists pend,
    accepted (hist (listenG s)) = started (hist (listenG s)) ++ pend /\
    length pend <= 1 /\
    length (handshakes s) = length (started (hist (listenG s))) /\
    forall i t, handshakes s !! i = Some t ->
      exists c (o : Oracle) rest,
        accepted (hist (listenG s)) !! i = Some c
        /\ trace o (doHandshake c) = hist t ++ rest
        /\ (finished t = true -> rest = []).
Proof.
  intros Hr.
  destruct (listen_accepts_then_starts Hr) as (pend & Hg & Ha).
  pose proof (started_served Hr) as HF.
  exists pend. split; [exact Ha|]. split; [eapply go_pending_length; eauto|].
  split; [symmetry; eapply Forall2_length; eauto|].
  intros i t Hi.
  destruct (Forall2_lookup_r _ _ _ _ _ HF Hi) as (c & Hc & Hserves).
  destruct (Hserves (fun _ => answer calm)) as [o Ho].
  exists c, o, (trace_from (fun _ => answer calm) (length (hist t)) (prog t)).
  split; [|split; [exact Ho|]].
  - rewrite Ha. now apply lookup_app_l_Some.
  - unfold finished. destruct (prog t); [reflexivity|discriminate].
Qed.

End Listener.

(** ** Concrete runs

    The constants declared outside [listener.go] are set to 50, 66 and
    5 here; nothing depends on the choice. *)

Lemma capacity_invariant_witness :
  after_run 50 66 5 served
    (fun s => active s <= defaultHandshakes
              /\ in_flight s + handshakeSema s = defaultHandshakes).
Proof.
  unfold after_run.
  destruct (start 50 66 5 served) as [s|] eqn:E;
    [|vm_compute in E; discriminate].
  destruct (proj1 (capacity_invariant 50 66 5) s (start_reachable _ _ _ _ E))
    as (H1 & _ & _ & H2 & _).
  split; assumption.
Defined.

Lemma outcome_exclusive_witness :
  after_run 50 66 5 served
    (fun s => forallb exactly_one (emitted (hist (listenG s))) = true).
Proof.
  unfold after_run.
  destruct (start 50 66 5 served) as [s|] eqn:E;
    [|vm_compute in E; discriminate].
  exact (proj1 (@outcome_exclusive 50 66 5 s (start_reachable _ _ _ _ E))).
Defined.

(** A caller of [Accept] on a fresh listener stays blocked; a caller
    that finds a handshake goroutine in [acceptConn] receives from it,
    after which that goroutine offers nothing more. *)
Lemma accept_rendezvous_witness :
  (let s := set_accepts [spawn Accept] fresh_listener in
   step 50 66 5 s (Run (TAccept 0) (answer closing)) = None
   /\ step 50 66 5 s (Handoff TListen 0) = None)
  /\ after_run 50 66 5 offered_to_caller
       (fun s =>
          exists s', step 50 66 5 s (Handoff (THandshake 0) 0) = Some s'
                     /\ offer_of s' (THandshake 0) = None)
  /\ after_run 50 66 5 served
       (fun s =>
          Forall (fun t => count_in is_reception t <= 1) (accepts s)
          /\ Forall (fun t => count_in is_emission t <= 1) (handshakes s)).
Proof.
  split; [|split].
  - intros s.
    destruct (proj1 (accept_rendezvous 50 66 5) s 0 (spawn Accept)
                eq_refl eq_refl eq_refl) as (Hblocked & _).
    destruct (Hblocked eq_refl eq_refl) as [H1 H2].
    split; [apply H1 | apply H2].
  - unfold after_run.
    destruct (start 50 66 5 offered_to_caller) as [s|] eqn:E;
      [|vm_compute in E; discriminate].
    assert (H : panicked s = false /\ accepts s !! 0 = Some (spawn Accept)
                /\ offer_of s (THandshake 0) = Some served_conn)
      by (vm_compute in E; injection E as E; subst; repeat split; reflexivity).
    destruct H as (Hnp & Hj & Ho).
    destruct (proj1 (accept_rendezvous 50 66 5) s 0 (spawn Accept)
                Hnp Hj eq_refl) as (_ & _ & Hoff & _).
    destruct (Hoff (THandshake 0) served_conn Ho) as (s' & Hs' & _).
    exists s'. split; [exact Hs'|].
    exact (proj1 (proj2 (accept_rendezvous 50 66 5) s
                    (start_reachable _ _ _ _ E)) _ _ _ Hs').
  - unfold after_run.
    destruct (start 50 66 5 served) as [s|] eqn:E;
      [|vm_compute in E; discriminate].
    destruct (proj2 (accept_rendezvous 50 66 5) s (start_reachable _ _ _ _ E))
      as (_ & _ & _ & HA & HT & _).
    split; assumption.
Defined.

Lemma close_twice_witness :
  exec 50 66 5 fresh_listener
    ([CallClose; Run (TClose 0) (answer calm); Run (TClose 0) (answer calm);
      Run (TClose 0) (answer calm)]
     ++ [CallClose; Run (TClose 1) (answer closing);
         Run (TClose 1) (answer calm)])
  = Some (set_closes
            [{| prog := Ret None;
                hist := [EvPollQuit false; EvCloseQuit; EvTcpClose None] |};
             {| prog := Ret None;
                hist := [EvPollQuit true; EvTcpClose None] |}]
            (set_quit true fresh_listener)).
Proof.
  exact (proj1 (close_twice 50 66 5 fresh_listener
                  (answer calm) (answer calm) (answer calm)
                  (answer closing) (answer calm) eq_refl)
           eq_refl eq_refl eq_refl).
Defined.

(** C3, counterexample: the second of two calls of [Close] returns the
    error the raw listener reports for a listener that is closed
    already. *)
Lemma second_close_returns_error :
  after_run 50 66 5 closed_twice
    (fun s =>
       quit s = true /\ panicked s = false /\
       closes s
       = [{| prog := Ret None;
             hist := [EvPollQuit false; EvCloseQuit; EvTcpClose None] |};
          {| prog := Ret (Some "use of closed network connection"%string);
             hist := [EvPollQuit true;
                      EvTcpClose (Some "use of closed network connection"%string)] |}]).
Proof. vm_compute. repeat split. Qed.

Lemma accept_error_continues_witness :
  let o := script [calm; refusing] in
  let m := {| conn := None; err := Some "accept: too many open files"%string |} in
  trace o listen_iter
  = [EvRecvSema true; EvTcpAccept (Err "accept: too many open files"%string);
     EvSendConns m true; EvSendSema]
  /\ returns o listen_iter = Continue.
Proof.
  intros o m.
  destruct (proj1 (accept_error_continues 50 66 5) o
              "accept: too many open files"%string eq_refl eq_refl)
    as (H1 & _ & H2).
  split; [exact H1 | exact H2].
Defined.

(** C5, counterexample: the raw accept fails after the listener was
    closed; the error outcome is dropped, nothing is delivered to the
    Result Channel, the token goes back and the loop goes on. *)
Lemma accept_error_dropped :
  let tr := trace (script [calm; closing; closing]) listen_iter in
  let m := {| conn := None;
              err := Some "use of closed network connection"%string |} in
  tr = [EvRecvSema true;
        EvTcpAccept (Err "use of closed network connection"%string);
        EvSendConns m false; EvSendSema]
  /\ emitted tr = []
  /\ after_run 50 66 5 close_then_accept_fails
       (fun s => hist (listenG s) = tr
                 /\ finished (listenG s) = false
                 /\ count_all is_emission s = 0
                 /\ handshakeSema s = defaultHandshakes).
Proof. vm_compute. repeat split. Qed.

Lemma pre_check_no_io_witness :
  trace (script [closing]) (doHandshake 50 66 5 7)
  = [EvPollQuit true; EvSendSema].
Proof.
  destruct (pre_check_no_io 50 66 5) as (_ & H & _).
  exact (proj1 (H (script [closing]) 7 eq_refl)).
Defined.

Lemma outcomes_per_task_witness :
  length (emitted (trace (script []) (doHandshake 50 66 5 7))) = 1
  /\ quit (set_quit true fresh_listener) = true.
Proof.
  destruct (outcomes_per_task 50 66 5) as [H1 H2]. split.
  - exact (proj2 (proj2 (H1 (script []) 7))).
  - exact (H2 (set_quit true fresh_listener)
             {| conn := None; err := Some "unexpected EOF"%string |}
             (set_quit true fresh_listener) eq_refl).
Defined.

(** C2, counterexample: a task that finds [quit] closed at its first
    check is not on the mid-handshake branch and emits no outcome. *)
Lemma pre_check_emits_nothing :
  let tr := trace (script [closing]) (doHandshake 50 66 5 7) in
  tr = [EvPollQuit true; EvSendSema]
  /\ mid_check_exit tr = false
  /\ length (emitted tr) = 0
  /\ after_run 50 66 5 closed_before_handshake
       (fun s => hist_of s (THandshake 0) = tr
                 /\ (@finished _ <$> handshakes s !! 0) = Some true).
Proof. vm_compute. repeat split. Qed.

Lemma deadlines_per_task_witness :
  count_if is_arm (trace (script []) (doHandshake 50 66 5 7)) = 2.
Proof.
  destruct (deadlines_per_task 50 66 5 (script []) 7) as (_ & _ & _ & _ & H).
  exact (proj1 (H eq_refl)).
Defined.

(** C8, counterexample: a task that leaves at its first check of [quit]
    sets no deadline, and one whose peer hangs up before Act One sets
    one. *)
Lemma fewer_than_two_deadlines :
  let tr0 := trace (script [closing]) (doHandshake 50 66 5 7) in
  let tr1 := trace (script [calm; calm; calm; hangup]) (doHandshake 50 66 5 7) in
  count_if is_arm tr0 = 0 /\ count_if is_arm tr1 = 1
  /\ after_run 50 66 5 closed_before_handshake
       (fun s => hist_of s (THandshake 0) = tr0
                 /\ (@finished _ <$> handshakes s !! 0) = Some true).
Proof. vm_compute. repeat split. Qed.

Lemma closes_on_quit_exit_witness :
  count_if is_close (trace (script [closing]) (doHandshake 50 66 5 7)) = 0.
Proof.
  destruct (closes_on_quit_exit 50 66 5 (script [closing]) 7)
    as (_ & _ & H & _).
  exact (H eq_refl).
Defined.

(** C10, counterexample: the peer hangs up, the task closes the
    connection, and the delivery of the error then takes the quit
    case: the task leaves because of [quit] and has closed the
    connection. *)
Lemma error_delivery_lost_after_close :
  let tr := trace (script [calm; calm; calm; hangup; calm; closing])
              (doHandshake 50 66 5 7) in
  tr = [EvPollQuit false; EvNewNoiseMachine false 1;
        EvSetReadDeadline 7 (NowAdd 5) None;
        EvReadFull 7 50 (Err "unexpected EOF"%string);
        EvConnClose 7 None;
        EvSendConns {| conn := None; err := Some "unexpected EOF"%string |} false;
        EvSendSema]
  /\ delivery_lost tr = true
  /\ count_if is_close tr = 1
  /\ after_run 50 66 5 hangup_then_close
       (fun s => hist_of s (THandshake 0) = tr
                 /\ (@finished _ <$> handshakes s !! 0) = Some true).
Proof. vm_compute. repeat split. Qed.

Lemma three_act_sequence_witness :
  (exists m r1 e1 r2 e2 r3 e3,
     [EvReadFull 7 50 r1; EvRecvActOne m (payload r1) e1;
      EvGenActTwo m r2; EvConnWrite 7 (payload r2) e2;
      EvReadFull 7 66 r3; EvRecvActThree m (payload r3) e3]
     = List.filter is_act (trace (script []) (doHandshake 50 66 5 7)))
  /\ failures (trace (script []) (doHandshake 50 66 5 7)) = []
  /\ exists done f,
       List.filter is_act
         (trace (script [calm; calm; calm; hangup]) (doHandshake 50 66 5 7))
       = done ++ [f]
       /\ failure f = Some "unexpected EOF"%string /\ failures done = [].
Proof.
  destruct (proj1 (three_act_sequence 50 66 5 (script []) 7))
    as (m & r1 & e1 & r2 & e2 & r3 & e3 & rest & Hsix & Hs & _).
  destruct (proj1 Hs eq_refl) as [Hrest Hf].
  rewrite Hrest, app_nil_r in Hsix.
  split; [exists m, r1, e1, r2, e2, r3, e3; exact Hsix|].
  split; [exact Hf|].
  destruct (proj1 (three_act_sequence 50 66 5
                     (script [calm; calm; calm; hangup]) 7))
    as (_ & _ & _ & _ & _ & _ & _ & _ & _ & _ & _ & _ & _ & Hfail).
  exact (Hfail "unexpected EOF"%string eq_refl).
Defined.

(** C6, counterexample: the read of Act One fails and the delivery of
    the error takes the quit case: the connection is closed, the task
    ends, and no outcome is emitted. *)
Lemma failed_step_emits_nothing :
  let tr := trace (script [calm; calm; calm; hangup; calm; closing])
              (doHandshake 50 66 5 7) in
  failures tr = ["unexpected EOF"%string]
  /\ count_if is_close tr = 1
  /\ offered tr = [{| conn := None; err := Some "unexpected EOF"%string |}]
  /\ emitted tr = []
  /\ after_run 50 66 5 hangup_then_close
       (fun s => hist_of s (THandshake 0) = tr
                 /\ count_all is_emission s = 0
                 /\ (@finished _ <$> handshakes s !! 0) = Some true).
Proof. vm_compute. repeat split. Qed.

(** ** The further properties at concrete executions *)

(** Replace a state by what the run that leads to it computes. *)
Ltac known E := vm_compute in E; injection E as E; subst.

Lemma quit_one_way_witness :
  after_run 50 66 5 closed_twice
    (fun s => quit s = true /\ 1 <= count_all is_close_quit s)
  /\ match exec 50 66 5 (set_quit true fresh_listener)
             (close_closed 0 closing) with
     | Some s' => quit s' = true
     | None => False
     end.
Proof.
  split.
  - unfold after_run.
    destruct (start 50 66 5 closed_twice) as [s|] eqn:E;
      [|vm_compute in E; discriminate].
    destruct (proj2 (quit_one_way 50 66 5) s (start_reachable _ _ _ _ E))
      as (Hiff & _).
    assert (Hq : quit s = true) by (known E; reflexivity).
    split; [exact Hq | exact (proj1 Hiff Hq)].
  - destruct (exec 50 66 5 (set_quit true fresh_listener)
                (close_closed 0 closing)) as [s'|] eqn:E;
      [|vm_compute in E; discriminate].
    exact (proj1 (quit_one_way 50 66 5) _ _ _ E eq_refl).
Defined.

Lemma concurrent_close_panics_witness :
  (exists s', exec 50 66 5 fresh_listener closed_at_once = Some s'
              /\ panicked s' = true)
  /\ after_run 50 66 5 closed_at_once
       (fun s =>
          (exists i j ti tj,
             i <> j /\ closes s !! i = Some ti /\ closes s !! j = Some tj
             /\ count_in is_close_quit ti = 1
             /\ count_in is_close_quit tj = 1)
          /\ step 50 66 5 s (Run (TClose 0) (answer calm)) = None).
Proof.
  split.
  - exact (proj1 (concurrent_close_panics 50 66 5) fresh_listener
             (answer calm) (answer calm) eq_refl eq_refl eq_refl eq_refl).
  - unfold after_run.
    destruct (start 50 66 5 closed_at_once) as [s|] eqn:E;
      [|vm_compute in E; discriminate].
    assert (Hp : panicked s = true) by (known E; reflexivity).
    destruct (concurrent_close_panics 50 66 5) as (_ & H2 & H3).
    split; [exact (H2 s (start_reachable _ _ _ _ E) Hp) | exact (H3 s _ Hp)].
Defined.

Lemma outcomes_conserved_witness :
  after_run 50 66 5 served
    (fun s =>
       count_all (emits served_conn) s = count_all (receives served_conn) s
       /\ sum_list_with (count_in (receives served_conn)) (accepts s)
          = count_in (emits served_conn) (listenG s)
            + sum_list_with (count_in (emits served_conn)) (handshakes s)
       /\ Forall (fun t => length (offered (hist t)) <= 1) (handshakes s)
       /\ Forall (fun t => length (received (hist t)) <= 1) (accepts s))
  /\ after_run 50 66 5 accept_fails_unheard
       (fun s =>
          exists pend,
            map rejected (accept_errors (hist (listenG s)))
            = offered (hist (listenG s)) ++ map rejected pend
            /\ length pend <= 1).
Proof.
  destruct (outcomes_conserved 50 66 5) as (_ & H2 & H3 & H4).
  split; unfold after_run.
  - destruct (start 50 66 5 served) as [s|] eqn:E;
      [|vm_compute in E; discriminate].
    pose proof (start_reachable _ _ _ _ E) as Hr.
    split; [exact (H2 s served_conn Hr)|].
    split; [exact (H3 s served_conn Hr)|].
    exact (proj2 (H4 s Hr)).
  - destruct (start 50 66 5 accept_fails_unheard) as [s|] eqn:E;
      [|vm_compute in E; discriminate].
    exact (proj1 (H4 s (start_reachable _ _ _ _ E))).
Defined.

Lemma tokens_at_rest_witness :
  after_run 50 66 5 served
    (fun s => handshakeSema s + active s = defaultHandshakes).
Proof.
  unfold after_run.
  destruct (start 50 66 5 served) as [s|] eqn:E;
    [|vm_compute in E; discriminate].
  assert (Hl : finished (listenG s) = true
               \/ prog (listenG s) = listen_iter)
    by (right; known E; reflexivity).
  exact (proj1 (@tokens_at_rest 50 66 5 s (start_reachable _ _ _ _ E) Hl)).
Defined.

Lemma listen_waits_for_token_witness :
  after_run 50 66 5 served
    (fun s =>
       active s < defaultHandshakes /\
       exists s', step 50 66 5 s (Run TListen (answer calm)) = Some s'
                  /\ handshakeSema s' + 1 = handshakeSema s)
  /\ after_run 50 66 5 pool_exhausted
       (fun s =>
          active s = defaultHandshakes
          /\ step 50 66 5 s (Run TListen (answer calm)) = None).
Proof.
  split; unfold after_run.
  - destruct (start 50 66 5 served) as [s|] eqn:E;
      [|vm_compute in E; discriminate].
    assert (Hp : panicked s = false) by (known E; reflexivity).
    assert (Hl : prog (listenG s) = listen_iter) by (known E; reflexivity).
    assert (Hs : 0 < handshakeSema s)
      by (known E; apply Nat.ltb_lt; vm_compute; reflexivity).
    exact (proj1 (proj2 (@listen_waits_for_token 50 66 5 s
                           (start_reachable _ _ _ _ E) Hp Hl)) Hs).
  - destruct (start 50 66 5 pool_exhausted) as [s|] eqn:E;
      [|vm_compute in E; discriminate].
    assert (H : panicked s = false /\ prog (listenG s) = listen_iter
                /\ handshakeSema s = 0 /\ quit s = false)
      by (known E; repeat split; reflexivity).
    destruct H as (Hp & Hl & Hs & Hq).
    destruct (proj1 (@listen_waits_for_token 50 66 5 s
                       (start_reachable _ _ _ _ E) Hp Hl) Hs Hq) as [H1 H2].
    split; [exact H1 | exact (H2 _)].
Defined.

Lemma undelivered_error_stalls_listen_witness :
  after_run 50 66 5 accept_fails_unheard
    (fun s =>
       step 50 66 5 s (Run TListen (answer calm)) = None
       /\ step 50 66 5 s (Handoff TListen 0) = None
       /\ exists e,
            offer_of s TListen = Some (rejected e)
            /\ map rejected (accept_errors (hist (listenG s)))
               = offered (hist (listenG s)) ++ [rejected e]).
Proof.
  unfold after_run.
  destruct (start 50 66 5 accept_fails_unheard) as [s|] eqn:E;
    [|vm_compute in E; discriminate].
  assert (Hq : quit s = false) by (known E; reflexivity).
  assert (Ho : offers (listenG s) = true) by (known E; reflexivity).
  assert (Hw : existsb (@waits _) (accepts s) = false)
    by (known E; reflexivity).
  destruct (@undelivered_error_stalls_listen 50 66 5 s Hq Ho)
    as (H1 & _ & H3 & H4).
  split; [exact (H1 _)|]. split; [exact (H3 Hw 0)|].
  exact (H4 (start_reachable _ _ _ _ E)).
Defined.

Lemma no_channel_wait_after_close_witness :
  after_run 50 66 5 closed_with_waiters
    (fun s =>
       (exists s', step 50 66 5 s (Run TListen (answer closing)) = Some s'
                   /\ prog (listenG s') = Ret Return)
       /\ (exists s',
             step 50 66 5 s (Run (THandshake 0) (answer closing)) = Some s')
       /\ exists t s',
            accepts s !! 0 = Some t
            /\ step 50 66 5 s (Run (TAccept 0) (answer closing)) = Some s'
            /\ accepts s' !! 0
               = Some {| prog := Ret (NilIface,
                                      Some "lndc connection closed"%string);
                         hist := hist t ++ [EvRecvConns None] |}).
Proof.
  unfold after_run.
  destruct (start 50 66 5 closed_with_waiters) as [s|] eqn:E;
    [|vm_compute in E; discriminate].
  assert (Hp : panicked s = false) by (known E; reflexivity).
  assert (Hq : quit s = true) by (known E; reflexivity).
  assert (Hl : prog (listenG s) = listen_iter) by (known E; reflexivity).
  assert (Hh : exists t, handshakes s !! 0 = Some t /\ at_channel t = true)
    by (known E; eexists; split; reflexivity).
  assert (Ha : exists t, accepts s !! 0 = Some t /\ finished t = false)
    by (known E; eexists; split; reflexivity).
  destruct Hh as (th & Hth & Hc). destruct Ha as (ta & Hta & Hf).
  destruct (@no_channel_wait_after_close 50 66 5 s
              (start_reachable _ _ _ _ E) Hp Hq) as (_ & H2 & H3 & H4 & _).
  split; [exact (H2 Hl)|]. split; [exact (H3 0 th Hth Hc)|].
  destruct (H4 0 ta Hta Hf) as (s' & Hs' & Hr).
  exists ta, s'. auto.
Defined.

Lemma accept_returns_once_witness :
  after_run 50 66 5 served
    (fun s =>
       Forall (fun t =>
            accept_form t /\
            forall c e, prog t = Ret (c, e) ->
              (c = NilIface /\ e = Some "lndc connection closed"%string
               /\ hist t = [EvRecvConns None])
              \/ (exists cn, c = IfaceConn (Some cn) /\ e = None
                    /\ hist t = [EvRecvConns (Some {| conn := Some cn; err := None |})])
              \/ (exists x, c = IfaceConn None /\ e = Some x
                    /\ hist t = [EvRecvConns (Some {| conn := None; err := Some x |})]))
       (accepts s)).
Proof.
  unfold after_run.
  destruct (start 50 66 5 served) as [s|] eqn:E;
    [|vm_compute in E; discriminate].
  exact (@accept_returns_once 50 66 5 s (start_reachable _ _ _ _ E)).
Defined.

Lemma secured_connection_is_authenticated_witness :
  exists mach b1 b2 b3 e1 e2 e3 sent,
    served_conn
    = {| conn := Some {| Conn_conn := 7; Conn_noise := mach |}; err := None |}
    /\ trace (script []) (doHandshake 50 66 5 7)
       = [EvPollQuit false; EvNewNoiseMachine false mach;
          EvSetReadDeadline 7 (NowAdd 5) e1;
          EvReadFull 7 50 (Ok b1);
          EvRecvActOne mach b1 None;
          EvGenActTwo mach (Ok b2);
          EvConnWrite 7 b2 None;
          EvPollQuit false;
          EvSetReadDeadline 7 (NowAdd 5) e2;
          EvReadFull 7 66 (Ok b3);
          EvRecvActThree mach b3 None;
          EvSetReadDeadline 7 ZeroTime e3;
          EvSendConns served_conn sent; EvSendSema].
Proof.
  refine (proj2 (@secured_connection_is_authenticated 50 66 5 (script []) 7)
            served_conn _ eq_refl).
  vm_compute. left. reflexivity.
Defined.

Lemma no_use_after_close_witness :
  succeeded (trace (script [calm; calm; calm; hangup]) (doHandshake 50 66 5 7))
  = false.
Proof.
  refine (proj2 (proj2 (proj2
            (@no_use_after_close 50 66 5 (script [calm; calm; calm; hangup]) 7)))
            _).
  vm_compute. reflexivity.
Defined.

Lemma one_goroutine_per_connection_witness :
  after_run 50 66 5 served
    (fun s =>
       exists pend,
         accepted (hist (listenG s)) = started (hist (listenG s)) ++ pend /\
         length pend <= 1 /\
         length (handshakes s) = length (started (hist (listenG s))) /\
         forall i t, handshakes s !! i = Some t ->
           exists c (o : Oracle) rest,
             accepted (hist (listenG s)) !! i = Some c
             /\ trace o (doHandshake 50 66 5 c) = hist t ++ rest
             /\ (finished t = true -> rest = [])).
Proof.
  unfold after_run.
  destruct (start 50 66 5 served) as [s|] eqn:E;
    [|vm_compute in E; discriminate].
  exact (@one_goroutine_per_connection 50 66 5 s (start_reachable _ _ _ _ E)).
Defined.
